(** * SimplyLegal: the client-side processing screen, upload validation and
      mock authentication, embedded from the React sources.

    Conventions of the embedding.
    - A JavaScript number is a rational ([Q]) that a binary64 double holds.
      Every operation whose result can have a fraction (the divisions, the
      products with a fraction, [prev + 0.3], the animation's arithmetic) is
      rounded with [fl], the nearest double, ties to even; [Math.round] is
      [floor (x + 1/2)] and [Math.floor] is [Qfloor], both exact.  The
      exponent of [fl] is not bounded: overflow to Infinity and gradual
      underflow are outside the model, and so is a step past the end of the
      weight table (no reachable state has one).  Differences of
      [Date.now()] readings and sums of the integer weights are integers far
      below 2^53 and are written without rounding.
    - An object literal used as a lookup table is a finite map on its own
      keys together with the members every object inherits from
      [Object.prototype]: a lookup under such a name yields a function (or,
      for [__proto__], the prototype), which is truthy and is not a number.
      [localStorage] is a [gmap string string].
    - A React component is a record of its [useState] cells.  An event
      handler is a function on that record; the render and the effects that
      React runs after the handler are composed behind it in [commit], each
      effect guarded by its dependency array, the re-render that an effect's
      own updates cause being folded into the same commit.  Events are
      handled one at a time and a commit is complete before the next timer
      fires.  A callback registered by an effect keeps the closure of the
      render in which the effect ran: the interval of the processing screen
      reads [message] and [highestStepReached] from it, not from the current
      state.
    - [Date.now()] readings are inputs of the events and are arbitrary.
      [performance.now()] is the page's monotonic clock, kept in the state in
      microseconds; the timestamp the browser passes to an animation frame
      is an input of its own, which may precede the last reading of the
      clock.
    - Work that completes later is kept in the state until the event that
      completes it: a [FileReader] that has not fired [onload], the interval
      of an upload, a request awaiting its response.  A library the page
      imports is modelled by what it hands to the page's code:
      react-dropzone by the files it passes to [onDrop]. *)

From Stdlib Require Import ZArith QArith Qround Qminmax Qabs Qpower Lia Lqa List Ascii.
From stdpp Require Import gmap strings list.

Local Open Scope string_scope.
Local Open Scope Z_scope.

(** ** JavaScript helpers *)

(** [Math.round]: nearest integer, halves towards +infinity. *)
Definition Math_round (x : Q) : Q := inject_Z (Qfloor (x + (1 # 2))).

(** [x < y] on numbers, as a boolean. *)
Definition Qltb (x y : Q) : bool := if Qlt_le_dec x y then true else false.

(** [a || b] on a possibly absent string: the empty string is falsy. *)
Definition or_else (a : option string) (b : string) : string :=
  match a with
  | Some x => if String.eqb x "" then b else x
  | None => b
  end.

(** *** Doubles *)

(** Nearest integer, ties to even. *)
Definition round_even (x : Q) : Z :=
  let f := Qfloor x in
  match Qcompare (x - inject_Z f) (1 # 2) with
  | Lt => f
  | Gt => f + 1
  | Eq => if Z.even f then f else f + 1
  end.

(** The binade of a positive number: the [e] with [2^e <= x < 2^(e+1)]. *)
Definition binade (x : Q) : Z :=
  let e := Z.log2 (Qnum x) - Z.log2 (Zpos (Qden x)) in
  if Qle_bool (2 ^ e) x then e else e - 1.

(** The spacing of the doubles in the binade of [x]: 53 significant bits. *)
Definition ulp (x : Q) : Q := (2 ^ (binade x - 52))%Q.

Definition round53 (x : Q) : Q :=
  (inject_Z (round_even (x / ulp x)) * ulp x)%Q.

(** The double nearest to [x], ties to even: what an arithmetic operation
    of JavaScript returns for the exact result [x]. *)
Definition fl (x : Q) : Q :=
  match Qcompare x 0 with
  | Eq => 0
  | Gt => round53 x
  | Lt => - round53 (- x)
  end%Q.

Definition is_double (x : Q) : Prop := (fl x == x)%Q.

(** *** Object literals as lookup tables *)

(** A step index as the code computes with it: an integer, or [NaN].  A
    member inherited from [Object.prototype] is not a number; the comparison
    and the [Math.max] of [getCurrentStep] turn it into [NaN], which is how
    it is written here from the lookup on. *)
Inductive Step := Index (k : Z) | NaN.

(** The names every object literal inherits from [Object.prototype]. *)
Definition inheritedNames : list string :=
  ["constructor"; "hasOwnProperty"; "isPrototypeOf"; "propertyIsEnumerable";
   "toLocaleString"; "toString"; "valueOf"; "__proto__";
   "__defineGetter__"; "__defineSetter__"; "__lookupGetter__";
   "__lookupSetter__"].

(** [table[key]] used as a condition and then as a step: an own entry whose
    value is truthy, or an inherited member, which is always truthy. *)
Definition lookup_truthy (table : gmap string Z) (key : string) : option Step :=
  match table !! key with
  | Some v => if v =? 0 then None else Some (Index v)
  | None => if existsb (String.eqb key) inheritedNames then Some NaN else None
  end.

(** Sum of a list of weights, as the accumulating [for] loop computes it. *)
Definition sum_weights (ws : list Z) : Z := fold_left Z.add ws 0.

Module ProcessingScreen.

(** *** Lookup tables of [getCurrentStep] *)

Definition messageToStep : gmap string Z :=
  <["Extracting text from document..." := 1]>
  (<["Performing AI analysis with Gemini..." := 2]>
  (<["Creating document summary..." := 2]>
  (<["Performing deep analysis..." := 3]>
  (<["Indexing document for search..." := 5]>
  (<["Document analysis completed successfully!" := 5]> ∅))))).

Definition statusToStep : gmap string Z :=
  <["processing" := 1]> (<["analyzing" := 2]> ∅).

(** The five entries of [processingSteps] (ids only). *)
Definition processingSteps : list string :=
  ["upload"; "extract"; "summary"; "deep"; "index"].

Definition stepDurations : list Z := [6; 18; 24; 30; 30; 12].
Definition stepWeights : list Z := [5; 15; 20; 25; 25; 10].

(** The step computed from [(status, message)] before the ratchet. *)
Definition rawStep (status message : string) : Step :=
  if String.eqb status "completed" then Index 5
  else if String.eqb status "failed" || String.eqb status "error" then Index 0
  else match lookup_truthy messageToStep message with
       | Some k => k
       | None =>
           match lookup_truthy statusToStep status with
           | Some k => k
           | None => Index 0
           end
       end.

(** *** Component state *)

(** Closure of a running [animate] loop of [useSmoothProgress]. *)
Record Animation := {
  startProgress : Q;
  endProgress : Q;
  animStart : Q          (* performance.now() when the effect ran *)
}.

(** What the callback of the 600ms interval reads from the closure of the
    render in which the interval was registered. *)
Record Closure := {
  c_status : string;
  c_message : string;
  c_targetProgress : Q;
  c_lastProgressUpdate : Z;
  c_highestStepReached : Z
}.

(** A timer registered by [checkStatus]. *)
Inductive Timer :=
| NavigateAfter (delay : Z) (path : string)
| PollAfter (delay : Z).

Record State := {
  status : string;
  targetProgress : Q;
  message : string;
  error : option string;
  lastProgressUpdate : Z;
  highestStepReached : Z;
  startTime : Z;
  (* useSmoothProgress *)
  smoothProgress : Q;
  animation : option Animation;
  (* the 600ms interval, if one is registered, with its closure *)
  interval : option Closure;
  (* the outside world as the component sees it *)
  perfMicros : N;               (* performance.now(), in microseconds *)
  timers : list Timer;          (* every timer checkStatus registered *)
  pollPending : bool;           (* a checkStatus call is scheduled *)
  statusRequests : nat          (* GET /api/status requests issued *)
}.

(** A time given in microseconds, as the double of milliseconds that
    [performance.now()] and the frame callbacks deal in. *)
Definition millis (t : N) : Q := fl (Z.of_N t # 1000).

Definition performance_now (s : State) : Q := millis (perfMicros s).

Definition estimatedDuration : Z := 120000.
Definition smoothDuration : Q := 3000.

Definition setStatus (v : string) (s : State) : State :=
  {| status := v; targetProgress := targetProgress s; message := message s;
     error := error s; lastProgressUpdate := lastProgressUpdate s;
     highestStepReached := highestStepReached s; startTime := startTime s;
     smoothProgress := smoothProgress s; animation := animation s;
     interval := interval s; perfMicros := perfMicros s; timers := timers s;
     pollPending := pollPending s; statusRequests := statusRequests s |}.

Definition setTargetProgress (v : Q) (s : State) : State :=
  {| status := status s; targetProgress := v; message := message s;
     error := error s; lastProgressUpdate := lastProgressUpdate s;
     highestStepReached := highestStepReached s; startTime := startTime s;
     smoothProgress := smoothProgress s; animation := animation s;
     interval := interval s; perfMicros := perfMicros s; timers := timers s;
     pollPending := pollPending s; statusRequests := statusRequests s |}.

Definition setMessage (v : string) (s : State) : State :=
  {| status := status s; targetProgress := targetProgress s; message := v;
     error := error s; lastProgressUpdate := lastProgressUpdate s;
     highestStepReached := highestStepReached s; startTime := startTime s;
     smoothProgress := smoothProgress s; animation := animation s;
     interval := interval s; perfMicros := perfMicros s; timers := timers s;
     pollPending := pollPending s; statusRequests := statusRequests s |}.

Definition setError (v : option string) (s : State) : State :=
  {| status := status s; targetProgress := targetProgress s;
     message := message s; error := v;
     lastProgressUpdate := lastProgressUpdate s;
     highestStepReached := highestStepReached s; startTime := startTime s;
     smoothProgress := smoothProgress s; animation := animation s;
     interval := interval s; perfMicros := perfMicros s; timers := timers s;
     pollPending := pollPending s; statusRequests := statusRequests s |}.

Definition setLastProgressUpdate (v : Z) (s : State) : State :=
  {| status := status s; targetProgress := targetProgress s;
     message := message s; error := error s; lastProgressUpdate := v;
     highestStepReached := highestStepReached s; startTime := startTime s;
     smoothProgress := smoothProgress s; animation := animation s;
     interval := interval s; perfMicros := perfMicros s; timers := timers s;
     pollPending := pollPending s; statusRequests := statusRequests s |}.

Definition setHighestStepReached (v : Z) (s : State) : State :=
  {| status := status s; targetProgress := targetProgress s;
     message := message s; error := error s;
     lastProgressUpdate := lastProgressUpdate s;
     highestStepReached := v; startTime := startTime s;
     smoothProgress := smoothProgress s; animation := animation s;
     interval := interval s; perfMicros := perfMicros s; timers := timers s;
     pollPending := pollPending s; statusRequests := statusRequests s |}.

Definition setSmoothProgress (v : Q) (s : State) : State :=
  {| status := status s; targetProgress := targetProgress s;
     message := message s; error := error s;
     lastProgressUpdate := lastProgressUpdate s;
     highestStepReached := highestStepReached s; startTime := startTime s;
     smoothProgress := v; animation := animation s;
     interval := interval s; perfMicros := perfMicros s; timers := timers s;
     pollPending := pollPending s; statusRequests := statusRequests s |}.

Definition setAnimation (v : option Animation) (s : State) : State :=
  {| status := status s; targetProgress := targetProgress s;
     message := message s; error := error s;
     lastProgressUpdate := lastProgressUpdate s;
     highestStepReached := highestStepReached s; startTime := startTime s;
     smoothProgress := smoothProgress s; animation := v;
     interval := interval s; perfMicros := perfMicros s; timers := timers s;
     pollPending := pollPending s; statusRequests := statusRequests s |}.

Definition setInterval (v : option Closure) (s : State) : State :=
  {| status := status s; targetProgress := targetProgress s;
     message := message s; error := error s;
     lastProgressUpdate := lastProgressUpdate s;
     highestStepReached := highestStepReached s; startTime := startTime s;
     smoothProgress := smoothProgress s; animation := animation s;
     interval := v; perfMicros := perfMicros s; timers := timers s;
     pollPending := pollPending s; statusRequests := statusRequests s |}.

Definition setPerfMicros (v : N) (s : State) : State :=
  {| status := status s; targetProgress := targetProgress s;
     message := message s; error := error s;
     lastProgressUpdate := lastProgressUpdate s;
     highestStepReached := highestStepReached s; startTime := startTime s;
     smoothProgress := smoothProgress s; animation := animation s;
     interval := interval s; perfMicros := v; timers := timers s;
     pollPending := pollPending s; statusRequests := statusRequests s |}.

(** Time passes: the monotonic clock moves forward by [dt] microseconds. *)
Definition advance (dt : N) (s : State) : State :=
  {| status := status s; targetProgress := targetProgress s;
     message := message s; error := error s;
     lastProgressUpdate := lastProgressUpdate s;
     highestStepReached := highestStepReached s; startTime := startTime s;
     smoothProgress := smoothProgress s; animation := animation s;
     interval := interval s; perfMicros := (perfMicros s + dt)%N; timers := timers s;
     pollPending := pollPending s; statusRequests := statusRequests s |}.

(** [setTimeout] inside [checkStatus]; [poll] tells whether the handler
    leaves a further [checkStatus] call scheduled. *)
Definition schedule (ts : list Timer) (poll : bool) (s : State) : State :=
  {| status := status s; targetProgress := targetProgress s;
     message := message s; error := error s;
     lastProgressUpdate := lastProgressUpdate s;
     highestStepReached := highestStepReached s; startTime := startTime s;
     smoothProgress := smoothProgress s; animation := animation s;
     interval := interval s; perfMicros := perfMicros s; timers := timers s ++ ts;
     pollPending := poll; statusRequests := statusRequests s |}.

(** The request [apiService.getDocumentStatus(docId)] goes out. *)
Definition request (s : State) : State :=
  {| status := status s; targetProgress := targetProgress s;
     message := message s; error := error s;
     lastProgressUpdate := lastProgressUpdate s;
     highestStepReached := highestStepReached s; startTime := startTime s;
     smoothProgress := smoothProgress s; animation := animation s;
     interval := interval s; perfMicros := perfMicros s; timers := timers s;
     pollPending := pollPending s; statusRequests := S (statusRequests s) |}.

(** *** Step inference: [getCurrentStep], [getStepStatus] *)

(** The closure of the render of [s]. *)
Definition closure (s : State) : Closure :=
  {| c_status := status s; c_message := message s;
     c_targetProgress := targetProgress s;
     c_lastProgressUpdate := lastProgressUpdate s;
     c_highestStepReached := highestStepReached s |}.

(** [getCurrentStep] as a closure evaluates it: the value returned,
    [Math.max(currentStep, highestStepReached)], and the argument of
    [setHighestStepReached] when the call is made.  With [currentStep] not a
    number the comparison is false and the maximum is [NaN]. *)
Definition currentStep (c : Closure) : Step * option Z :=
  match rawStep (c_status c) (c_message c) with
  | Index k =>
      (Index (Z.max k (c_highestStepReached c)),
       if c_highestStepReached c <? k then Some k else None)
  | NaN => (NaN, None)
  end.

(** The queued [setHighestStepReached], applied to the cell. *)
Definition queued (w : option Z) (s : State) : State :=
  match w with
  | Some k => setHighestStepReached k s
  | None => s
  end.

(** [getCurrentStep] called from the render of [s] or from an effect of its
    commit; the second component is the state after the queued update. *)
Definition getCurrentStep (s : State) : Step * State :=
  let (k, w) := currentStep (closure s) in (k, queued w s).

Inductive StepStatus := StepCompleted | StepActive | StepPending.

(** Neither comparison holds of [NaN]. *)
Definition getStepStatus (stepIndex : Z) (s : State) : StepStatus :=
  match fst (getCurrentStep s) with
  | Index currentStep =>
      if stepIndex <? currentStep then StepCompleted
      else if stepIndex =? currentStep then StepActive
      else StepPending
  | NaN => StepPending
  end.

(** *** [calculateProgress] *)

(** The body of [calculateProgress] after the call of [getCurrentStep];
    [now] is the reading of [Date.now()].  With the step [NaN] neither the
    loop nor the partial step runs.  Reading [stepWeights] past its end
    contributes nothing here; no reachable state does so, see
    [highest_in_table]. *)
Definition progressAt (now lastProgressUpdate : Z) (currentStep : Step) : Q :=
  match currentStep with
  | NaN => Qmin (Math_round 0) 100
  | Index k =>
      let i := Z.to_nat k in
      let completed := inject_Z (sum_weights (take i stepWeights)) in
      let totalProgress :=
        match stepWeights !! i, stepDurations !! i with
        | Some w, Some d =>
            let timeSpent := inject_Z (now - lastProgressUpdate) in
            let stepDuration := inject_Z (d * 1000) in
            let stepProgress := Qmin (fl (timeSpent / stepDuration)) 1 in
            fl (completed + fl (inject_Z w * stepProgress))
        | _, _ => completed
        end in
      Qmin (Math_round totalProgress) 100
  end.

(** [calculateProgress] as a closure evaluates it, with the update its
    [getCurrentStep] queues. *)
Definition progress (now : Z) (c : Closure) : Q * option Z :=
  let (k, w) := currentStep c in
  (progressAt now (c_lastProgressUpdate c) k, w).

Definition calculateProgress (now : Z) (s : State) : Q * State :=
  let (p, w) := progress now (closure s) in (p, queued w s).

(** *** [calculateRemainingTime] *)

Definition calculateRemainingTime (now : Z) (s : State) : Q :=
  if String.eqb (status s) "completed" then 0
  else
    let elapsed := now - startTime s in
    let progress := (smoothProgress s / 100)%Q in
    let estimatedTotal := estimatedDuration in
    if Qlt_le_dec 0 progress then
      let remaining := Z.max 0 (estimatedTotal - elapsed) in
      Math_round (inject_Z remaining / 1000)
    else Math_round (inject_Z estimatedDuration / 1000).

(** *** The effects of the component *)

(** [useEffect(..., [status, message])]: recompute the target. *)
Definition progressEffect (now : Z) (s : State) : State :=
  let (newProgress, s1) := calculateProgress now s in
  if Qlt_le_dec (targetProgress s) newProgress
  then setTargetProgress newProgress (setLastProgressUpdate now s1)
  else s1.

(** [useEffect(..., [status, targetProgress, lastProgressUpdate])]: the
    cleanup clears the interval of the previous run; on [completed] the
    target is set to 100 and no interval is registered, otherwise one is,
    with the closure of this render. *)
Definition continuousEffect (s : State) : State :=
  if String.eqb (status s) "completed"
  then setInterval None (setTargetProgress 100 s)
  else setInterval (Some (closure s)) s.

(** The literal [0.3]. *)
Definition fallbackIncrement : Q := fl (3 # 10).

(** The callback of the 600ms interval, with the closure [c] it was
    registered with; the two functional updates read the current cell. *)
Definition progressInterval (now : Z) (c : Closure) (s : State) : State :=
  let (newProgress, w) := progress now c in
  let s1 := queued w s in
  if Qlt_le_dec (c_targetProgress c) newProgress
  then setTargetProgress (Qmin (fl (targetProgress s1 + 1)) newProgress) s1
  else if Qltb (c_targetProgress c) 99
          && negb (String.eqb (c_status c) "failed")
       then setTargetProgress
              (Qmin (fl (targetProgress s1 + fallbackIncrement)) 99) s1
       else s1.

(** *** [useSmoothProgress] *)

(** The effect of the hook, run when [targetProgress] changes: it cancels the
    pending frame and starts over from the rendered [smoothProgress]. *)
Definition smoothEffect (s : State) : State :=
  let startP := smoothProgress s in
  let endP := targetProgress s in
  let totalSteps := fl (endP - startP) in
  if Qlt_le_dec 0 totalSteps
  then setAnimation (Some {| startProgress := startP; endProgress := endP;
                             animStart := performance_now s |}) s
  else setAnimation None s.

(** One [requestAnimationFrame] callback, called with the timestamp of the
    frame; nothing is pending when [animation] is [None].  The closure holds
    the [smoothProgress] of the render in which the effect ran, which is
    [startProgress]. *)
Definition animate (currentTime : Q) (s : State) : State :=
  match animation s with
  | None => s
  | Some a =>
      let totalSteps := fl (endProgress a - startProgress a) in
      let stepDuration := fl (smoothDuration / totalSteps) in
      let elapsed := fl (currentTime - animStart a) in
      let currentStep := Qfloor (fl (elapsed / stepDuration)) in
      let newProgress :=
        Qmin (fl (startProgress a + inject_Z currentStep)) (endProgress a) in
      let s1 := if Qeq_bool newProgress (startProgress a) then s
                else setSmoothProgress newProgress s in
      if Qlt_le_dec newProgress (endProgress a) then s1
      else setAnimation None s1
  end.

(** *** Polling: [checkStatus] *)

Record StatusData := { sd_status : string; sd_message : option string }.

Definition checkStatus_error : string :=
  "Error checking document status. Please try again.".
Definition processing_failed : string :=
  "Document processing failed. Please try again.".

(** [r = None] is a request that throws. *)
Definition checkStatus (docId : string) (r : option StatusData) (s : State)
  : State :=
  let s0 := request s in
  match r with
  | None => schedule [] false (setError (Some checkStatus_error) s0)
  | Some statusData =>
      let st := sd_status statusData in
      let s1 := setMessage (or_else (sd_message statusData) st)
                  (setStatus st s0) in
      if String.eqb st "completed" then
        schedule [NavigateAfter 2000 ("/document/" ++ docId)] false s1
      else if String.eqb st "failed" || String.eqb st "error" then
        schedule [] false
          (setError (Some (or_else (sd_message statusData) processing_failed))
             s1)
      else schedule [PollAfter 2000] true s1
  end.

(** *** Render and commit *)

(** The render evaluates [getCurrentStep] (through [getStepStatus]) unless
    the error screen is returned first. *)
Definition render (s : State) : State :=
  match error s with
  | Some _ => s
  | None => snd (getCurrentStep s)
  end.

Definition changedS (f : State -> string) (a b : State) : bool :=
  negb (String.eqb (f a) (f b)).
Definition changedQ (f : State -> Q) (a b : State) : bool :=
  negb (Qeq_bool (f a) (f b)).
Definition changedZ (f : State -> Z) (a b : State) : bool :=
  negb (f a =? f b).

(** The effects of [ProcessingScreen] after a handler turned the committed
    state [prev] into [s]: render, then each effect whose dependencies
    changed. *)
Definition screenEffects (prev : State) (now : Z) (s : State) : State :=
  let s1 := render s in
  let s2 := if changedS status prev s1 || changedS message prev s1
            then progressEffect now s1 else s1 in
  if changedS status prev s2 || changedQ targetProgress prev s2
     || changedZ lastProgressUpdate prev s2
  then continuousEffect s2 else s2.

(** A commit: the effects above, then the effect of [useSmoothProgress] if
    they or the handler moved [targetProgress]. *)
Definition commit (prev : State) (now : Z) (s : State) : State :=
  let s3 := screenEffects prev now s in
  if changedQ targetProgress prev s3 then smoothEffect s3 else s3.

(** The cells as [useState] initialises them; [now] is [Date.now()] and [p0]
    the page clock at the first render. *)
Definition initial (p0 : N) (now : Z) : State :=
  {| status := "processing"; targetProgress := 0;
     message := "Initializing document analysis...";
     error := None; lastProgressUpdate := 0; highestStepReached := 0;
     startTime := now; smoothProgress := 0; animation := None;
     interval := None; perfMicros := p0; timers := []; pollPending := false;
     statusRequests := 0 |}.

(** First render and the mount effects, in source order, followed by the
    commit of what they changed. *)
Definition mount (p0 : N) (now : Z) : State :=
  let s1 := render (initial p0 now) in
  let s2 := smoothEffect s1 in
  let s3 := schedule [PollAfter 1000] true s2 in
  let s4 := progressEffect now s3 in
  let s5 := continuousEffect s4 in
  commit s3 now s5.

(** *** Events *)

(** A poll response and a tick of the interval come [dt] microseconds after
    the previous event, with the reading [now] of [Date.now()]; an animation
    frame comes with the timestamp [t] (in microseconds) the browser gives
    it. *)
Inductive Event :=
| PollResponse (dt : N) (now : Z) (r : option StatusData)
| IntervalTick (dt : N) (now : Z)
| AnimationFrame (t : N).

(** Once a frame stamped [t] has run, the clock reads at least [t]. *)
Definition elapse (t : N) (s : State) : State :=
  setPerfMicros (N.max (perfMicros s) t) s.

Definition step (docId : string) (s : State) (e : Event) : State :=
  match e with
  | PollResponse dt now r =>
      let s0 := advance dt s in
      if pollPending s0 then commit s0 now (checkStatus docId r s0) else s0
  | IntervalTick dt now =>
      let s0 := advance dt s in
      match interval s0 with
      | Some c => commit s0 now (progressInterval now c s0)
      | None => s0
      end
  | AnimationFrame t => animate (millis t) (elapse t s)
  end.

Definition run (docId : string) (s : State) (evs : list Event) : State :=
  fold_left (step docId) evs s.

(** *** Vocabulary for the properties *)

(** The values of the two lookup tables, with the default 0. *)
Definition in_table (k : Z) : Prop :=
  k = 0 \/ k = 1 \/ k = 2 \/ k = 3 \/ k = 5.

(** The cells of [State], to say which of them an operation may write. *)
Inductive Cell :=
| CStatus | CTarget | CMessage | CError | CLast | CHighest | CStart
| CSmooth | CAnimation | CInterval | CPerf | CTimers | CPoll | CRequests.

Definition cell_tag (c : Cell) : nat :=
  match c with
  | CStatus => 0 | CTarget => 1 | CMessage => 2 | CError => 3 | CLast => 4
  | CHighest => 5 | CStart => 6 | CSmooth => 7 | CAnimation => 8
  | CPerf => 9 | CTimers => 10 | CPoll => 11 | CRequests => 12
  | CInterval => 13
  end%nat.

Definition writes (cs : list Cell) (c : Cell) : bool :=
  existsb (fun c' => Nat.eqb (cell_tag c') (cell_tag c)) cs.

Definition agree (c : Cell) (s s' : State) : Prop :=
  match c with
  | CStatus => status s' = status s
  | CTarget => targetProgress s' = targetProgress s
  | CMessage => message s' = message s
  | CError => error s' = error s
  | CLast => lastProgressUpdate s' = lastProgressUpdate s
  | CHighest => highestStepReached s' = highestStepReached s
  | CStart => startTime s' = startTime s
  | CSmooth => smoothProgress s' = smoothProgress s
  | CAnimation => animation s' = animation s
  | CInterval => interval s' = interval s
  | CPerf => perfMicros s' = perfMicros s
  | CTimers => timers s' = timers s
  | CPoll => pollPending s' = pollPending s
  | CRequests => statusRequests s' = statusRequests s
  end.

(** [s'] differs from [s] at most in the cells [cs]. *)
Definition frame (cs : list Cell) (s s' : State) : Prop :=
  forall c, writes cs c = false -> agree c s s'.

(** The ratchet: the cell never goes down and stays among the table's
    values. *)
Definition ratchets (s s' : State) : Prop :=
  highestStepReached s <= highestStepReached s' /\
  (in_table (highestStepReached s) -> in_table (highestStepReached s')).

(** The target is a double between 0 and 100. *)
Definition target_ok (s : State) : Prop :=
  (0 <= targetProgress s <= 100)%Q /\ is_double (targetProgress s).

(** The target moves up and stays a double between 0 and 100, if it was
    one. *)
Definition grows (s s' : State) : Prop :=
  target_ok s ->
  (targetProgress s <= targetProgress s')%Q /\ target_ok s'.

(** On [completed] the target is 100. *)
Definition completed_full (s : State) : Prop :=
  status s = "completed" -> (targetProgress s == 100)%Q.

Definition is_navigation (t : Timer) : bool :=
  match t with NavigateAfter _ _ => true | PollAfter _ => false end.

(** Number of navigations scheduled so far. *)
Definition navigations (s : State) : nat :=
  length (filter (fun t => is_navigation t = true) (timers s)).

(** While a poll is pending no navigation has been scheduled. *)
Definition polling_ok (s : State) : Prop :=
  pollPending s = true -> navigations s = 0%nat.

(** The animation of [useSmoothProgress] against the target: the shown
    value is a double at most the target; at rest the two agree; a running
    loop aims at the current target and was started below it. *)
Definition smooth_ok (s : State) : Prop :=
  (smoothProgress s <= targetProgress s)%Q /\
  is_double (smoothProgress s) /\
  match animation s with
  | None => (smoothProgress s == targetProgress s)%Q
  | Some a =>
      (endProgress a == targetProgress s)%Q /\
      (startProgress a < endProgress a)%Q /\
      is_double (startProgress a)
  end.

(** The steps [getCurrentStep] returns after each event of a run. *)
Fixpoint stepsSeen (docId : string) (s : State) (evs : list Event)
  : list Step :=
  match evs with
  | [] => []
  | e :: evs' =>
      let s' := step docId s e in
      fst (getCurrentStep s') :: stepsSeen docId s' evs'
  end.

(** The ratchet is at or above the step, if the step is a number. *)
Definition reaches (k : Step) (h : Z) : Prop :=
  match k with
  | Index k => k <= h
  | NaN => True
  end.

(** [x] shows the input of [c], with the ratchet at most where
    [getCurrentStep] puts it for that input. *)
Definition settles (c x : State) : Prop :=
  status x = status c /\ message x = message c /\
  forall k, rawStep (status c) (message c) = Index k ->
            highestStepReached x <= Z.max k (highestStepReached c).

(** A status on which polling goes on. *)
Definition nonterminal (st : string) : Prop :=
  st <> "completed" /\ st <> "failed" /\ st <> "error".

(** A name that the lookup tables do not inherit. *)
Definition ordinary (name : string) : Prop :=
  existsb (String.eqb name) inheritedNames = false.

(** *** Vocabulary for further properties *)

(** The value an [animate] callback of the loop [a] computes at time [t]. *)
Definition animationValue (a : Animation) (t : Q) : Q :=
  Qmin (fl (startProgress a
            + inject_Z
                (Qfloor
                   (fl (fl (t - animStart a)
                        / fl (smoothDuration
                              / fl (endProgress a - startProgress a)))))))
       (endProgress a).

(** An event that comes in time: a frame stamped no earlier than the last
    reading of the clock. *)
Definition timely (s : State) (e : Event) : Prop :=
  match e with
  | AnimationFrame t => (perfMicros s <= t)%N
  | _ => True
  end.

Fixpoint timely_run (docId : string) (s : State) (evs : list Event) : Prop :=
  match evs with
  | [] => True
  | e :: evs' => timely s e /\ timely_run docId (step docId s e) evs'
  end.

(** What frames in time keep: the shown value is not negative; a running
    loop was started at or below it and not below 0, not after the present,
    and the shown value is not ahead of what a frame would compute now. *)
Definition smooth_cap (s : State) : Prop :=
  (0 <= smoothProgress s)%Q /\
  match animation s with
  | Some a =>
      (0 <= startProgress a <= smoothProgress s)%Q /\
      (animStart a <= performance_now s)%Q /\
      (smoothProgress s <= animationValue a (performance_now s))%Q
  | None => True
  end.

(** The ratchet has caught up with the shown status and message. *)
Definition caught_up (s : State) : Prop :=
  reaches (rawStep (status s) (message s)) (highestStepReached s).

(** A poll is pending exactly while no error is shown and the status is not
    terminal; a navigation is scheduled exactly on [completed]. *)
Definition session_ok (s : State) : Prop :=
  (pollPending s = true <-> error s = None /\ nonterminal (status s)) /\
  navigations s = (if String.eqb (status s) "completed" then 1 else 0)%nat.

(** Below the last step the target is at most 99. *)
Definition not_full_early (s : State) : Prop :=
  highestStepReached s < 5 -> (targetProgress s <= 99)%Q.

(** The interval against the state: none is registered exactly on
    [completed]; the closure of a registered one holds the current status,
    target and [lastProgressUpdate], which are the dependencies of its
    effect, and a ratchet that had caught up with its own status and
    message and is not above the current one. *)
Definition interval_ok (s : State) : Prop :=
  match interval s with
  | None => status s = "completed"
  | Some c =>
      status s <> "completed" /\
      c_status c = status s /\
      (c_targetProgress c == targetProgress s)%Q /\
      c_lastProgressUpdate c = lastProgressUpdate s /\
      reaches (rawStep (c_status c) (c_message c)) (c_highestStepReached c) /\
      c_highestStepReached c <= highestStepReached s
  end.

(** The session, the ratchet and the interval's closure together. *)
Definition steady (s : State) : Prop :=
  session_ok s /\ in_table (highestStepReached s) /\ caught_up s /\
  interval_ok s.

(** The fraction of the current step [calculateProgress] computes: the time
    spent over the expected duration, at most 1. *)
Definition stepProgressAt (t d : Z) : Q :=
  Qmin (fl (inject_Z t / inject_Z (d * 1000))) 1.

(** The total before [Math.round]: the weights of the completed steps plus
    the rounded share of the current one. *)
Definition totalAt (C w : Z) (p : Q) : Q :=
  fl (inject_Z C + fl (inject_Z w * p)).

End ProcessingScreen.

(** ** The upload dialog ([FileUpload]) *)

(** The dialog is modelled at two levels.  [step] applies a handler of the
    component to the state, with any argument: this is more than the rendered
    page allows, and is what the safety properties are proved of.  [ui] is
    the dialog as the page renders it: a handler runs only where its button
    or the dropzone is rendered, and dropped files reach [onDrop] through the
    filter of the dropzone.  What happens later, on its own time, is an event
    of both: a pending [FileReader] fires [onload], the 200ms interval of a
    request ticks, a request is answered. *)

Module FileUpload.

Record File := { name : string; type : string; size : Z }.

(** The multipart body [handleUpload] builds. *)
Record FormData := {
  fd_file : File;
  fd_customName : string;
  fd_theme : string;
  fd_font : string;
  fd_logo : option File
}.

(** Outcome of [apiService.uploadDocument]: the document id, or a failure
    with the server's [error] text if it sent one. *)
Inductive UploadResponse :=
| UploadOk (docId : string)
| UploadFailed (serverError : option string).

(** A [FileReader] on which [readAsDataURL] has been called: its [onload]
    will write the preview of the file, or that of the logo. *)
Inductive Read :=
| PreviewRead (file : File)
| LogoRead (file : File).

Record State := {
  uploading : bool;
  uploadProgress : Z;
  uploadError : option string;
  selectedFile : option File;
  filePreview : option string;
  customName : string;
  logoFile : option File;
  logoPreview : option string;
  selectedTheme : string;
  selectedFont : string;
  reads : list Read;              (* FileReaders whose onload has not run yet *)
  intervals : list nat;           (* live progress intervals, by request *)
  pending : list nat;             (* requests awaiting their response *)
  uploads : list FormData;        (* calls of apiService.uploadDocument *)
  succeeded : list string         (* calls of onSuccess *)
}.

Definition setUploading (v : bool) (s : State) : State :=
  {| uploading := v; uploadProgress := uploadProgress s;
     uploadError := uploadError s; selectedFile := selectedFile s;
     filePreview := filePreview s; customName := customName s;
     logoFile := logoFile s; logoPreview := logoPreview s;
     selectedTheme := selectedTheme s; selectedFont := selectedFont s;
     reads := reads s; intervals := intervals s; pending := pending s;
     uploads := uploads s; succeeded := succeeded s |}.

Definition setUploadProgress (v : Z) (s : State) : State :=
  {| uploading := uploading s; uploadProgress := v;
     uploadError := uploadError s; selectedFile := selectedFile s;
     filePreview := filePreview s; customName := customName s;
     logoFile := logoFile s; logoPreview := logoPreview s;
     selectedTheme := selectedTheme s; selectedFont := selectedFont s;
     reads := reads s; intervals := intervals s; pending := pending s;
     uploads := uploads s; succeeded := succeeded s |}.

Definition setUploadError (v : option string) (s : State) : State :=
  {| uploading := uploading s; uploadProgress := uploadProgress s;
     uploadError := v; selectedFile := selectedFile s;
     filePreview := filePreview s; customName := customName s;
     logoFile := logoFile s; logoPreview := logoPreview s;
     selectedTheme := selectedTheme s; selectedFont := selectedFont s;
     reads := reads s; intervals := intervals s; pending := pending s;
     uploads := uploads s; succeeded := succeeded s |}.

Definition setSelectedFile (v : option File) (s : State) : State :=
  {| uploading := uploading s; uploadProgress := uploadProgress s;
     uploadError := uploadError s; selectedFile := v;
     filePreview := filePreview s; customName := customName s;
     logoFile := logoFile s; logoPreview := logoPreview s;
     selectedTheme := selectedTheme s; selectedFont := selectedFont s;
     reads := reads s; intervals := intervals s; pending := pending s;
     uploads := uploads s; succeeded := succeeded s |}.

Definition setFilePreview (v : option string) (s : State) : State :=
  {| uploading := uploading s; uploadProgress := uploadProgress s;
     uploadError := uploadError s; selectedFile := selectedFile s;
     filePreview := v; customName := customName s; logoFile := logoFile s;
     logoPreview := logoPreview s; selectedTheme := selectedTheme s;
     selectedFont := selectedFont s; reads := reads s;
     intervals := intervals s; pending := pending s; uploads := uploads s;
     succeeded := succeeded s |}.

Definition setCustomName (v : string) (s : State) : State :=
  {| uploading := uploading s; uploadProgress := uploadProgress s;
     uploadError := uploadError s; selectedFile := selectedFile s;
     filePreview := filePreview s; customName := v;
     logoFile := logoFile s; logoPreview := logoPreview s;
     selectedTheme := selectedTheme s; selectedFont := selectedFont s;
     reads := reads s; intervals := intervals s; pending := pending s;
     uploads := uploads s; succeeded := succeeded s |}.

Definition setLogoFile (v : option File) (s : State) : State :=
  {| uploading := uploading s; uploadProgress := uploadProgress s;
     uploadError := uploadError s; selectedFile := selectedFile s;
     filePreview := filePreview s; customName := customName s;
     logoFile := v; logoPreview := logoPreview s;
     selectedTheme := selectedTheme s; selectedFont := selectedFont s;
     reads := reads s; intervals := intervals s; pending := pending s;
     uploads := uploads s; succeeded := succeeded s |}.

Definition setLogoPreview (v : option string) (s : State) : State :=
  {| uploading := uploading s; uploadProgress := uploadProgress s;
     uploadError := uploadError s; selectedFile := selectedFile s;
     filePreview := filePreview s; customName := customName s;
     logoFile := logoFile s; logoPreview := v;
     selectedTheme := selectedTheme s; selectedFont := selectedFont s;
     reads := reads s; intervals := intervals s; pending := pending s;
     uploads := uploads s; succeeded := succeeded s |}.

Definition setSelectedTheme (v : string) (s : State) : State :=
  {| uploading := uploading s; uploadProgress := uploadProgress s;
     uploadError := uploadError s; selectedFile := selectedFile s;
     filePreview := filePreview s; customName := customName s;
     logoFile := logoFile s; logoPreview := logoPreview s;
     selectedTheme := v; selectedFont := selectedFont s; reads := reads s;
     intervals := intervals s; pending := pending s; uploads := uploads s;
     succeeded := succeeded s |}.

Definition setSelectedFont (v : string) (s : State) : State :=
  {| uploading := uploading s; uploadProgress := uploadProgress s;
     uploadError := uploadError s; selectedFile := selectedFile s;
     filePreview := filePreview s; customName := customName s;
     logoFile := logoFile s; logoPreview := logoPreview s;
     selectedTheme := selectedTheme s; selectedFont := v;
     reads := reads s; intervals := intervals s; pending := pending s;
     uploads := uploads s; succeeded := succeeded s |}.

Definition setReads (v : list Read) (s : State) : State :=
  {| uploading := uploading s; uploadProgress := uploadProgress s;
     uploadError := uploadError s; selectedFile := selectedFile s;
     filePreview := filePreview s; customName := customName s;
     logoFile := logoFile s; logoPreview := logoPreview s;
     selectedTheme := selectedTheme s; selectedFont := selectedFont s;
     reads := v; intervals := intervals s; pending := pending s;
     uploads := uploads s; succeeded := succeeded s |}.

Definition setIntervals (v : list nat) (s : State) : State :=
  {| uploading := uploading s; uploadProgress := uploadProgress s;
     uploadError := uploadError s; selectedFile := selectedFile s;
     filePreview := filePreview s; customName := customName s;
     logoFile := logoFile s; logoPreview := logoPreview s;
     selectedTheme := selectedTheme s; selectedFont := selectedFont s;
     reads := reads s; intervals := v; pending := pending s;
     uploads := uploads s; succeeded := succeeded s |}.

Definition setPending (v : list nat) (s : State) : State :=
  {| uploading := uploading s; uploadProgress := uploadProgress s;
     uploadError := uploadError s; selectedFile := selectedFile s;
     filePreview := filePreview s; customName := customName s;
     logoFile := logoFile s; logoPreview := logoPreview s;
     selectedTheme := selectedTheme s; selectedFont := selectedFont s;
     reads := reads s; intervals := intervals s; pending := v;
     uploads := uploads s; succeeded := succeeded s |}.

Definition setUploads (v : list FormData) (s : State) : State :=
  {| uploading := uploading s; uploadProgress := uploadProgress s;
     uploadError := uploadError s; selectedFile := selectedFile s;
     filePreview := filePreview s; customName := customName s;
     logoFile := logoFile s; logoPreview := logoPreview s;
     selectedTheme := selectedTheme s; selectedFont := selectedFont s;
     reads := reads s; intervals := intervals s; pending := pending s;
     uploads := v; succeeded := succeeded s |}.

Definition setSucceeded (v : list string) (s : State) : State :=
  {| uploading := uploading s; uploadProgress := uploadProgress s;
     uploadError := uploadError s; selectedFile := selectedFile s;
     filePreview := filePreview s; customName := customName s;
     logoFile := logoFile s; logoPreview := logoPreview s;
     selectedTheme := selectedTheme s; selectedFont := selectedFont s;
     reads := reads s; intervals := intervals s; pending := pending s;
     uploads := uploads s; succeeded := v |}.

Definition allowedTypes : list string :=
  ["application/pdf"; "image/jpeg"; "image/png"; "image/jpg";
   "application/vnd.openxmlformats-officedocument.wordprocessingml.document";
   "application/msword"].

Definition maxSize : Z := 10 * 1024 * 1024.

Definition includes (l : list string) (x : string) : bool :=
  existsb (String.eqb x) l.

Definition type_error : string :=
  "Please upload a PDF, Word document, or image file (JPEG, PNG)".
Definition size_error : string := "File size must be less than 10MB".
Definition upload_failed : string := "Upload failed. Please try again.".

Definition is_dot_or_slash (c : Ascii.ascii) : bool :=
  Ascii.eqb c "."%char || Ascii.eqb c "/"%char.

(** The extension scanned from the end of the name: [Some rest] when a run of
    one or more characters other than [.] and [/] is preceded by a dot,
    [rest] being the reversed name before that dot. *)
Fixpoint scan_extension (seen : bool) (rev_name : list Ascii.ascii)
  : option (list Ascii.ascii) :=
  match rev_name with
  | [] => None
  | c :: rest =>
      if is_dot_or_slash c
      then if Ascii.eqb c "."%char && seen then Some rest else None
      else scan_extension true rest
  end.

(** [name.replace(/\.[^/.]+$/, '')]. *)
Definition removeExtension (n : string) : string :=
  match scan_extension false (rev (String.list_ascii_of_string n)) with
  | Some rest => String.string_of_list_ascii (rev rest)
  | None => n
  end.

(** [generateFilePreview]: an image is handed to a [FileReader], whose
    [onload] sets the preview later; the other types get a fixed picture at
    once. *)
Definition generateFilePreview (file : File) (s : State) : State :=
  if String.prefix "image/" (type file)
  then setReads (reads s ++ [PreviewRead file]) s
  else if String.eqb (type file) "application/pdf"
  then setFilePreview (Some "/pdf-preview.svg") s
  else if String.eqb (type file)
            "application/vnd.openxmlformats-officedocument.wordprocessingml.document"
          || String.eqb (type file) "application/msword"
  then setFilePreview (Some "/word-preview.svg") s
  else setFilePreview (Some "/document-preview.svg") s.

(** [reader.onload] of the [i]-th pending reader, with the data URL it has
    read. *)
Definition onload (i : nat) (result : string) (s : State) : State :=
  match reads s !! i with
  | Some (PreviewRead _) =>
      setFilePreview (Some result) (setReads (delete i (reads s)) s)
  | Some (LogoRead _) =>
      setLogoPreview (Some result) (setReads (delete i (reads s)) s)
  | None => s
  end.

Definition onDrop (acceptedFiles : list File) (s : State) : State :=
  match acceptedFiles with
  | [] => s
  | file :: _ =>
      if negb (includes allowedTypes (type file))
      then setUploadError (Some type_error) s
      else if maxSize <? size file
      then setUploadError (Some size_error) s
      else
        setUploadError None
          (generateFilePreview file
             (setCustomName (removeExtension (name file))
                (setSelectedFile (Some file) s)))
  end.

(** *** The dropzone *)

(** The options [useDropzone] is given, besides [onDrop] and
    [disabled: uploading]. *)
Definition accept : list (string * list string) :=
  [("application/pdf", [".pdf"]);
   ("image/jpeg", [".jpg"; ".jpeg"]);
   ("image/png", [".png"]);
   ("application/vnd.openxmlformats-officedocument.wordprocessingml.document",
    [".docx"]);
   ("application/msword", [".doc"])].

Definition maxFiles : nat := 1.

Definition toLowerCase_ascii (c : Ascii.ascii) : Ascii.ascii :=
  let n := Ascii.nat_of_ascii c in
  if (65 <=? n)%nat && (n <=? 90)%nat then Ascii.ascii_of_nat (n + 32) else c.

Definition toLowerCase (x : string) : string :=
  String.string_of_list_ascii
    (map toLowerCase_ascii (String.list_ascii_of_string x)).

Definition endsWith (x suffix : string) : bool :=
  String.prefix (String.string_of_list_ascii
                   (rev (String.list_ascii_of_string suffix)))
                (String.string_of_list_ascii
                   (rev (String.list_ascii_of_string x))).

(** The filter react-dropzone applies for [accept], a library the page
    imports: a file passes when its type is one of the listed types or its
    name ends in one of the listed extensions, letter case aside. *)
Definition fileAccepted (file : File) : bool :=
  existsb (fun entry =>
             String.eqb (toLowerCase (type file)) (fst entry)
             || existsb (endsWith (toLowerCase (name file))) (snd entry))
          accept.

(** What react-dropzone hands to [onDrop] as [acceptedFiles]: the files that
    pass the filter, or none of them when they are more than [maxFiles]. *)
Definition dropzone (files : list File) : list File :=
  let accepted := List.filter fileAccepted files in
  if (maxFiles <? length accepted)%nat then [] else accepted.

(** *** The upload *)

Definition formDataOf (file : File) (s : State) : FormData :=
  {| fd_file := file;
     fd_customName :=
       if String.eqb (customName s) "" then name file else customName s;
     fd_theme := selectedTheme s; fd_font := selectedFont s;
     fd_logo := logoFile s |}.

Definition clearInterval (id : nat) (s : State) : State :=
  setIntervals (List.filter (fun j => negb (Nat.eqb j id)) (intervals s)) s.

(** [handleUpload] up to its [await]: the request is sent and the interval
    that simulates progress is registered.  Both are numbered by the place
    of the request among the calls of [apiService.uploadDocument]. *)
Definition handleUpload (s : State) : State :=
  match selectedFile s with
  | None => s
  | Some file =>
      let id := length (uploads s) in
      setPending (pending s ++ [id])
        (setUploads (uploads s ++ [formDataOf file s])
           (setIntervals (intervals s ++ [id])
              (setUploadProgress 0
                 (setUploadError None (setUploading true s)))))
  end.

(** The updater the interval passes to [setUploadProgress]. *)
Definition progressTick (prev : Z) : Z :=
  if 90 <=? prev then 90 else prev + 10.

(** The callback of the 200ms interval of request [id], if it is still
    registered; at 90 the updater also clears the interval. *)
Definition progressInterval (id : nat) (s : State) : State :=
  if existsb (Nat.eqb id) (intervals s)
  then
    let s1 := if 90 <=? uploadProgress s then clearInterval id s else s in
    setUploadProgress (progressTick (uploadProgress s)) s1
  else s.

(** [handleUpload] from its [await] on, with the outcome [r] of request
    [id].  Only the success path clears the interval. *)
Definition uploadSettled (id : nat) (r : UploadResponse) (s : State) : State :=
  if existsb (Nat.eqb id) (pending s)
  then
    let s1 :=
      setPending (List.filter (fun j => negb (Nat.eqb j id)) (pending s)) s in
    match r with
    | UploadOk docId =>
        setSucceeded (succeeded s1 ++ [docId])
          (setUploadProgress 100 (clearInterval id s1))
    | UploadFailed serverError =>
        setUploadProgress 0
          (setUploading false
             (setUploadError (Some (or_else serverError upload_failed)) s1))
    end
  else s.

(** The file is refused by one of the two checks of [onDrop]. *)
Definition rejected (file : File) : Prop :=
  includes allowedTypes (type file) = false \/ maxSize < size file.

(** *** The other handlers of the dialog *)

(** [handleLogoUpload]: the first file of the input, if it is an image. *)
Definition handleLogoUpload (files : list File) (s : State) : State :=
  match files with
  | file :: _ =>
      if String.prefix "image/" (type file)
      then setReads (reads s ++ [LogoRead file]) (setLogoFile (Some file) s)
      else s
  | [] => s
  end.

Definition handleRemoveFile (s : State) : State :=
  setUploadError None
    (setCustomName "" (setFilePreview None (setSelectedFile None s))).

Definition handleRemoveLogo (s : State) : State :=
  setLogoPreview None (setLogoFile None s).

(** The cells as [useState] initialises them. *)
Definition initial : State :=
  {| uploading := false; uploadProgress := 0; uploadError := None;
     selectedFile := None; filePreview := None; customName := "";
     logoFile := None; logoPreview := None;
     selectedTheme := "default"; selectedFont := "inter";
     reads := []; intervals := []; pending := [];
     uploads := []; succeeded := [] |}.

(** What happens to the dialog: a handler is called, or something pending
    comes due. *)
Inductive Event :=
| Drop (files : list File)
| LogoUpload (files : list File)
| RemoveFile
| RemoveLogo
| EditName (v : string)
| PickTheme (v : string)
| PickFont (v : string)
| Upload
| Settled (id : nat) (r : UploadResponse)
| Tick (id : nat)
| Loaded (i : nat) (result : string).

(** The handlers, called with any argument in any state; [Drop] gives
    [onDrop] its [acceptedFiles]. *)
Definition step (s : State) (e : Event) : State :=
  match e with
  | Drop acceptedFiles => onDrop acceptedFiles s
  | LogoUpload files => handleLogoUpload files s
  | RemoveFile => handleRemoveFile s
  | RemoveLogo => handleRemoveLogo s
  | EditName v => setCustomName v s
  | PickTheme v => setSelectedTheme v s
  | PickFont v => setSelectedFont v s
  | Upload => handleUpload s
  | Settled id r => uploadSettled id r s
  | Tick id => progressInterval id s
  | Loaded i result => onload i result s
  end.

Definition run (s : State) (evs : list Event) : State := fold_left step evs s.

Definition fileChosen (s : State) : bool :=
  match selectedFile s with Some _ => true | None => false end.

(** The dialog as rendered.  The dropzone is there while nothing is being
    uploaded and no file is selected, and [Drop] gives it the files the user
    dropped; the buttons that remove the file and start the upload, and the
    fields of the customization, are there while a file is selected and
    nothing is being uploaded. *)
Definition ui (s : State) (e : Event) : State :=
  match e with
  | Drop files =>
      if negb (uploading s) && negb (fileChosen s)
      then onDrop (dropzone files) s else s
  | Settled _ _ | Tick _ | Loaded _ _ => step s e
  | _ => if negb (uploading s) && fileChosen s then step s e else s
  end.

Definition session (s : State) (evs : list Event) : State :=
  fold_left ui evs s.

(** The file passes both checks of [onDrop]. *)
Definition valid_file (file : File) : Prop :=
  includes allowedTypes (type file) = true /\ size file <= maxSize.

(** A request body as the dialog may send it. *)
Definition valid_request (fd : FormData) : Prop :=
  valid_file (fd_file fd) /\
  (forall logo, fd_logo fd = Some logo -> String.prefix "image/" (type logo) = true) /\
  (name (fd_file fd) <> "" -> fd_customName fd <> "").

(** What every state of the dialog satisfies. *)
Definition dialog_ok (s : State) : Prop :=
  (forall file, selectedFile s = Some file -> valid_file file) /\
  (forall logo, logoFile s = Some logo -> String.prefix "image/" (type logo) = true) /\
  Forall valid_request (uploads s) /\
  (length (succeeded s) + length (pending s) <= length (uploads s))%nat.

End FileUpload.

(** ** The mock authentication context ([AuthProvider]) *)

Module Auth.

Record MockUser := { mu_email : string; mu_password : string; mu_name : string }.

Definition mockUsers : list MockUser :=
  [ {| mu_email := "demo@example.com"; mu_password := "demo123";
       mu_name := "Demo User" |};
    {| mu_email := "test@example.com"; mu_password := "test123";
       mu_name := "Test User" |} ].

Record UserData := { email : string; name : string; provider : string }.

Record State := {
  user : option UserData;
  loading : bool;
  error : option string;
  localStorage : gmap string string
}.

(** A call either returns the user or throws an [Error] with a message. *)
Inductive Outcome := Returned (u : UserData) | Thrown (msg : string).

Definition quote : string :=
  String.String (Ascii.ascii_of_nat 34) String.EmptyString.

(** [JSON.stringify] of the object literal built by [signInWithEmail]; its
    strings come from [mockUsers] and need no escaping. *)
Definition JSON_stringify (u : UserData) : string :=
  ("{" ++ quote ++ "email" ++ quote ++ ":" ++ quote ++ email u ++ quote ++ ","
   ++ quote ++ "name" ++ quote ++ ":" ++ quote ++ name u ++ quote ++ ","
   ++ quote ++ "provider" ++ quote ++ ":" ++ quote ++ provider u ++ quote
   ++ "}")%string.

Definition invalid_credentials : string := "Invalid email or password".

Definition signInWithEmail (email password : string) (s : State)
  : Outcome * State :=
  (* setError(null); setLoading(true); await ... *)
  match find (fun u => String.eqb (mu_email u) email
                       && String.eqb (mu_password u) password) mockUsers with
  | None =>
      (* throw; catch: setError(error.message); finally: setLoading(false) *)
      (Thrown invalid_credentials,
       {| user := user s; loading := false;
          error := Some invalid_credentials;
          localStorage := localStorage s |})
  | Some u =>
      let userData := {| email := mu_email u; name := mu_name u;
                         provider := "email" |} in
      (Returned userData,
       {| user := Some userData; loading := false; error := None;
          localStorage := <["user" := JSON_stringify userData]> (localStorage s) |})
  end.

(** The pair is one of the two built-in accounts. *)
Definition is_mock_user (email password : string) : Prop :=
  (email = "demo@example.com" /\ password = "demo123") \/
  (email = "test@example.com" /\ password = "test123").

End Auth.

(** ** The whole authentication context

    [Auth] above holds what [signInWithEmail] needs.  The other operations
    of [AuthProvider] need a user record with the optional [photoURL] of the
    Google sign-in and a [JSON.stringify] that escapes, since
    [signUpWithEmail] stores an email it was given.  A [string] here is the
    UTF-8 text of the JavaScript string. *)

Module AuthContext.

Record User := {
  email : string;
  name : string;
  photoURL : option string;
  provider : string
}.

Record State := {
  user : option User;
  loading : bool;
  error : option string;
  localStorage : gmap string string
}.

Inductive Outcome := Returned (u : User) | Thrown (msg : string).

Definition hex_digit (n : N) : ascii :=
  ascii_of_N (if (n <? 10)%N then 48 + n else 87 + n)%N.

(** One character inside a JSON string literal, as [JSON.stringify] writes
    it. *)
Definition escape_char (c : ascii) : string :=
  let n := N_of_ascii c in
  if (n =? 8)%N then "\b"
  else if (n =? 9)%N then "\t"
  else if (n =? 10)%N then "\n"
  else if (n =? 12)%N then "\f"
  else if (n =? 13)%N then "\r"
  else if (n =? 34)%N then String.String "\"%char Auth.quote
  else if (n =? 92)%N then "\\"
  else if (n <? 32)%N
       then "\u00" ++ String.String (hex_digit (n / 16))
                        (String.String (hex_digit (n mod 16)) String.EmptyString)
       else String.String c String.EmptyString.

Fixpoint escape (s : string) : string :=
  match s with
  | String.EmptyString => String.EmptyString
  | String.String c rest => escape_char c ++ escape rest
  end.

Definition JSON_quote (s : string) : string := Auth.quote ++ escape s ++ Auth.quote.

Definition member (key value : string) : string :=
  JSON_quote key ++ ":" ++ JSON_quote value.

(** [JSON.stringify] of a user object: its properties in the order the
    object literals of the source list them. *)
Definition JSON_stringify (u : User) : string :=
  "{" ++ member "email" (email u) ++ "," ++ member "name" (name u)
  ++ match photoURL u with
     | Some url => "," ++ member "photoURL" url
     | None => ""
     end
  ++ "," ++ member "provider" (provider u) ++ "}".

(** [email.split('@')[0]]. *)
Fixpoint before_at (s : string) : string :=
  match s with
  | String.EmptyString => String.EmptyString
  | String.String c rest =>
      if Ascii.eqb c "@"%char then String.EmptyString
      else String.String c (before_at rest)
  end.

Definition ofUserData (u : Auth.UserData) : User :=
  {| email := Auth.email u; name := Auth.name u; photoURL := None;
     provider := Auth.provider u |}.

Definition googleUser : User :=
  {| email := "google.user@example.com"; name := "Google User";
     photoURL := Some "https://via.placeholder.com/40"; provider := "google" |}.

Definition signInWithGoogle (s : State) : Outcome * State :=
  (Returned googleUser,
   {| user := Some googleUser; loading := false; error := None;
      localStorage := <["user" := JSON_stringify googleUser]> (localStorage s) |}).

(** [signInWithEmail], through its model in [Auth]: that one never reads
    the current user, and leaves it alone when it throws. *)
Definition signInWithEmail (email password : string) (s : State)
  : Outcome * State :=
  let '(r, a) :=
    Auth.signInWithEmail email password
      {| Auth.user := None; Auth.loading := loading s; Auth.error := error s;
         Auth.localStorage := localStorage s |} in
  match r with
  | Auth.Returned u =>
      (Returned (ofUserData u),
       {| user := Some (ofUserData u); loading := Auth.loading a;
          error := Auth.error a; localStorage := Auth.localStorage a |})
  | Auth.Thrown msg =>
      (Thrown msg,
       {| user := user s; loading := Auth.loading a; error := Auth.error a;
          localStorage := Auth.localStorage a |})
  end.

Definition user_exists : string := "User already exists".

Definition signUpWithEmail (email password : string) (s : State)
  : Outcome * State :=
  match find (fun u => String.eqb (Auth.mu_email u) email) Auth.mockUsers with
  | Some _ =>
      (Thrown user_exists,
       {| user := user s; loading := false; error := Some user_exists;
          localStorage := localStorage s |})
  | None =>
      let userData := {| email := email; name := before_at email;
                         photoURL := None; provider := "email" |} in
      (Returned userData,
       {| user := Some userData; loading := false; error := None;
          localStorage := <["user" := JSON_stringify userData]> (localStorage s) |})
  end.

Definition logout (s : State) : State :=
  {| user := None; loading := false; error := None;
     localStorage := delete "user" (localStorage s) |}.

Definition clearError (s : State) : State :=
  {| user := user s; loading := loading s; error := None;
     localStorage := localStorage s |}.

(** The calls a page can make on the context. *)
Inductive Call :=
| SignInWithGoogle
| SignInWithEmail (email password : string)
| SignUpWithEmail (email password : string)
| Logout
| ClearError.

Definition step (s : State) (c : Call) : State :=
  match c with
  | SignInWithGoogle => snd (signInWithGoogle s)
  | SignInWithEmail e p => snd (signInWithEmail e p s)
  | SignUpWithEmail e p => snd (signUpWithEmail e p s)
  | Logout => logout s
  | ClearError => clearError s
  end.

Definition run (s : State) (cs : list Call) : State := fold_left step cs s.

(** The stored entry is the current user, stringified. *)
Definition mirrored (s : State) : Prop :=
  localStorage s !! "user" = JSON_stringify <$> user s.

End AuthContext.

(** ** The API client: the interceptors of the axios instance *)

Module Api.

(** A request configuration: the path and the headers. *)
Record Config := { url : string; headers : gmap string string }.

(** What the page keeps between requests. *)
Record Browser := {
  localStorage : gmap string string;
  location : string;               (* window.location.href *)
  sent : list Config               (* the requests as they left *)
}.

Definition defaultHeaders : gmap string string :=
  <["Content-Type" := "application/json"]> ∅.

(** The headers of a call: the defaults, with its own [Content-Type] if it
    gives one (as [uploadDocument] does). *)
Definition callHeaders (contentType : option string) : gmap string string :=
  match contentType with
  | Some ct => <["Content-Type" := ct]> defaultHeaders
  | None => defaultHeaders
  end.

(** The request interceptor: a truthy [authToken] becomes a bearer header. *)
Definition requestInterceptor (storage : gmap string string) (config : Config)
  : Config :=
  match storage !! "authToken" with
  | Some token =>
      if String.eqb token "" then config
      else {| url := url config;
              headers := <["Authorization" := "Bearer " ++ token]> (headers config) |}
  | None => config
  end.

(** The answer to a request: a response, or an error with the status of its
    response if it has one. *)
Inductive Answer := Fulfilled | Rejected (status : option Z).

(** The response interceptor, on the storage and the location. *)
Definition responseInterceptor (a : Answer) (b : Browser) : Browser :=
  match a with
  | Rejected (Some 401) =>
      {| localStorage := delete "authToken" (localStorage b);
         location := "/login"; sent := sent b |}
  | _ => b
  end.

(** One call through the instance, [api.get(path)] and the like. *)
Definition exchange (path : string) (contentType : option string) (a : Answer)
    (b : Browser) : Browser :=
  let config := requestInterceptor (localStorage b)
                  {| url := path; headers := callHeaders contentType |} in
  responseInterceptor a
    {| localStorage := localStorage b; location := location b;
       sent := sent b ++ [config] |}.

(** The page: calls on the authentication context and calls of the API, on
    the one [localStorage]. *)
Inductive Event :=
| AuthCall (c : AuthContext.Call)
| ApiCall (path : string) (contentType : option string) (a : Answer).

Record Page := { auth : AuthContext.State; browser : Browser }.

(** The context and the client share the storage. *)
Definition withStorage (st : gmap string string) (s : AuthContext.State)
  : AuthContext.State :=
  {| AuthContext.user := AuthContext.user s;
     AuthContext.loading := AuthContext.loading s;
     AuthContext.error := AuthContext.error s;
     AuthContext.localStorage := st |}.

Definition step (p : Page) (e : Event) : Page :=
  match e with
  | AuthCall c =>
      let a := AuthContext.step (withStorage (localStorage (browser p)) (auth p)) c in
      {| auth := a;
         browser := {| localStorage := AuthContext.localStorage a;
                       location := location (browser p);
                       sent := sent (browser p) |} |}
  | ApiCall path contentType a =>
      let b := exchange path contentType a (browser p) in
      {| auth := withStorage (localStorage b) (auth p); browser := b |}
  end.

Definition run (p : Page) (evs : list Event) : Page := fold_left step evs p.

(** No token is stored and no request has carried one. *)
Definition token_free (p : Page) : Prop :=
  localStorage (browser p) !! "authToken" = None /\
  Forall (fun c => headers c !! "Authorization" = None) (sent (browser p)).

End Api.

(** * Properties of the rounding to doubles *)

Module DoubleFacts.

Lemma round_even_cases x :
  let f := Qfloor x in
  (round_even x = f /\ (x - inject_Z f <= 1 # 2)%Q) \/
  (round_even x = f + 1 /\ (1 # 2 <= x - inject_Z f)%Q).
Proof.
  cbn zeta. unfold round_even.
  destruct (Qcompare_spec (x - inject_Z (Qfloor x)) (1 # 2)) as [E|L|G].
  - destruct (Z.even (Qfloor x)); [left|right]; split; try reflexivity;
      rewrite E; apply Qle_refl.
  - left. split; [reflexivity|apply Qlt_le_weak, L].
  - right. split; [reflexivity|apply Qlt_le_weak, G].
Qed.

Lemma Qfloor_bounds x :
  (inject_Z (Qfloor x) <= x)%Q /\ (x < inject_Z (Qfloor x) + 1)%Q.
Proof.
  split; [apply Qfloor_le|].
  pose proof (Qlt_floor x) as H. rewrite inject_Z_plus in H. exact H.
Qed.

Lemma round_even_error x :
  (x - (1 # 2) <= inject_Z (round_even x) <= x + (1 # 2))%Q.
Proof.
  destruct (Qfloor_bounds x) as [L U].
  destruct (round_even_cases x) as [[-> H]|[-> H]].
  - split; lra.
  - rewrite inject_Z_plus. change (inject_Z 1) with 1%Q. split; lra.
Qed.

Lemma round_even_Z n : round_even (inject_Z n) = n.
Proof.
  unfold round_even. rewrite Qfloor_Z.
  destruct (Qcompare_spec (inject_Z n - inject_Z n) (1 # 2)) as [E|L|G].
  - exfalso. lra.
  - reflexivity.
  - exfalso. lra.
Qed.

#[global] Instance round_even_comp : Proper (Qeq ==> eq) round_even.
Proof.
  intros x y E. unfold round_even. rewrite (Qfloor_comp x y E).
  assert (E' : (x - inject_Z (Qfloor y) == y - inject_Z (Qfloor y))%Q)
    by (rewrite E; reflexivity).
  rewrite (Qcompare_comp _ _ E' (1 # 2) (1 # 2) (Qeq_refl _)). reflexivity.
Qed.

Lemma round_even_mono x y : (x <= y)%Q -> round_even x <= round_even y.
Proof.
  intros H. pose proof (Qfloor_resp_le x y H) as F.
  destruct (Qfloor_bounds x) as [Lx Ux]. destruct (Qfloor_bounds y) as [Ly Uy].
  destruct (Z.eq_dec (Qfloor x) (Qfloor y)) as [E|N].
  - unfold round_even. rewrite <- E.
    destruct (Qcompare_spec (x - inject_Z (Qfloor x)) (1 # 2)) as [E1|L1|G1];
      destruct (Qcompare_spec (y - inject_Z (Qfloor x)) (1 # 2)) as [E2|L2|G2];
      try destruct (Z.even (Qfloor x)); try lia; exfalso; lra.
  - assert (Qfloor x + 1 <= Qfloor y) by lia.
    destruct (round_even_cases x) as [[-> _]|[-> _]];
      destruct (round_even_cases y) as [[-> _]|[-> _]]; lia.
Qed.

(** Powers of two. *)

Lemma pow2_pos e : (0 < 2 ^ e)%Q.
Proof. apply Qpower_0_lt. reflexivity. Qed.

Lemma pow2_add a b : (2 ^ (a + b) == 2 ^ a * 2 ^ b)%Q.
Proof. apply Qpower_plus. discriminate. Qed.

Lemma pow2_le a b : a <= b -> (2 ^ a <= 2 ^ b)%Q.
Proof. intros H. apply Qpower_le_compat_l; [exact H|discriminate]. Qed.

Lemma pow2_lt a b : a < b -> (2 ^ a < 2 ^ b)%Q.
Proof. intros H. apply Qpower_lt_compat_l; [exact H|reflexivity]. Qed.

Lemma pow2_lt_inv a b : (2 ^ a < 2 ^ b)%Q -> a < b.
Proof. intros H. apply (Qpower_lt_compat_l_inv 2); [exact H|reflexivity]. Qed.

Lemma pow2_le_inv a b : (2 ^ a <= 2 ^ b)%Q -> a <= b.
Proof. intros H. apply (Qpower_le_compat_l_inv 2); [exact H|reflexivity]. Qed.

Lemma pow2_Z n : 0 <= n -> (2 ^ n == inject_Z (2 ^ n))%Q.
Proof. intros H. rewrite Zpower_Qpower by exact H. reflexivity. Qed.

Lemma pow2_succ a : (2 ^ (a + 1) == 2 * 2 ^ a)%Q.
Proof. rewrite pow2_add. change (2 ^ 1)%Q with 2%Q. ring. Qed.

Lemma pow2_sub a b : (2 ^ (a - b) == 2 ^ a / 2 ^ b)%Q.
Proof.
  unfold Z.sub. rewrite pow2_add, Qpower_opp. reflexivity.
Qed.

(** The binade. *)

Lemma Zlog2_Q n : 0 < n ->
  (2 ^ Z.log2 n <= inject_Z n)%Q /\ (inject_Z n < 2 ^ (Z.log2 n + 1))%Q.
Proof.
  intros H. destruct (Z.log2_spec n H) as [L U].
  pose proof (Z.log2_nonneg n) as P.
  rewrite !pow2_Z by lia. rewrite <- Zle_Qle, <- Zlt_Qlt.
  split; [exact L|]. replace (Z.log2 n + 1) with (Z.succ (Z.log2 n)) by lia. exact U.
Qed.

Lemma binade_spec x : (0 < x)%Q ->
  (2 ^ binade x <= x)%Q /\ (x < 2 ^ (binade x + 1))%Q.
Proof.
  intros Hx. unfold binade.
  set (n := Qnum x). set (d := Zpos (Qden x)).
  assert (Hn : 0 < n).
  { unfold Qlt in Hx. cbn in Hx. unfold n. lia. }
  assert (Hd : 0 < d) by (unfold d; lia).
  destruct (Zlog2_Q n Hn) as [Ln Un]. destruct (Zlog2_Q d Hd) as [Ld Ud].
  set (a := Z.log2 n) in *. set (b := Z.log2 d) in *.
  assert (Ex : (x == inject_Z n / inject_Z d)%Q).
  { unfold n, d. rewrite <- Qmake_Qdiv. destruct x; reflexivity. }
  assert (Dpos : (0 < inject_Z d)%Q).
  { change 0%Q with (inject_Z 0). rewrite <- Zlt_Qlt. exact Hd. }
  assert (Ex' : (x * inject_Z d == inject_Z n)%Q).
  { rewrite Ex. field. lra. }
  pose proof (pow2_pos a) as Pa. pose proof (pow2_pos b) as Pb.
  pose proof (pow2_pos (a - b)) as Pab.
  assert (Eab : (2 ^ (a - b) * 2 ^ b == 2 ^ a)%Q).
  { rewrite <- pow2_add. replace (a - b + b) with a by lia. reflexivity. }
  assert (U : (x < 2 ^ (a - b + 1))%Q).
  { rewrite pow2_succ.
    rewrite pow2_succ in Un.
    assert (x * 2 ^ b < 2 * 2 ^ (a - b) * 2 ^ b)%Q; [|nra].
    assert (x * 2 ^ b <= x * inject_Z d)%Q by nra. nra. }
  assert (L : (2 ^ (a - b - 1) <= x)%Q).
  { assert (E1 : (2 * 2 ^ (a - b - 1) == 2 ^ (a - b))%Q).
    { rewrite <- pow2_succ. replace (a - b - 1 + 1) with (a - b) by lia. reflexivity. }
    rewrite pow2_succ in Ud.
    pose proof (pow2_pos (a - b - 1)) as P1.
    assert (2 ^ (a - b - 1) * inject_Z d <= x * inject_Z d)%Q; [|nra].
    rewrite Ex'. nra. }
  destruct (Qle_bool (2 ^ (a - b)) x) eqn:B.
  - apply Qle_bool_iff in B. split; assumption.
  - split; [exact L|]. replace (a - b - 1 + 1) with (a - b) by lia.
    apply Qnot_le_lt. intros C. apply Qle_bool_iff in C. congruence.
Qed.

Lemma binade_unique x e :
  (2 ^ e <= x)%Q -> (x < 2 ^ (e + 1))%Q -> binade x = e.
Proof.
  intros L U.
  assert (Hx : (0 < x)%Q) by (pose proof (pow2_pos e); lra).
  destruct (binade_spec x Hx) as [L' U'].
  assert (e < binade x + 1) by (apply pow2_lt_inv; lra).
  assert (binade x < e + 1) by (apply pow2_lt_inv; lra).
  lia.
Qed.

Lemma binade_comp x y : (0 < x)%Q -> (x == y)%Q -> binade x = binade y.
Proof.
  intros Hx E. destruct (binade_spec x Hx) as [L U]. symmetry.
  apply binade_unique; rewrite <- E; assumption.
Qed.

Lemma binade_mono x y : (0 < x)%Q -> (x <= y)%Q -> binade x <= binade y.
Proof.
  intros Hx H. destruct (binade_spec x Hx) as [L _].
  destruct (binade_spec y ltac:(lra)) as [_ U].
  assert (binade x < binade y + 1) by (apply pow2_lt_inv; lra). lia.
Qed.

Lemma ulp_pos x : (0 < ulp x)%Q.
Proof. apply pow2_pos. Qed.

Lemma ulp_comp x y : (0 < x)%Q -> (x == y)%Q -> ulp x = ulp y.
Proof. intros Hx E. unfold ulp. rewrite (binade_comp x y Hx E). reflexivity. Qed.

(** [x / ulp x] lies in [2^52, 2^53). *)
Lemma mantissa_range x : (0 < x)%Q ->
  (2 ^ 52 <= x / ulp x)%Q /\ (x / ulp x < 2 ^ 53)%Q.
Proof.
  intros Hx. destruct (binade_spec x Hx) as [L U].
  pose proof (ulp_pos x) as Pu.
  assert (E1 : (2 ^ 52 * ulp x == 2 ^ binade x)%Q).
  { unfold ulp. rewrite <- pow2_add. replace (52 + (binade x - 52)) with (binade x) by lia.
    reflexivity. }
  assert (E2 : (2 ^ 53 * ulp x == 2 ^ (binade x + 1))%Q).
  { unfold ulp. rewrite <- pow2_add.
    replace (53 + (binade x - 52)) with (binade x + 1) by lia. reflexivity. }
  split.
  - apply Qle_shift_div_l; [exact Pu|]. rewrite E1. exact L.
  - apply Qlt_shift_div_r; [exact Pu|]. rewrite E2. exact U.
Qed.

Lemma round53_comp x y : (0 < x)%Q -> (x == y)%Q -> (round53 x == round53 y)%Q.
Proof.
  intros Hx E. unfold round53. rewrite <- (ulp_comp x y Hx E).
  assert (E' : (x / ulp x == y / ulp x)%Q)
    by (unfold Qdiv; apply Qmult_comp; [exact E|reflexivity]).
  rewrite (round_even_comp _ _ E'). reflexivity.
Qed.

(** The rounded value stays in the closed binade. *)
Lemma round53_range x : (0 < x)%Q ->
  (2 ^ binade x <= round53 x)%Q /\ (round53 x <= 2 ^ (binade x + 1))%Q.
Proof.
  intros Hx. destruct (mantissa_range x Hx) as [L U].
  pose proof (ulp_pos x) as Pu.
  assert (E1 : (2 ^ 52 * ulp x == 2 ^ binade x)%Q).
  { unfold ulp. rewrite <- pow2_add. replace (52 + (binade x - 52)) with (binade x) by lia.
    reflexivity. }
  assert (E2 : (2 ^ 53 * ulp x == 2 ^ (binade x + 1))%Q).
  { unfold ulp. rewrite <- pow2_add.
    replace (53 + (binade x - 52)) with (binade x + 1) by lia. reflexivity. }
  assert (R1 : 2 ^ 52 <= round_even (x / ulp x)).
  { rewrite <- (round_even_Z (2 ^ 52)). apply round_even_mono.
    rewrite <- pow2_Z by lia. exact L. }
  assert (R2 : round_even (x / ulp x) <= 2 ^ 53).
  { rewrite <- (round_even_Z (2 ^ 53)). apply round_even_mono.
    rewrite <- pow2_Z by lia. apply Qlt_le_weak, U. }
  unfold round53. rewrite <- E1, <- E2.
  rewrite !pow2_Z by lia.
  rewrite Zle_Qle in R1. rewrite Zle_Qle in R2.
  split; apply Qmult_le_compat_r; try assumption; apply Qlt_le_weak, Pu.
Qed.

Lemma round53_pos x : (0 < x)%Q -> (0 < round53 x)%Q.
Proof.
  intros Hx. destruct (round53_range x Hx) as [L _].
  pose proof (pow2_pos (binade x)). lra.
Qed.

Lemma round53_mono x y : (0 < x)%Q -> (x <= y)%Q -> (round53 x <= round53 y)%Q.
Proof.
  intros Hx H. assert (Hy : (0 < y)%Q) by lra.
  pose proof (binade_mono x y Hx H) as B.
  destruct (Z.eq_dec (binade x) (binade y)) as [E|N].
  - unfold round53, ulp. rewrite <- E.
    pose proof (pow2_pos (binade x - 52)) as Pu.
    apply Qmult_le_compat_r; [|apply Qlt_le_weak, Pu].
    rewrite <- Zle_Qle. apply round_even_mono.
    apply Qmult_le_compat_r; [exact H|]. apply Qlt_le_weak, Qinv_lt_0_compat, Pu.
  - destruct (round53_range x Hx) as [_ U]. destruct (round53_range y Hy) as [L _].
    assert (P : (2 ^ (binade x + 1) <= 2 ^ binade y)%Q) by (apply pow2_le; lia).
    lra.
Qed.

(** A number with at most 53 significant bits is left as it is. *)
Lemma round53_exact_eq x m j :
  0 < m <= 2 ^ 53 -> (x == inject_Z m * 2 ^ j)%Q -> (round53 x == x)%Q.
Proof.
  intros [Hm Hm'] Xeq.
  pose proof (pow2_pos j) as Pj.
  assert (Mpos : (0 < inject_Z m)%Q).
  { change 0%Q with (inject_Z 0). rewrite <- Zlt_Qlt. exact Hm. }
  assert (Hx : (0 < x)%Q) by (rewrite Xeq; nra).
  destruct (binade_spec x Hx) as [L0 U].
  assert (L : (2 ^ binade x <= inject_Z m * 2 ^ j)%Q) by (rewrite <- Xeq; exact L0).
  pose proof (ulp_pos x) as Pu.
  assert (Mle : (inject_Z m <= 2 ^ 53)%Q).
  { rewrite pow2_Z by lia. rewrite <- Zle_Qle. exact Hm'. }
  assert (He : binade x <= 53 + j).
  { apply pow2_le_inv. rewrite pow2_add.
    assert (inject_Z m * 2 ^ j <= 2 ^ 53 * 2 ^ j)%Q
      by (apply Qmult_le_compat_r; [exact Mle|apply Qlt_le_weak, Pj]).
    lra. }
  assert (Eu : (x / ulp x == inject_Z m * 2 ^ (j - binade x + 52))%Q).
  { unfold ulp. rewrite (pow2_sub (binade x) 52).
    replace (j - binade x + 52) with (j + (52 - binade x)) by lia.
    rewrite pow2_add, (pow2_sub 52 (binade x)).
    pose proof (pow2_pos (binade x)). pose proof (pow2_pos 52).
    transitivity (inject_Z m * 2 ^ j / (2 ^ binade x / 2 ^ 52))%Q.
    - unfold Qdiv at 1 3. apply Qmult_comp; [exact Xeq|reflexivity].
    - field. lra. }
  assert (Int : exists n, (x / ulp x == inject_Z n)%Q).
  { destruct (Z.eq_dec (binade x) (53 + j)) as [E|N].
    - exists (2 ^ 52).
      assert (Em : (inject_Z m == 2 ^ 53)%Q).
      { apply Qle_antisym; [exact Mle|].
        rewrite E, pow2_add in L.
        apply (Qmult_le_r _ _ (2 ^ j)); [exact Pj|exact L]. }
      rewrite Eu, Em, E. rewrite <- pow2_add.
      replace (53 + (j - (53 + j) + 52)) with 52 by lia.
      apply pow2_Z. lia.
    - exists (m * 2 ^ (j - binade x + 52)).
      rewrite Eu, inject_Z_mult, <- pow2_Z by lia. reflexivity. }
  destruct Int as [n En].
  unfold round53. rewrite (round_even_comp _ _ En), round_even_Z, <- En.
  field. lra.
Qed.

(** Rounding error: half a unit in the last place. *)
Lemma round53_error x : (0 < x)%Q ->
  (x - x * (1 # 2 ^ 53) <= round53 x <= x + x * (1 # 2 ^ 53))%Q.
Proof.
  intros Hx. destruct (binade_spec x Hx) as [L _].
  pose proof (ulp_pos x) as Pu.
  pose proof (round_even_error (x / ulp x)) as [E1 E2].
  assert (Eh : (ulp x * (1 # 2) <= x * (1 # 2 ^ 53))%Q).
  { assert (E : (2 ^ binade x == ulp x * 2 ^ 52)%Q).
    { unfold ulp. rewrite <- pow2_add. replace (binade x - 52 + 52) with (binade x) by lia.
      reflexivity. }
    rewrite E in L. 
    assert (P52 : (2 ^ 52 == inject_Z (2 ^ 52))%Q) by (apply pow2_Z; lia).
    rewrite P52 in L.
    assert (Q53 : ((1 # 2 ^ 53) == (1 # 2) / inject_Z (2 ^ 52))%Q) by reflexivity.
    rewrite Q53. 
    assert (P : (0 < inject_Z (2 ^ 52))%Q) by reflexivity.
    assert (ulp x * (1 # 2) == (ulp x * inject_Z (2 ^ 52)) * ((1 # 2) / inject_Z (2 ^ 52)))%Q
      by (field; lra).
    rewrite H. apply Qmult_le_compat_r; [exact L|]. 
    apply Qlt_le_weak. reflexivity. }
  assert (Ex : (x == x / ulp x * ulp x)%Q) by (field; lra).
  unfold round53.
  split.
  - assert ((x / ulp x - (1 # 2)) * ulp x <= inject_Z (round_even (x / ulp x)) * ulp x)%Q
      by (apply Qmult_le_compat_r; lra).
    assert ((x / ulp x - (1 # 2)) * ulp x == x - ulp x * (1 # 2))%Q by (field; lra).
    lra.
  - assert (inject_Z (round_even (x / ulp x)) * ulp x <= (x / ulp x + (1 # 2)) * ulp x)%Q
      by (apply Qmult_le_compat_r; lra).
    assert ((x / ulp x + (1 # 2)) * ulp x == x + ulp x * (1 # 2))%Q by (field; lra).
    lra.
Qed.

(** The rounded value is itself of the exact form. *)
Lemma round53_idem x : (0 < x)%Q -> (round53 (round53 x) == round53 x)%Q.
Proof.
  intros Hx. destruct (mantissa_range x Hx) as [L U].
  assert (R1 : 2 ^ 52 <= round_even (x / ulp x)).
  { rewrite <- (round_even_Z (2 ^ 52)). apply round_even_mono.
    rewrite <- pow2_Z by lia. exact L. }
  assert (R2 : round_even (x / ulp x) <= 2 ^ 53).
  { rewrite <- (round_even_Z (2 ^ 53)). apply round_even_mono.
    rewrite <- pow2_Z by lia. apply Qlt_le_weak, U. }
  apply (round53_exact_eq _ (round_even (x / ulp x)) (binade x - 52)); [lia|].
  reflexivity.
Qed.

(** *** [fl] *)

Lemma fl_pos x : (0 < x)%Q -> fl x = round53 x.
Proof.
  intros H. unfold fl. destruct (Qcompare_spec x 0) as [E|L|G]; [lra|lra|reflexivity].
Qed.

Lemma fl_neg x : (x < 0)%Q -> fl x = (- round53 (- x))%Q.
Proof.
  intros H. unfold fl. destruct (Qcompare_spec x 0) as [E|L|G]; [lra|reflexivity|lra].
Qed.

Lemma fl_zero x : (x == 0)%Q -> fl x = 0%Q.
Proof.
  intros H. unfold fl. destruct (Qcompare_spec x 0) as [E|L|G]; [reflexivity|lra|lra].
Qed.

#[global] Instance fl_comp : Proper (Qeq ==> Qeq) fl.
Proof.
  intros x y E. destruct (Q_dec x 0) as [[L|G]|Z].
  - rewrite (fl_neg x L), (fl_neg y) by lra.
    apply Qopp_comp, round53_comp; [lra|rewrite E; reflexivity].
  - rewrite (fl_pos x G), (fl_pos y) by lra. apply round53_comp; assumption.
  - rewrite (fl_zero x Z), (fl_zero y) by lra. reflexivity.
Qed.

Lemma fl_opp x : (fl (- x) == - fl x)%Q.
Proof.
  destruct (Q_dec x 0) as [[L|G]|Z].
  - rewrite (fl_neg x L), (fl_pos (- x)) by lra. ring.
  - rewrite (fl_pos x G), (fl_neg (- x)) by lra.
    rewrite (round53_comp (- - x) x); [reflexivity|lra|ring].
  - rewrite (fl_zero x Z), (fl_zero (- x)) by lra. reflexivity.
Qed.

Lemma fl_sign_pos x : (0 < x)%Q -> (0 < fl x)%Q.
Proof. intros H. rewrite (fl_pos x H). apply round53_pos, H. Qed.

Lemma fl_sign_neg x : (x < 0)%Q -> (fl x < 0)%Q.
Proof.
  intros H. rewrite (fl_neg x H).
  pose proof (round53_pos (- x) ltac:(lra)). lra.
Qed.

Lemma fl_nonneg x : (0 <= x)%Q -> (0 <= fl x)%Q.
Proof.
  intros H. destruct (Qlt_le_dec 0 x) as [P|N].
  - apply Qlt_le_weak, fl_sign_pos, P.
  - rewrite (fl_zero x) by lra. apply Qle_refl.
Qed.

(** Rounding is monotone. *)
Lemma fl_mono x y : (x <= y)%Q -> (fl x <= fl y)%Q.
Proof.
  intros H. destruct (Q_dec x 0) as [[Lx|Gx]|Zx].
  - destruct (Qlt_le_dec y 0) as [Ly|Gy].
    + rewrite (fl_neg x Lx), (fl_neg y Ly).
      pose proof (round53_mono (- y) (- x) ltac:(lra) ltac:(lra)). lra.
    + pose proof (fl_sign_neg x Lx). pose proof (fl_nonneg y Gy). lra.
  - rewrite (fl_pos x Gx), (fl_pos y) by lra. apply round53_mono; assumption.
  - rewrite (fl_zero x Zx). apply fl_nonneg. lra.
Qed.

Lemma fl_idem x : (fl (fl x) == fl x)%Q.
Proof.
  destruct (Q_dec x 0) as [[L|G]|Z].
  - rewrite (fl_neg x L). rewrite fl_opp.
    rewrite (fl_pos (round53 (- x))) by (apply round53_pos; lra).
    rewrite round53_idem by lra. reflexivity.
  - rewrite (fl_pos x G). rewrite fl_pos by (apply round53_pos, G).
    apply round53_idem, G.
  - rewrite (fl_zero x Z). reflexivity.
Qed.

(** Numbers with at most 53 significant bits, among them the integers up to
    2^53 in absolute value, are doubles. *)
Lemma fl_exact m j : Z.abs m <= 2 ^ 53 -> (fl (inject_Z m * 2 ^ j) == inject_Z m * 2 ^ j)%Q.
Proof.
  intros H. pose proof (pow2_pos j) as Pj.
  destruct (Z.lt_trichotomy m 0) as [L|[E|G]].
  - assert (Mneg : (inject_Z m < 0)%Q)
      by (change 0%Q with (inject_Z 0); rewrite <- Zlt_Qlt; exact L).
    rewrite fl_neg by nra.
    rewrite (round53_exact_eq _ (- m) j); [ring|lia|].
    rewrite inject_Z_opp. ring.
  - subst m. rewrite fl_zero by ring. ring.
  - assert (Mpos : (0 < inject_Z m)%Q)
      by (change 0%Q with (inject_Z 0); rewrite <- Zlt_Qlt; exact G).
    rewrite fl_pos by nra.
    apply (round53_exact_eq _ m j); [lia|reflexivity].
Qed.

Lemma fl_Z n : Z.abs n <= 2 ^ 53 -> (fl (inject_Z n) == inject_Z n)%Q.
Proof.
  intros H. pose proof (fl_exact n 0 H) as E.
  change (2 ^ 0)%Q with 1%Q in E.
  rewrite (fl_comp (inject_Z n) (inject_Z n * 1)%Q) by ring. rewrite E. ring.
Qed.

(** The relative error of a rounding is at most [2^-53]. *)
Lemma fl_error x :
  (Qabs (fl x - x) <= Qabs x * (1 # 2 ^ 53))%Q.
Proof.
  destruct (Q_dec x 0) as [[L|G]|Z].
  - rewrite (fl_neg x L). destruct (round53_error (- x) ltac:(lra)) as [A B].
    rewrite (Qabs_neg x) by lra. apply Qabs_Qle_condition. split; lra.
  - rewrite (fl_pos x G). destruct (round53_error x G) as [A B].
    rewrite (Qabs_pos x) by lra. apply Qabs_Qle_condition. split; lra.
  - rewrite (fl_zero x Z).
    assert (E : (0 - x == 0)%Q) by lra. rewrite E, Z. cbn. discriminate.
Qed.

Lemma fl_error_nonneg x : (0 <= x)%Q ->
  (x - x * (1 # 2 ^ 53) <= fl x <= x + x * (1 # 2 ^ 53))%Q.
Proof.
  intros H. pose proof (fl_error x) as E. rewrite (Qabs_pos x H) in E.
  apply Qabs_Qle_condition in E. lra.
Qed.

(** *** Doubles *)

Lemma is_double_fl x : is_double (fl x).
Proof. apply fl_idem. Qed.

Lemma is_double_Z n : Z.abs n <= 2 ^ 53 -> is_double (inject_Z n).
Proof. apply fl_Z. Qed.

#[global] Instance is_double_comp : Proper (Qeq ==> iff) is_double.
Proof. intros x y E. unfold is_double. rewrite E. reflexivity. Qed.

Lemma is_double_min x y : is_double x -> is_double y -> is_double (Qmin x y).
Proof.
  intros Hx Hy. destruct (Q.min_spec x y) as [[_ E]|[_ E]]; rewrite E; assumption.
Qed.

(** A rounding does not cross a double. *)
Lemma fl_le_double x d : is_double d -> (x <= d)%Q -> (fl x <= d)%Q.
Proof.
  intros Hd H. unfold is_double in Hd.
  eapply Qle_trans; [apply fl_mono, H|]. rewrite Hd. apply Qle_refl.
Qed.

Lemma fl_ge_double x d : is_double d -> (d <= x)%Q -> (d <= fl x)%Q.
Proof.
  intros Hd H. unfold is_double in Hd.
  eapply Qle_trans; [|apply fl_mono, H]. rewrite Hd. apply Qle_refl.
Qed.

End DoubleFacts.

(** * Properties of the processing screen *)

Module ProcessingScreenFacts.
Import ProcessingScreen.
Import DoubleFacts.

(** Case analysis on every conditional of the goal. *)
Ltac split_ifs :=
  repeat match goal with
         | |- context [if ?c then _ else _] => destruct c
         | |- context [match ?c with Some _ => _ | None => _ end] => destruct c
         | |- context [match ?c with Index _ => _ | NaN => _ end] => destruct c
         end.

(** A goal about the cells of [f s] for a handler [f] that is a cascade of
    conditionals around setters. *)
Ltac by_cases f := intros; unfold f; cbn; split_ifs; cbn; auto.

(** *** The lookup tables *)

Lemma lookup_truthy_own (table : gmap string Z) key k :
  lookup_truthy table key = Some (Index k) ->
  table !! key = Some k /\ k <> 0.
Proof.
  unfold lookup_truthy. destruct (table !! key) as [v|].
  - destruct (Z.eqb_spec v 0); [discriminate|]. intros [= <-]. auto.
  - destruct (existsb _ _); discriminate.
Qed.

Lemma lookup_truthy_ordinary (table : gmap string Z) key :
  ordinary key -> lookup_truthy table key <> Some NaN.
Proof.
  unfold ordinary, lookup_truthy. intros E.
  destruct (table !! key) as [v|]; [destruct (v =? 0); discriminate|].
  rewrite E. discriminate.
Qed.

Lemma messageToStep_values m k :
  lookup_truthy messageToStep m = Some (Index k) -> in_table k.
Proof.
  intros H. apply lookup_truthy_own in H as [E _].
  unfold messageToStep in E.
  repeat (apply lookup_insert_Some in E; destruct E as [[_ <-]|[_ E]];
          [unfold in_table; lia|]).
  rewrite lookup_empty in E. discriminate.
Qed.

Lemma statusToStep_values st k :
  lookup_truthy statusToStep st = Some (Index k) -> in_table k.
Proof.
  intros H. apply lookup_truthy_own in H as [E _].
  unfold statusToStep in E.
  repeat (apply lookup_insert_Some in E; destruct E as [[_ <-]|[_ E]];
          [unfold in_table; lia|]).
  rewrite lookup_empty in E. discriminate.
Qed.

(** A step that is a number is one of the tables' values. *)
Lemma rawStep_in_table st m k : rawStep st m = Index k -> in_table k.
Proof.
  unfold rawStep.
  destruct (String.eqb st "completed"); [intros [= <-]; unfold in_table; lia|].
  destruct (String.eqb st "failed" || String.eqb st "error");
    [intros [= <-]; unfold in_table; lia|].
  destruct (lookup_truthy messageToStep m) as [x|] eqn:Em;
    [intros ->; eapply messageToStep_values; eauto|].
  destruct (lookup_truthy statusToStep st) as [x|] eqn:Es;
    [intros ->; eapply statusToStep_values; eauto|].
  intros [= <-]; unfold in_table; lia.
Qed.

(** With a status and a message that are not inherited names, the step is a
    number. *)
Lemma rawStep_ordinary st m :
  ordinary st -> ordinary m -> exists k, rawStep st m = Index k.
Proof.
  intros Hs Hm. unfold rawStep.
  destruct (String.eqb st "completed"); [eauto|].
  destruct (String.eqb st "failed" || String.eqb st "error"); [eauto|].
  pose proof (lookup_truthy_ordinary messageToStep m Hm) as Nm.
  pose proof (lookup_truthy_ordinary statusToStep st Hs) as Ns.
  destruct (lookup_truthy messageToStep m) as [[k|]|]; [eauto|congruence|].
  destruct (lookup_truthy statusToStep st) as [[k|]|]; [eauto|congruence|eauto].
Qed.

(** *** Frames *)

Lemma frame_refl cs s : frame cs s s.
Proof. intros c _. destruct c; reflexivity. Qed.

Lemma frame_trans cs s1 s2 s3 : frame cs s1 s2 -> frame cs s2 s3 -> frame cs s1 s3.
Proof.
  intros H12 H23 c Hc. specialize (H12 c Hc). specialize (H23 c Hc).
  destruct c; cbn in *; congruence.
Qed.

Lemma frame_weaken cs cs' s s' :
  (forall c, writes cs' c = false -> writes cs c = false) ->
  frame cs s s' -> frame cs' s s'.
Proof. intros Hsub H c Hc. apply H, Hsub, Hc. Qed.

(** [cs] is included in [cs'], by computation on the cells. *)
Ltac frame_incl :=
  let c := fresh in let H := fresh in
  intros c H; destruct c; (reflexivity || discriminate H).

(** The frame of a handler that is a cascade of conditionals. *)
Ltac frame_by f :=
  let c := fresh in let H := fresh in
  intros c H; destruct c; try discriminate H; unfold f; cbn;
  split_ifs; reflexivity.

Lemma queued_frame w s : frame [CHighest] s (queued w s).
Proof. frame_by queued. Qed.

Lemma getCurrentStep_state s :
  snd (getCurrentStep s) = queued (snd (currentStep (closure s))) s.
Proof. unfold getCurrentStep. destruct (currentStep (closure s)). reflexivity. Qed.

Lemma getCurrentStep_frame s : frame [CHighest] s (snd (getCurrentStep s)).
Proof. rewrite getCurrentStep_state. apply queued_frame. Qed.

Lemma progress_queued now c : snd (progress now c) = snd (currentStep c).
Proof. unfold progress. destruct (currentStep c). reflexivity. Qed.

Lemma calculateProgress_state now s :
  snd (calculateProgress now s) = snd (getCurrentStep s).
Proof.
  unfold calculateProgress, getCurrentStep, progress.
  destruct (currentStep (closure s)). reflexivity.
Qed.

Lemma render_frame s : frame [CHighest] s (render s).
Proof.
  unfold render. destruct (error s); [apply frame_refl|apply getCurrentStep_frame].
Qed.

Lemma advance_frame dt s : frame [CPerf] s (advance dt s).
Proof. frame_by advance. Qed.

Lemma elapse_frame t s : frame [CPerf] s (elapse t s).
Proof. frame_by elapse. Qed.

Lemma smoothEffect_frame s : frame [CAnimation] s (smoothEffect s).
Proof. frame_by smoothEffect. Qed.

Lemma continuousEffect_frame s : frame [CTarget; CInterval] s (continuousEffect s).
Proof. frame_by continuousEffect. Qed.

Lemma animate_frame t s : frame [CSmooth; CAnimation] s (animate t s).
Proof. frame_by animate. Qed.

Lemma checkStatus_frame docId r s :
  frame [CStatus; CMessage; CError; CTimers; CPoll; CRequests] s
    (checkStatus docId r s).
Proof. frame_by checkStatus. Qed.

Lemma progressEffect_frame now s :
  frame [CTarget; CLast; CHighest] s (progressEffect now s).
Proof.
  unfold progressEffect.
  pose proof (calculateProgress_state now s) as E.
  destruct (calculateProgress now s) as [newProgress s1]. cbn in E. subst s1.
  pose proof (getCurrentStep_frame s) as F.
  destruct (Qlt_le_dec _ _).
  - intros c Hc. specialize (F c). destruct c; try discriminate Hc; cbn; apply F; reflexivity.
  - eapply frame_weaken; [|exact F]. frame_incl.
Qed.

Lemma progressInterval_frame now c s :
  frame [CTarget; CHighest] s (progressInterval now c s).
Proof.
  unfold progressInterval. destruct (progress now c) as [newProgress w].
  pose proof (queued_frame w s) as F.
  assert (G : forall v, frame [CTarget; CHighest] s
                          (setTargetProgress v (queued w s))).
  { intros v x Hx. specialize (F x).
    destruct x; try discriminate Hx; cbn; apply F; reflexivity. }
  destruct (Qlt_le_dec _ _); [apply G|].
  destruct (_ && _); [apply G|].
  eapply frame_weaken; [|exact F]. frame_incl.
Qed.

Lemma frame_if cs (b : bool) s s1 s2 :
  frame cs s s1 -> frame cs s s2 -> frame cs s (if b then s1 else s2).
Proof. destruct b; auto. Qed.

Lemma frame_step cs cs' s s1 s2 :
  (forall c, writes cs c = false -> writes cs' c = false) ->
  frame cs s s1 -> frame cs' s1 s2 -> frame cs s s2.
Proof.
  intros Hsub F1 F2. eapply frame_trans; [exact F1|].
  eapply frame_weaken; [exact Hsub|exact F2].
Qed.

Lemma screenEffects_frame prev now s :
  frame [CTarget; CLast; CHighest; CInterval] s (screenEffects prev now s).
Proof.
  unfold screenEffects.
  assert (F1 : frame [CTarget; CLast; CHighest; CInterval] s (render s)).
  { eapply frame_weaken; [|apply render_frame]. frame_incl. }
  set (s1 := render s) in *.
  match goal with |- context [progressEffect now s1] =>
    set (s2 := if changedS status prev s1 || changedS message prev s1
               then progressEffect now s1 else s1) end.
  assert (F2 : frame [CTarget; CLast; CHighest; CInterval] s s2).
  { apply frame_if; [|exact F1].
    eapply frame_step; [|exact F1|apply progressEffect_frame]. frame_incl. }
  apply frame_if; [|exact F2].
  eapply frame_step; [|exact F2|apply continuousEffect_frame]. frame_incl.
Qed.

Lemma commit_frame prev now s :
  frame [CTarget; CLast; CHighest; CAnimation; CInterval] s (commit prev now s).
Proof.
  unfold commit.
  assert (F3 : frame [CTarget; CLast; CHighest; CAnimation; CInterval] s
                 (screenEffects prev now s)).
  { eapply frame_weaken; [|apply screenEffects_frame]. frame_incl. }
  apply frame_if; [|exact F3].
  eapply frame_step; [|exact F3|apply smoothEffect_frame]. frame_incl.
Qed.

(** *** Proof rules for [commit], [step] and [run] *)

(** A property kept by the render and by each effect is kept by [commit]. *)
Lemma commit_rule (P : State -> Prop) prev now s :
  P s ->
  (forall x, P x -> P (render x)) ->
  (forall x, P x -> P (progressEffect now x)) ->
  (forall x, P x -> P (continuousEffect x)) ->
  (forall x, P x -> P (smoothEffect x)) ->
  P (commit prev now s).
Proof.
  intros H Hr Hp Hc Hs. unfold commit, screenEffects.
  apply Hr in H. set (s1 := render s) in *.
  match goal with |- context [progressEffect now s1] =>
    set (s2 := if changedS status prev s1 || changedS message prev s1
               then progressEffect now s1 else s1) end.
  assert (H2 : P s2) by (subst s2; destruct (_ || _); auto).
  match goal with |- context [continuousEffect s2] =>
    set (s3 := if changedS status prev s2 || changedQ targetProgress prev s2
                  || changedZ lastProgressUpdate prev s2
               then continuousEffect s2 else s2) end.
  assert (H3 : P s3).
  { subst s3.
    destruct (changedS status prev s2 || changedQ targetProgress prev s2
              || changedZ lastProgressUpdate prev s2); auto. }
  destruct (changedQ targetProgress prev s3); auto.
Qed.

(** A property kept by every handler and effect is kept by every event. *)
Lemma step_rule (P : State -> Prop) docId s e :
  P s ->
  (forall dt x, P x -> P (advance dt x)) ->
  (forall t x, P x -> P (elapse t x)) ->
  (forall r x, P x -> pollPending x = true -> P (checkStatus docId r x)) ->
  (forall now c x, P x -> interval x = Some c -> P (progressInterval now c x)) ->
  (forall t x, P x -> P (animate t x)) ->
  (forall x, P x -> P (render x)) ->
  (forall now x, P x -> P (progressEffect now x)) ->
  (forall x, P x -> P (continuousEffect x)) ->
  (forall x, P x -> P (smoothEffect x)) ->
  P (step docId s e).
Proof.
  intros H Ha He Hk Hi Hf Hr Hp Hc Hs.
  destruct e as [dt now r|dt now|t]; cbn [step].
  - destruct (pollPending (advance dt s)) eqn:E; [|auto].
    apply commit_rule; auto.
  - destruct (interval (advance dt s)) as [c|] eqn:E; [|auto].
    apply commit_rule; auto.
  - auto.
Qed.

Lemma run_app docId s evs1 evs2 :
  run docId s (evs1 ++ evs2) = run docId (run docId s evs1) evs2.
Proof. unfold run. apply fold_left_app. Qed.

Lemma run_rule (P : State -> Prop) docId evs :
  (forall s e, P s -> P (step docId s e)) ->
  forall s, P s -> P (run docId s evs).
Proof.
  intros Hstep. induction evs as [|e evs IH]; intros s H; cbn; auto.
  apply IH, Hstep, H.
Qed.

(** *** The ratchet *)

Lemma currentStep_value c :
  fst (currentStep c)
  = match rawStep (c_status c) (c_message c) with
    | Index k => Index (Z.max k (c_highestStepReached c))
    | NaN => NaN
    end.
Proof. unfold currentStep. destruct (rawStep _ _); reflexivity. Qed.

(** A closure whose ratchet has caught up queues no update. *)
Lemma currentStep_settled c :
  reaches (rawStep (c_status c) (c_message c)) (c_highestStepReached c) ->
  snd (currentStep c) = None.
Proof.
  unfold currentStep, reaches. destruct (rawStep _ _) as [k|]; [|reflexivity].
  intros H. cbn. destruct (Z.ltb_spec (c_highestStepReached c) k); [lia|reflexivity].
Qed.

Lemma getCurrentStep_value s :
  fst (getCurrentStep s)
  = match rawStep (status s) (message s) with
    | Index k => Index (Z.max k (highestStepReached s))
    | NaN => NaN
    end.
Proof.
  unfold getCurrentStep. rewrite (surjective_pairing (currentStep (closure s))).
  cbn [fst]. apply currentStep_value.
Qed.

Lemma getCurrentStep_highest s :
  highestStepReached (snd (getCurrentStep s))
  = match rawStep (status s) (message s) with
    | Index k => Z.max k (highestStepReached s)
    | NaN => highestStepReached s
    end.
Proof.
  rewrite getCurrentStep_state. unfold currentStep. cbn [closure c_status c_message
    c_highestStepReached].
  destruct (rawStep (status s) (message s)) as [k|]; [|reflexivity].
  cbn [snd]. destruct (Z.ltb_spec (highestStepReached s) k); cbn; lia.
Qed.

Lemma ratchets_refl s : ratchets s s.
Proof. split; [lia|auto]. Qed.

Lemma ratchets_trans s1 s2 s3 : ratchets s1 s2 -> ratchets s2 s3 -> ratchets s1 s3.
Proof. intros [H1 T1] [H2 T2]. split; [lia|auto]. Qed.

(** An operation that does not write the cell ratchets trivially. *)
Lemma frame_ratchets cs s s' :
  writes cs CHighest = false -> frame cs s s' -> ratchets s s'.
Proof.
  intros Hc F. specialize (F CHighest Hc). cbn [agree] in F.
  unfold ratchets. rewrite F. split; [lia|auto].
Qed.

Lemma getCurrentStep_ratchets s : ratchets s (snd (getCurrentStep s)).
Proof.
  unfold ratchets. rewrite getCurrentStep_highest.
  destruct (rawStep (status s) (message s)) as [k|] eqn:E; [|split; [lia|auto]].
  pose proof (rawStep_in_table _ _ _ E) as T.
  split; [lia|]. intros Th.
  destruct (Z.max_spec k (highestStepReached s)) as [[_ ->]|[_ ->]]; assumption.
Qed.

Lemma render_ratchets s : ratchets s (render s).
Proof.
  unfold render. destruct (error s);
    [apply ratchets_refl|apply getCurrentStep_ratchets].
Qed.

Lemma progressEffect_ratchets now s : ratchets s (progressEffect now s).
Proof.
  unfold progressEffect.
  pose proof (calculateProgress_state now s) as E.
  destruct (calculateProgress now s) as [newProgress s1]. cbn in E. subst s1.
  pose proof (getCurrentStep_ratchets s) as R.
  destruct (Qlt_le_dec _ _); exact R.
Qed.

(** The callback of the interval, called from a closure whose ratchet has
    caught up, writes the target only. *)
Lemma progressInterval_settled now c s :
  reaches (rawStep (c_status c) (c_message c)) (c_highestStepReached c) ->
  frame [CTarget] s (progressInterval now c s).
Proof.
  intros H. unfold progressInterval.
  pose proof (progress_queued now c) as E. rewrite (currentStep_settled c H) in E.
  destruct (progress now c) as [newProgress w]. cbn [snd] in E. subst w.
  cbn [queued].
  destruct (Qlt_le_dec _ _); [frame_by setTargetProgress|].
  destruct (_ && _); [frame_by setTargetProgress|apply frame_refl].
Qed.

Lemma commit_ratchets prev now s : ratchets s (commit prev now s).
Proof.
  apply (commit_rule (ratchets s)).
  - apply ratchets_refl.
  - intros x H. eapply ratchets_trans; [exact H|apply render_ratchets].
  - intros x H. eapply ratchets_trans; [exact H|apply progressEffect_ratchets].
  - intros x H. eapply ratchets_trans; [exact H|].
    eapply frame_ratchets; [|apply continuousEffect_frame]; reflexivity.
  - intros x H. eapply ratchets_trans; [exact H|].
    eapply frame_ratchets; [|apply smoothEffect_frame]; reflexivity.
Qed.

(** The interval's closure of a state that satisfies [interval_ok] has
    caught up. *)
Lemma interval_ok_settled s c :
  interval_ok s -> interval s = Some c ->
  reaches (rawStep (c_status c) (c_message c)) (c_highestStepReached c).
Proof. unfold interval_ok. intros H E. rewrite E in H. tauto. Qed.

Lemma advance_interval_ok dt s : interval_ok s -> interval_ok (advance dt s).
Proof. intros H. exact H. Qed.

Lemma step_ratchets docId s e : interval_ok s -> ratchets s (step docId s e).
Proof.
  intros K. destruct e as [dt now r|dt now|t]; cbn [step].
  - assert (R0 : ratchets s (advance dt s)) by exact (ratchets_refl s).
    destruct (pollPending (advance dt s)); [|exact R0].
    eapply ratchets_trans; [|apply commit_ratchets].
    eapply ratchets_trans; [exact R0|].
    eapply frame_ratchets; [|apply checkStatus_frame]; reflexivity.
  - assert (R0 : ratchets s (advance dt s)) by exact (ratchets_refl s).
    destruct (interval (advance dt s)) as [c|] eqn:E; [|exact R0].
    eapply ratchets_trans; [|apply commit_ratchets].
    eapply ratchets_trans; [exact R0|].
    eapply frame_ratchets;
      [|apply progressInterval_settled, (interval_ok_settled (advance dt s) c K E)].
    reflexivity.
  - eapply ratchets_trans.
    + eapply frame_ratchets; [|apply (elapse_frame t s)]; reflexivity.
    + eapply frame_ratchets; [|apply animate_frame]; reflexivity.
Qed.

(** *** What every state reached from the mount satisfies *)

Lemma changedS_same f a b : f a = f b -> changedS f a b = false.
Proof. intros E. unfold changedS. rewrite E, String.eqb_refl. reflexivity. Qed.

Lemma changedS_false f a b : changedS f a b = false -> f a = f b.
Proof. unfold changedS. intros H. apply negb_false_iff, String.eqb_eq in H. exact H. Qed.

Lemma changedQ_false f a b : changedQ f a b = false -> (f a == f b)%Q.
Proof. unfold changedQ. intros H. apply negb_false_iff, Qeq_bool_eq in H. exact H. Qed.

Lemma changedZ_false f a b : changedZ f a b = false -> f a = f b.
Proof. unfold changedZ. intros H. apply negb_false_iff, Z.eqb_eq in H. exact H. Qed.

Lemma changedQ_same f a b : f a = f b -> changedQ f a b = false.
Proof.
  intros E. unfold changedQ. rewrite E.
  rewrite (proj2 (Qeq_bool_iff (f b) (f b)) (Qeq_refl _)). reflexivity.
Qed.

Lemma changedZ_same f a b : f a = f b -> changedZ f a b = false.
Proof. intros E. unfold changedZ. rewrite E, Z.eqb_refl. reflexivity. Qed.

Lemma getCurrentStep_caught_up s : caught_up (snd (getCurrentStep s)).
Proof.
  unfold caught_up. rewrite getCurrentStep_highest.
  rewrite (getCurrentStep_frame s CStatus eq_refl).
  rewrite (getCurrentStep_frame s CMessage eq_refl).
  destruct (rawStep (status s) (message s)); cbn; [lia|exact I].
Qed.

Lemma frame_caught_up cs s s' :
  frame cs s s' -> writes cs CStatus = false -> writes cs CMessage = false ->
  writes cs CHighest = false -> caught_up s -> caught_up s'.
Proof.
  intros F H1 H2 H3 K. unfold caught_up.
  rewrite (F CStatus H1), (F CMessage H2), (F CHighest H3). exact K.
Qed.

Lemma render_caught_up s : error s = None \/ caught_up s -> caught_up (render s).
Proof.
  intros H. unfold render. destruct (error s) as [e|].
  - destruct H as [H|H]; [discriminate|exact H].
  - apply getCurrentStep_caught_up.
Qed.

Lemma progressEffect_caught_up now s : caught_up (progressEffect now s).
Proof.
  unfold progressEffect.
  pose proof (calculateProgress_state now s) as E.
  destruct (calculateProgress now s) as [newProgress s1]. cbn [snd] in E. subst s1.
  pose proof (getCurrentStep_caught_up s) as K.
  destruct (Qlt_le_dec _ _); exact K.
Qed.

(** The interval after the effects of a commit: registered anew with the
    closure of the committed render, or left as it was with the
    dependencies unchanged. *)
Lemma screenEffects_interval_ok prev now s :
  interval_ok prev -> interval s = interval prev ->
  highestStepReached prev <= highestStepReached s ->
  error s = None \/ caught_up s ->
  interval_ok (screenEffects prev now s).
Proof.
  intros K Ei Hh Hc. unfold screenEffects.
  pose proof (render_frame s) as F1. pose proof (render_ratchets s) as [R1 _].
  pose proof (render_caught_up s Hc) as C1.
  set (s1 := render s) in *.
  match goal with |- context [progressEffect now s1] =>
    set (s2 := if changedS status prev s1 || changedS message prev s1
               then progressEffect now s1 else s1) end.
  assert (F2 : frame [CTarget; CLast; CHighest] s1 s2).
  { apply frame_if; [apply progressEffect_frame|apply frame_refl]. }
  assert (R2 : highestStepReached s1 <= highestStepReached s2).
  { subst s2. destruct (_ || _); [apply progressEffect_ratchets|lia]. }
  assert (C2 : caught_up s2).
  { subst s2. destruct (_ || _); [apply progressEffect_caught_up|exact C1]. }
  destruct (changedS status prev s2 || changedQ targetProgress prev s2
            || changedZ lastProgressUpdate prev s2) eqn:D.
  - unfold continuousEffect, interval_ok.
    destruct (String.eqb_spec (status s2) "completed") as [E|N];
      cbn [interval setInterval status setTargetProgress targetProgress
           lastProgressUpdate highestStepReached closure c_status c_message
           c_targetProgress c_lastProgressUpdate c_highestStepReached].
    + exact E.
    + split; [exact N|]. split; [reflexivity|]. split; [reflexivity|].
      split; [reflexivity|]. split; [exact C2|lia].
  - apply orb_false_iff in D as [D D3]. apply orb_false_iff in D as [D1 D2].
    apply changedS_false in D1. apply changedQ_false in D2.
    apply changedZ_false in D3.
    unfold interval_ok in *.
    rewrite (F2 CInterval eq_refl), (F1 CInterval eq_refl), Ei.
    destruct (interval prev) as [c|].
    + destruct K as (N & Es & Et & El & Hr & Hh').
      split; [congruence|]. split; [congruence|].
      split; [rewrite Et; exact D2|]. split; [congruence|].
      split; [exact Hr|lia].
    + congruence.
Qed.

Lemma commit_interval_ok prev now s :
  interval_ok prev -> interval s = interval prev ->
  highestStepReached prev <= highestStepReached s ->
  error s = None \/ caught_up s ->
  interval_ok (commit prev now s).
Proof.
  intros K Ei Hh Hc. unfold commit.
  pose proof (screenEffects_interval_ok prev now s K Ei Hh Hc) as H.
  destruct (changedQ _ _ _); [|exact H].
  unfold interval_ok in *.
  rewrite (smoothEffect_frame _ CInterval eq_refl),
    (smoothEffect_frame _ CStatus eq_refl),
    (smoothEffect_frame _ CTarget eq_refl),
    (smoothEffect_frame _ CLast eq_refl),
    (smoothEffect_frame _ CHighest eq_refl).
  exact H.
Qed.

Lemma frame_interval_ok cs s s' :
  frame cs s s' -> writes cs CStatus = false -> writes cs CTarget = false ->
  writes cs CLast = false -> writes cs CHighest = false ->
  writes cs CInterval = false -> interval_ok s -> interval_ok s'.
Proof.
  intros F H1 H2 H3 H4 H5 K. unfold interval_ok.
  rewrite (F CStatus H1), (F CTarget H2), (F CLast H3), (F CHighest H4),
    (F CInterval H5). exact K.
Qed.

(** [commit_rule] for a property that need only hold once the render has run. *)
Lemma commit_rule_rendered (P : State -> Prop) prev now s :
  P (render s) ->
  (forall x, P x -> P (progressEffect now x)) ->
  (forall x, P x -> P (continuousEffect x)) ->
  (forall x, P x -> P (smoothEffect x)) ->
  P (commit prev now s).
Proof.
  intros H Hp Hc Hs. unfold commit, screenEffects.
  set (s1 := render s) in *.
  match goal with |- context [progressEffect now s1] =>
    set (s2 := if changedS status prev s1 || changedS message prev s1
               then progressEffect now s1 else s1) end.
  assert (H2 : P s2) by (subst s2; destruct (_ || _); auto).
  match goal with |- context [continuousEffect s2] =>
    set (s3 := if changedS status prev s2 || changedQ targetProgress prev s2
                  || changedZ lastProgressUpdate prev s2
               then continuousEffect s2 else s2) end.
  assert (H3 : P s3).
  { subst s3.
    destruct (changedS status prev s2 || changedQ targetProgress prev s2
              || changedZ lastProgressUpdate prev s2); auto. }
  destruct (changedQ targetProgress prev s3); auto.
Qed.

Lemma commit_caught_up prev now s :
  error s = None \/ caught_up s -> caught_up (commit prev now s).
Proof.
  intros H. apply commit_rule_rendered.
  - apply render_caught_up, H.
  - intros x _. apply progressEffect_caught_up.
  - intros x. exact (frame_caught_up _ _ _ (continuousEffect_frame x) eq_refl eq_refl eq_refl).
  - intros x. exact (frame_caught_up _ _ _ (smoothEffect_frame x) eq_refl eq_refl eq_refl).
Qed.

(** *** Polling *)

Lemma navigations_app s ts b :
  navigations (schedule ts b s)
  = (navigations s + length (filter (fun t => is_navigation t = true) ts))%nat.
Proof. unfold navigations. cbn [timers schedule]. rewrite filter_app, length_app. reflexivity. Qed.

Lemma navigations_frame cs s s' :
  frame cs s s' -> writes cs CTimers = false -> navigations s' = navigations s.
Proof. intros F Hc. unfold navigations. rewrite (F CTimers Hc). reflexivity. Qed.

(** The three branches of [checkStatus] on a response. *)
Lemma checkStatus_completed docId sd s :
  sd_status sd = "completed" ->
  checkStatus docId (Some sd) s
  = schedule [NavigateAfter 2000 ("/document/" ++ docId)] false
      (setMessage (or_else (sd_message sd) "completed")
         (setStatus "completed" (request s))).
Proof. intros E. unfold checkStatus. rewrite E. reflexivity. Qed.

Lemma checkStatus_failed docId sd s :
  sd_status sd = "failed" \/ sd_status sd = "error" ->
  checkStatus docId (Some sd) s
  = schedule [] false
      (setError (Some (or_else (sd_message sd) processing_failed))
         (setMessage (or_else (sd_message sd) (sd_status sd))
            (setStatus (sd_status sd) (request s)))).
Proof. intros [E|E]; unfold checkStatus; rewrite E; reflexivity. Qed.

Lemma checkStatus_continue docId sd s :
  sd_status sd <> "completed" -> sd_status sd <> "failed" ->
  sd_status sd <> "error" ->
  checkStatus docId (Some sd) s
  = schedule [PollAfter 2000] true
      (setMessage (or_else (sd_message sd) (sd_status sd))
         (setStatus (sd_status sd) (request s))).
Proof.
  intros Hc Hf He. unfold checkStatus.
  destruct (String.eqb_spec (sd_status sd) "completed"); [contradiction|].
  destruct (String.eqb_spec (sd_status sd) "failed"); [contradiction|].
  destruct (String.eqb_spec (sd_status sd) "error"); [contradiction|].
  reflexivity.
Qed.

Lemma checkStatus_polling_ok docId r s :
  polling_ok s -> pollPending s = true -> polling_ok (checkStatus docId r s).
Proof.
  intros K Hp. specialize (K Hp). unfold polling_ok, checkStatus.
  destruct r as [sd|]; [|discriminate].
  destruct (String.eqb _ _); [discriminate|].
  destruct (_ || _); [discriminate|].
  intros _. rewrite navigations_app.
  change (navigations (setMessage _ (setStatus _ (request s)))) with (navigations s).
  rewrite K. reflexivity.
Qed.

Lemma frame_polling_ok cs s s' :
  frame cs s s' -> writes cs CTimers = false -> writes cs CPoll = false ->
  polling_ok s -> polling_ok s'.
Proof.
  intros F Ht Hp K. unfold polling_ok.
  rewrite (navigations_frame cs s s' F Ht), (F CPoll Hp). exact K.
Qed.

Lemma checkStatus_requests docId r s :
  statusRequests (checkStatus docId r s) = S (statusRequests s).
Proof. by_cases checkStatus. Qed.

Lemma frame_session_ok cs s s' :
  frame cs s s' ->
  writes cs CStatus = false -> writes cs CError = false ->
  writes cs CPoll = false -> writes cs CTimers = false ->
  session_ok s -> session_ok s'.
Proof.
  intros F H1 H2 H3 H4 K. unfold session_ok.
  rewrite (navigations_frame cs s s' F H4), (F CStatus H1), (F CError H2),
    (F CPoll H3). exact K.
Qed.

Lemma nonterminal_not_completed st :
  nonterminal st -> String.eqb st "completed" = false.
Proof. intros (N & _ & _). apply String.eqb_neq, N. Qed.

Lemma checkStatus_session_ok docId r s :
  session_ok s -> pollPending s = true -> session_ok (checkStatus docId r s).
Proof.
  intros [Hiff Hnav] Hp. destruct (proj1 Hiff Hp) as [He Hn].
  rewrite (nonterminal_not_completed _ Hn) in Hnav.
  destruct r as [sd|].
  - destruct (String.eqb_spec (sd_status sd) "completed") as [Ec|Nc].
    { rewrite (checkStatus_completed docId sd s Ec). split.
      - cbn. split; [discriminate|]. intros (_ & N & _). contradiction.
      - rewrite navigations_app.
        change (navigations (setMessage _ _)) with (navigations s).
        rewrite Hnav. reflexivity. }
    destruct (String.eqb_spec (sd_status sd) "failed") as [Ef|Nf].
    { rewrite (checkStatus_failed docId sd s (or_introl Ef)). split.
      - cbn. split; [discriminate|]. intros [E _]. discriminate E.
      - rewrite navigations_app.
        change (navigations (setError _ _)) with (navigations s).
        rewrite Hnav. cbn [status schedule setError setMessage setStatus].
        rewrite Ef. reflexivity. }
    destruct (String.eqb_spec (sd_status sd) "error") as [Ee|Ne].
    { rewrite (checkStatus_failed docId sd s (or_intror Ee)). split.
      - cbn. split; [discriminate|]. intros [E _]. discriminate E.
      - rewrite navigations_app.
        change (navigations (setError _ _)) with (navigations s).
        rewrite Hnav. cbn [status schedule setError setMessage setStatus].
        rewrite Ee. reflexivity. }
    rewrite (checkStatus_continue docId sd s Nc Nf Ne). split.
    + cbn. split; [intros _|reflexivity]. split; [exact He|].
      repeat split; assumption.
    + rewrite navigations_app.
      change (navigations (setMessage _ _)) with (navigations s).
      rewrite Hnav. cbn [status schedule setMessage setStatus].
      destruct (String.eqb_spec (sd_status sd) "completed"); [contradiction|].
      reflexivity.
  - unfold checkStatus. split.
    + cbn. split; [discriminate|]. intros [E _]. discriminate E.
    + rewrite navigations_app.
      change (navigations (setError _ _)) with (navigations s).
      rewrite Hnav. cbn [status schedule setError request].
      rewrite (nonterminal_not_completed _ Hn). reflexivity.
Qed.

Lemma checkStatus_input docId sd s :
  status (checkStatus docId (Some sd) s) = sd_status sd /\
  message (checkStatus docId (Some sd) s)
  = or_else (sd_message sd) (sd_status sd).
Proof. split; by_cases checkStatus. Qed.


Lemma schedule_frame ts b s : frame [CTimers; CPoll] s (schedule ts b s).
Proof. frame_by schedule. Qed.

Lemma mount_frame p0 now :
  frame [CTarget; CLast; CHighest; CAnimation; CInterval; CTimers; CPoll]
    (initial p0 now) (mount p0 now).
Proof.
  unfold mount. set (s0 := initial p0 now).
  eapply frame_step; [|eapply frame_step; [|eapply frame_step; [|
    eapply frame_step; [|eapply frame_step; [|
      eapply frame_weaken; [|apply (render_frame s0)]|
      apply smoothEffect_frame]|
      apply schedule_frame]|
      apply progressEffect_frame]|
      apply continuousEffect_frame]|
      apply commit_frame]; frame_incl.
Qed.

Lemma mount_status p0 now : status (mount p0 now) = "processing".
Proof. exact (mount_frame p0 now CStatus eq_refl). Qed.

Lemma step_polling_ok docId s e : polling_ok s -> polling_ok (step docId s e).
Proof.
  intros K. apply (step_rule polling_ok); [exact K|..].
  - intros dt x. exact (frame_polling_ok _ _ _ (advance_frame dt x) eq_refl eq_refl).
  - intros t x. exact (frame_polling_ok _ _ _ (elapse_frame t x) eq_refl eq_refl).
  - intros r x Hx Hp. apply checkStatus_polling_ok; assumption.
  - intros now c x Hx _.
    exact (frame_polling_ok _ _ _ (progressInterval_frame now c x) eq_refl eq_refl Hx).
  - intros t x. exact (frame_polling_ok _ _ _ (animate_frame t x) eq_refl eq_refl).
  - intros x. exact (frame_polling_ok _ _ _ (render_frame x) eq_refl eq_refl).
  - intros now x.
    exact (frame_polling_ok _ _ _ (progressEffect_frame now x) eq_refl eq_refl).
  - intros x. exact (frame_polling_ok _ _ _ (continuousEffect_frame x) eq_refl eq_refl).
  - intros x. exact (frame_polling_ok _ _ _ (smoothEffect_frame x) eq_refl eq_refl).
Qed.

Lemma mount_polling p0 now :
  pollPending (mount p0 now) = true /\ timers (mount p0 now) = [PollAfter 1000].
Proof.
  unfold mount.
  set (s3 := schedule [PollAfter 1000] true (smoothEffect (render (initial p0 now)))).
  set (s5 := continuousEffect (progressEffect now s3)).
  rewrite (commit_frame s3 now s5 CPoll eq_refl).
  rewrite (commit_frame s3 now s5 CTimers eq_refl). subst s5.
  rewrite (continuousEffect_frame _ CPoll eq_refl).
  rewrite (continuousEffect_frame _ CTimers eq_refl).
  rewrite (progressEffect_frame now s3 CPoll eq_refl).
  rewrite (progressEffect_frame now s3 CTimers eq_refl).
  split; [reflexivity|]. subst s3. cbn [timers schedule].
  rewrite (smoothEffect_frame _ CTimers eq_refl).
  rewrite (render_frame _ CTimers eq_refl). reflexivity.
Qed.

Lemma run_polling_ok docId p0 now evs :
  polling_ok (run docId (mount p0 now) evs).
Proof.
  apply run_rule; [intros s e; apply step_polling_ok|].
  intros _. unfold navigations.
  rewrite (proj2 (mount_polling p0 now)). reflexivity.
Qed.

(** Once no poll is pending, no event issues a request or registers a
    timer. *)
Lemma step_stopped docId s e :
  pollPending s = false ->
  frame [CTarget; CLast; CHighest; CSmooth; CAnimation; CInterval; CPerf] s
    (step docId s e).
Proof.
  intros Hp. destruct e as [dt now r|dt now|t]; cbn [step].
  - cbn [pollPending advance]. rewrite Hp.
    eapply frame_weaken; [|apply advance_frame]. frame_incl.
  - destruct (interval (advance dt s)) as [c|].
    + eapply frame_step; [|eapply frame_step; [|
        eapply frame_weaken; [|apply (advance_frame dt s)]|
        apply progressInterval_frame]|apply commit_frame]; frame_incl.
    + eapply frame_weaken; [|apply advance_frame]. frame_incl.
  - eapply frame_step; [|eapply frame_weaken; [|apply (elapse_frame t s)]|
      apply animate_frame]; frame_incl.
Qed.

Lemma run_stopped docId evs s :
  pollPending s = false ->
  frame [CTarget; CLast; CHighest; CSmooth; CAnimation; CInterval; CPerf] s
    (run docId s evs).
Proof.
  revert s. induction evs as [|e evs IH]; intros s Hp; cbn.
  - apply frame_refl.
  - pose proof (step_stopped docId s e Hp) as F.
    eapply frame_trans; [exact F|]. apply IH.
    rewrite (F CPoll eq_refl). exact Hp.
Qed.

(** *** The polling session *)

Lemma step_session_ok docId s e : session_ok s -> session_ok (step docId s e).
Proof.
  intros K. apply (step_rule session_ok); [exact K|..].
  - intros dt x. exact (frame_session_ok _ _ _ (advance_frame dt x) eq_refl eq_refl eq_refl eq_refl).
  - intros t x. exact (frame_session_ok _ _ _ (elapse_frame t x) eq_refl eq_refl eq_refl eq_refl).
  - intros r x Hx Hp. apply checkStatus_session_ok; assumption.
  - intros now c x Hx _.
    exact (frame_session_ok _ _ _ (progressInterval_frame now c x) eq_refl eq_refl eq_refl eq_refl Hx).
  - intros t x. exact (frame_session_ok _ _ _ (animate_frame t x) eq_refl eq_refl eq_refl eq_refl).
  - intros x. exact (frame_session_ok _ _ _ (render_frame x) eq_refl eq_refl eq_refl eq_refl).
  - intros now x.
    exact (frame_session_ok _ _ _ (progressEffect_frame now x) eq_refl eq_refl eq_refl eq_refl).
  - intros x. exact (frame_session_ok _ _ _ (continuousEffect_frame x) eq_refl eq_refl eq_refl eq_refl).
  - intros x. exact (frame_session_ok _ _ _ (smoothEffect_frame x) eq_refl eq_refl eq_refl eq_refl).
Qed.

Lemma mount_session_ok p0 now : session_ok (mount p0 now).
Proof.
  pose proof (mount_frame p0 now) as F.
  destruct (mount_polling p0 now) as [Hp Ht].
  unfold session_ok. rewrite Hp, (F CError eq_refl), (F CStatus eq_refl).
  unfold navigations. rewrite Ht. cbn. split; [|reflexivity].
  split; [intros _|reflexivity]. split; [reflexivity|].
  repeat split; discriminate.
Qed.

Lemma run_session_ok docId p0 now evs :
  session_ok (run docId (mount p0 now) evs).
Proof.
  apply run_rule; [intros s e; apply step_session_ok|apply mount_session_ok].
Qed.

(** *** The shown step and the interval's closure *)

(** After [checkStatus] either no error is shown, so that the render will
    ratchet, or the ratchet is already at or above the step of the input. *)
Lemma checkStatus_caught_up docId r s :
  error s = None -> caught_up s -> 0 <= highestStepReached s ->
  error (checkStatus docId r s) = None \/ caught_up (checkStatus docId r s).
Proof.
  intros He K H0. destruct r as [sd|]; [|right; exact K].
  destruct (String.eqb_spec (sd_status sd) "completed") as [Ec|Nc].
  { left. rewrite (checkStatus_completed docId sd s Ec). exact He. }
  destruct (String.eqb_spec (sd_status sd) "failed") as [Ef|Nf].
  { right. rewrite (checkStatus_failed docId sd s (or_introl Ef)).
    unfold caught_up. cbn. rewrite Ef. exact H0. }
  destruct (String.eqb_spec (sd_status sd) "error") as [Ee|Ne].
  { right. rewrite (checkStatus_failed docId sd s (or_intror Ee)).
    unfold caught_up. cbn. rewrite Ee. exact H0. }
  left. rewrite (checkStatus_continue docId sd s Nc Nf Ne). exact He.
Qed.

Lemma in_table_nonneg k : in_table k -> 0 <= k <= 5.
Proof. unfold in_table. lia. Qed.

Lemma step_steady docId s e : steady s -> steady (step docId s e).
Proof.
  intros (Hs & Ht & Hc & Hi).
  split; [apply step_session_ok, Hs|].
  split; [apply (step_ratchets docId s e Hi), Ht|].
  pose proof (in_table_nonneg _ Ht) as [H0 _].
  destruct e as [dt now r|dt now|t]; cbn [step].
  - set (s0 := advance dt s).
    destruct (pollPending s0) eqn:Hp; [|split; assumption].
    assert (He : error s0 = None) by (apply (proj1 (proj1 Hs)), Hp).
    pose proof (checkStatus_caught_up docId r s0 He Hc H0) as C.
    pose proof (checkStatus_frame docId r s0) as F.
    split; [apply commit_caught_up, C|].
    apply commit_interval_ok; [exact Hi|exact (F CInterval eq_refl)| |exact C].
    rewrite (F CHighest eq_refl). lia.
  - set (s0 := advance dt s).
    destruct (interval s0) as [c|] eqn:E; [|split; assumption].
    pose proof (progressInterval_settled now c s0 (interval_ok_settled s0 c Hi E)) as F.
    assert (C : caught_up (progressInterval now c s0))
      by exact (frame_caught_up _ _ _ F eq_refl eq_refl eq_refl Hc).
    split; [apply commit_caught_up; right; exact C|].
    apply commit_interval_ok; [exact Hi|exact (F CInterval eq_refl)| |right; exact C].
    rewrite (F CHighest eq_refl). lia.
  - pose proof (elapse_frame t s) as F1.
    pose proof (animate_frame (millis t) (elapse t s)) as F2.
    split.
    + apply (frame_caught_up _ _ _ F2 eq_refl eq_refl eq_refl).
      exact (frame_caught_up _ _ _ F1 eq_refl eq_refl eq_refl Hc).
    + apply (frame_interval_ok _ _ _ F2 eq_refl eq_refl eq_refl eq_refl eq_refl).
      exact (frame_interval_ok _ _ _ F1 eq_refl eq_refl eq_refl eq_refl eq_refl Hi).
Qed.

Lemma mount_in_table p0 now : in_table (highestStepReached (mount p0 now)).
Proof.
  unfold mount.
  assert (H0 : in_table (highestStepReached (initial p0 now)))
    by (left; reflexivity).
  set (s0 := initial p0 now) in *.
  pose proof (render_ratchets s0) as [_ R1]. specialize (R1 H0).
  set (s1 := render s0) in *.
  assert (H3 : in_table (highestStepReached
                           (schedule [PollAfter 1000] true (smoothEffect s1))))
    by exact R1.
  set (s3 := schedule [PollAfter 1000] true (smoothEffect s1)) in *.
  pose proof (progressEffect_ratchets now s3) as [_ R4]. specialize (R4 H3).
  set (s4 := progressEffect now s3) in *.
  assert (H5 : in_table (highestStepReached (continuousEffect s4))).
  { pose proof (continuousEffect_frame s4 CHighest eq_refl) as E.
    cbn [agree] in E. rewrite E. exact R4. }
  exact (proj2 (commit_ratchets s3 now (continuousEffect s4)) H5).
Qed.

Lemma mount_caught_up p0 now : caught_up (mount p0 now).
Proof.
  unfold mount. apply commit_caught_up. right.
  apply (frame_caught_up _ _ _ (continuousEffect_frame _) eq_refl eq_refl eq_refl).
  apply progressEffect_caught_up.
Qed.

Lemma continuousEffect_interval_ok s :
  caught_up s -> interval_ok (continuousEffect s).
Proof.
  intros C. unfold continuousEffect, interval_ok.
  destruct (String.eqb_spec (status s) "completed") as [E|N]; cbn.
  - exact E.
  - split; [exact N|]. split; [reflexivity|]. split; [reflexivity|].
    split; [reflexivity|]. split; [exact C|lia].
Qed.

Lemma render_interval_ok s : interval_ok s -> interval_ok (render s).
Proof.
  intros K. pose proof (render_frame s) as F.
  pose proof (render_ratchets s) as [R _].
  unfold interval_ok in *.
  rewrite (F CInterval eq_refl), (F CStatus eq_refl), (F CTarget eq_refl),
    (F CLast eq_refl).
  destruct (interval s) as [c|]; [|exact K].
  destruct K as (? & ? & ? & ? & ? & ?). repeat split; try assumption. lia.
Qed.

(** The effects of a commit in which neither [status] nor [message]
    changed. *)
Lemma screenEffects_quiet prev now s :
  status s = status prev -> message s = message prev ->
  screenEffects prev now s
  = if changedS status prev (render s) || changedQ targetProgress prev (render s)
       || changedZ lastProgressUpdate prev (render s)
    then continuousEffect (render s) else render s.
Proof.
  intros Es Em. unfold screenEffects.
  pose proof (render_frame s) as F1.
  rewrite (changedS_same status prev (render s)),
    (changedS_same message prev (render s));
    [|rewrite (F1 CMessage eq_refl); auto|rewrite (F1 CStatus eq_refl); auto].
  cbn [orb].
  rewrite (changedS_same status prev (render s));
    [|rewrite (F1 CStatus eq_refl); auto].
  reflexivity.
Qed.

Lemma smoothEffect_interval_ok s : interval_ok s -> interval_ok (smoothEffect s).
Proof.
  exact (frame_interval_ok _ _ _ (smoothEffect_frame s)
           eq_refl eq_refl eq_refl eq_refl eq_refl).
Qed.

Lemma mount_interval_ok p0 now : interval_ok (mount p0 now).
Proof.
  unfold mount.
  set (s3 := schedule [PollAfter 1000] true (smoothEffect (render (initial p0 now)))).
  set (s4 := progressEffect now s3).
  pose proof (progressEffect_caught_up now s3) as C4. fold s4 in C4.
  pose proof (continuousEffect_interval_ok s4 C4) as K.
  pose proof (continuousEffect_frame s4) as F.
  pose proof (progressEffect_frame now s3) as F4. fold s4 in F4.
  set (s5 := continuousEffect s4) in *.
  assert (C5 : caught_up s5)
    by exact (frame_caught_up _ _ _ F eq_refl eq_refl eq_refl C4).
  unfold commit.
  assert (H : interval_ok (screenEffects s3 now s5)).
  { rewrite screenEffects_quiet.
    - destruct (_ || _).
      + apply continuousEffect_interval_ok, render_caught_up. right. exact C5.
      + apply render_interval_ok, K.
    - rewrite (F CStatus eq_refl). exact (F4 CStatus eq_refl).
    - rewrite (F CMessage eq_refl). exact (F4 CMessage eq_refl). }
  destruct (changedQ _ _ _); [apply smoothEffect_interval_ok|]; exact H.
Qed.

Lemma mount_steady p0 now : steady (mount p0 now).
Proof.
  split; [apply mount_session_ok|]. split; [apply mount_in_table|].
  split; [apply mount_caught_up|apply mount_interval_ok].
Qed.

Lemma run_steady docId p0 now evs : steady (run docId (mount p0 now) evs).
Proof. apply run_rule; [apply step_steady|apply mount_steady]. Qed.

(** No reachable state holds a step outside the tables: [calculateProgress]
    never reads past the end of [stepWeights]. *)
Lemma highest_in_table docId p0 now evs :
  in_table (highestStepReached (run docId (mount p0 now) evs)).
Proof. exact (proj1 (proj2 (run_steady docId p0 now evs))). Qed.

Lemma run_ratchets docId evs s :
  steady s -> ratchets s (run docId s evs).
Proof.
  revert s. induction evs as [|e evs IH]; intros s K; cbn.
  - apply ratchets_refl.
  - eapply ratchets_trans;
      [apply step_ratchets, K|apply IH, step_steady, K].
Qed.

(** *** Rounding to integers *)

Lemma Math_round_mono x y : (x <= y)%Q -> (Math_round x <= Math_round y)%Q.
Proof.
  intros H. unfold Math_round. rewrite <- Zle_Qle.
  apply Qfloor_resp_le. lra.
Qed.

Lemma Math_round_Z (n : Z) : Math_round (inject_Z n) = inject_Z n.
Proof.
  unfold Math_round. f_equal.
  pose proof (Qfloor_le (inject_Z n + (1 # 2))) as Hl.
  pose proof (Qlt_floor (inject_Z n + (1 # 2))) as Hu.
  set (m := Qfloor (inject_Z n + (1 # 2))) in *.
  assert (H1 : (inject_Z m < inject_Z (n + 1))%Q).
  { rewrite inject_Z_plus. change (inject_Z 1) with 1%Q. lra. }
  assert (H2 : (inject_Z n < inject_Z (m + 1))%Q) by lra.
  rewrite <- Zlt_Qlt in H1, H2. lia.
Qed.

Lemma Math_round_le x (b : Z) :
  (x <= inject_Z b)%Q -> (Math_round x <= inject_Z b)%Q.
Proof. intros H. rewrite <- (Math_round_Z b). apply Math_round_mono, H. Qed.

Lemma Math_round_ge x (a : Z) :
  (inject_Z a <= x)%Q -> (inject_Z a <= Math_round x)%Q.
Proof. intros H. rewrite <- (Math_round_Z a). apply Math_round_mono, H. Qed.

Lemma stepWeights_nonneg i w : stepWeights !! i = Some w -> 0 <= w.
Proof.
  unfold stepWeights.
  do 7 (destruct i as [|i]; [cbn; intros [= <-]; lia|]); discriminate.
Qed.

Lemma stepDurations_pos i d : stepDurations !! i = Some d -> 0 < d.
Proof.
  unfold stepDurations.
  do 7 (destruct i as [|i]; [cbn; intros [= <-]; lia|]); discriminate.
Qed.

(** The weights of the steps before [i], and with step [i]. *)
Lemma band_of_step i :
  (i <= 5)%nat ->
  exists w d, stepWeights !! i = Some w /\ stepDurations !! i = Some d /\
              0 <= w /\ 0 < d /\
              sum_weights (take (S i) stepWeights)
              = sum_weights (take i stepWeights) + w /\
              sum_weights (take (S i) stepWeights) <= 100.
Proof.
  intros Hi.
  do 6 (destruct i as [|i];
        [eexists _, _; cbn; repeat split; lia|]).
  lia.
Qed.


(** *** [calculateProgress] *)

Lemma inject_Z_nonneg n : 0 <= n -> (0 <= inject_Z n)%Q.
Proof. intros H. change 0%Q with (inject_Z 0). rewrite <- Zle_Qle. exact H. Qed.

Lemma inject_Z_pos n : 0 < n -> (0 < inject_Z n)%Q.
Proof. intros H. change 0%Q with (inject_Z 0). rewrite <- Zlt_Qlt. exact H. Qed.

(** The integers of the component are doubles. *)
Lemma is_double_small n : -1000000 <= n <= 1000000 -> is_double (inject_Z n).
Proof.
  intros H. apply is_double_Z.
  assert (1000000 <= 2 ^ 53) by (vm_compute; discriminate). lia.
Qed.

(** The fraction of the current step grows with the time spent. *)
Lemma stepProgress_mono (t t' d : Z) :
  0 < d -> t <= t' -> (stepProgressAt t d <= stepProgressAt t' d)%Q.
Proof.
  intros Hd Ht. unfold stepProgressAt.
  assert (HD : (0 < inject_Z (d * 1000))%Q) by (apply inject_Z_pos; lia).
  assert (H : (inject_Z t / inject_Z (d * 1000)
               <= inject_Z t' / inject_Z (d * 1000))%Q).
  { apply Qmult_le_compat_r; [rewrite <- Zle_Qle; exact Ht|].
    apply Qlt_le_weak, Qinv_lt_0_compat, HD. }
  apply Q.min_glb.
  - eapply Qle_trans; [apply Q.le_min_l|apply fl_mono, H].
  - apply Q.le_min_r.
Qed.

Lemma stepProgress_range (t d : Z) :
  0 < d -> 0 <= t -> (0 <= stepProgressAt t d <= 1)%Q.
Proof.
  intros Hd Ht. unfold stepProgressAt.
  assert (HD : (0 < inject_Z (d * 1000))%Q) by (apply inject_Z_pos; lia).
  split; [|apply Q.le_min_r].
  apply Q.min_glb; [|discriminate].
  apply fl_nonneg. apply Qle_shift_div_l; [exact HD|].
  rewrite Qmult_0_l. apply inject_Z_nonneg, Ht.
Qed.

Lemma stepProgress_le_1 (t d : Z) : (stepProgressAt t d <= 1)%Q.
Proof. apply Q.le_min_r. Qed.

Lemma stepProgress_full (t d : Z) :
  0 < d -> d * 1000 <= t -> (stepProgressAt t d == 1)%Q.
Proof.
  intros Hd Ht. unfold stepProgressAt.
  assert (HD : (0 < inject_Z (d * 1000))%Q) by (apply inject_Z_pos; lia).
  apply Q.min_r. apply fl_ge_double; [exact (is_double_small 1 ltac:(lia))|].
  apply Qle_shift_div_l; [exact HD|].
  rewrite Qmult_1_l. rewrite <- Zle_Qle. exact Ht.
Qed.

Lemma totalAt_mono C w p p' :
  0 <= w -> (p <= p')%Q -> (totalAt C w p <= totalAt C w p')%Q.
Proof.
  intros Hw Hp. unfold totalAt. apply fl_mono.
  assert (fl (inject_Z w * p) <= fl (inject_Z w * p'))%Q; [|lra].
  apply fl_mono. pose proof (inject_Z_nonneg w Hw). nra.
Qed.

Lemma totalAt_le C w p :
  0 <= w -> -1000 <= C -> C + w <= 1000 -> (p <= 1)%Q ->
  (totalAt C w p <= inject_Z (C + w))%Q.
Proof.
  intros Hw HC HCw Hp. unfold totalAt.
  apply fl_le_double; [apply is_double_small; lia|].
  rewrite inject_Z_plus.
  assert (fl (inject_Z w * p) <= inject_Z w)%Q; [|lra].
  apply fl_le_double; [apply is_double_small; lia|].
  pose proof (inject_Z_nonneg w Hw). nra.
Qed.

Lemma totalAt_ge C w p :
  0 <= w -> -1000 <= C <= 1000 -> (0 <= p)%Q ->
  (inject_Z C <= totalAt C w p)%Q.
Proof.
  intros Hw HC Hp. unfold totalAt.
  apply fl_ge_double; [apply is_double_small; lia|].
  assert (0 <= fl (inject_Z w * p))%Q; [|lra].
  apply fl_nonneg. pose proof (inject_Z_nonneg w Hw). nra.
Qed.

Lemma totalAt_full C w p :
  -1000 <= C -> C + w <= 1000 -> -1000 <= w <= 1000 -> (p == 1)%Q ->
  (totalAt C w p == inject_Z (C + w))%Q.
Proof.
  intros HC HCw Hw Hp. unfold totalAt.
  assert (E1 : (fl (inject_Z w * p) == inject_Z w)%Q).
  { rewrite (fl_comp _ (inject_Z w)) by (rewrite Hp; ring).
    apply is_double_small. lia. }
  rewrite (fl_comp _ (inject_Z (C + w))) by (rewrite E1, inject_Z_plus; reflexivity).
  apply is_double_small. lia.
Qed.

(** [progressAt] for a step that is a number. *)
Lemma progressAt_Index now last k :
  progressAt now last (Index k)
  = let i := Z.to_nat k in
    let C := sum_weights (take i stepWeights) in
    Qmin (Math_round
            match stepWeights !! i, stepDurations !! i with
            | Some w, Some d => totalAt C w (stepProgressAt (now - last) d)
            | _, _ => inject_Z C
            end) 100.
Proof. reflexivity. Qed.

Lemma progressAt_NaN now last : (progressAt now last NaN == 0)%Q.
Proof. vm_compute. reflexivity. Qed.

Lemma progressAt_le_100 now last k : (progressAt now last k <= 100)%Q.
Proof. destruct k; apply Q.le_min_r. Qed.

(** The result is a whole number. *)
Lemma progressAt_integer now last k :
  exists n : Z, (progressAt now last k == inject_Z n)%Q /\ n <= 100.
Proof.
  destruct k as [k|]; [|exists 0; split; [apply progressAt_NaN|lia]].
  rewrite progressAt_Index. cbn zeta.
  match goal with |- context [Math_round ?x] => set (t := x) end.
  destruct (Q.min_spec (Math_round t) 100) as [[Hlt E]|[Hge E]].
  - exists (Qfloor (t + (1 # 2))). split; [exact E|].
    unfold Math_round in Hlt. change 100%Q with (inject_Z 100) in Hlt.
    rewrite <- Zlt_Qlt in Hlt. lia.
  - exists 100. split; [exact E|lia].
Qed.

Lemma progressAt_mono now now' last k :
  now <= now' -> (progressAt now last k <= progressAt now' last k)%Q.
Proof.
  intros H. destruct k as [k|]; [|apply Qle_refl].
  rewrite !progressAt_Index. cbn zeta.
  set (i := Z.to_nat k).
  apply Q.min_glb; [|apply Q.le_min_r].
  eapply Qle_trans; [apply Q.le_min_l|]. apply Math_round_mono.
  destruct (stepWeights !! i) as [w|] eqn:Ew; [|apply Qle_refl].
  destruct (stepDurations !! i) as [d|] eqn:Ed; [|apply Qle_refl].
  apply totalAt_mono; [exact (stepWeights_nonneg i w Ew)|].
  apply stepProgress_mono; [exact (stepDurations_pos i d Ed)|lia].
Qed.

Lemma sum_weights_range i :
  0 <= sum_weights (take i stepWeights) <= 100.
Proof.
  do 7 (destruct i as [|i]; [cbn; lia|]). cbn. lia.
Qed.

Lemma progressAt_band now last k :
  0 <= k <= 5 -> last <= now ->
  let i := Z.to_nat k in
  (inject_Z (sum_weights (take i stepWeights)) <= progressAt now last (Index k)
   <= inject_Z (sum_weights (take (S i) stepWeights)))%Q.
Proof.
  intros Hk Ht i. rewrite progressAt_Index. cbn zeta. fold i.
  destruct (band_of_step i ltac:(lia)) as (w & d & Ew & Ed & Hw & Hd & Es & H100).
  rewrite Ew, Ed.
  pose proof (stepProgress_range (now - last) d Hd ltac:(lia)) as [Hp0 Hp1].
  pose proof (sum_weights_range i) as HC.
  set (C := sum_weights (take i stepWeights)) in *.
  pose proof (totalAt_ge C w _ Hw ltac:(lia) Hp0) as L.
  pose proof (totalAt_le C w _ Hw ltac:(lia) ltac:(lia) Hp1) as U.
  split.
  - apply Q.min_glb; [apply Math_round_ge, L|].
    change 100%Q with (inject_Z 100). rewrite <- Zle_Qle. lia.
  - eapply Qle_trans; [apply Q.le_min_l|]. rewrite Es. apply Math_round_le, U.
Qed.

Lemma progressAt_full now last k :
  0 <= k <= 5 ->
  let i := Z.to_nat k in
  (forall d, stepDurations !! i = Some d -> d * 1000 <= now - last) ->
  (progressAt now last (Index k)
   == inject_Z (sum_weights (take (S i) stepWeights)))%Q.
Proof.
  intros Hk i Hfull. rewrite progressAt_Index. cbn zeta. fold i.
  destruct (band_of_step i ltac:(lia)) as (w & d & Ew & Ed & Hw & Hd & Es & H100).
  rewrite Ew, Ed.
  pose proof (stepProgress_full (now - last) d Hd (Hfull d Ed)) as Hp.
  pose proof (sum_weights_range i) as HC.
  set (C := sum_weights (take i stepWeights)) in *.
  pose proof (totalAt_full C w _ ltac:(lia) ltac:(lia) ltac:(lia) Hp) as Et.
  rewrite Es.
  assert (Er : (Math_round (totalAt C w (stepProgressAt (now - last) d))
                == inject_Z (C + w))%Q).
  { apply Qle_antisym.
    - apply Math_round_le. rewrite Et. apply Qle_refl.
    - apply Math_round_ge. rewrite Et. apply Qle_refl. }
  apply Qle_antisym.
  - eapply Qle_trans; [apply Q.le_min_l|]. rewrite Er. apply Qle_refl.
  - apply Q.min_glb; [rewrite Er; apply Qle_refl|].
    change 100%Q with (inject_Z 100). rewrite <- Zle_Qle. lia.
Qed.

Lemma progressAt_below_last now last k :
  0 <= k < 5 -> (progressAt now last (Index k) <= 90)%Q.
Proof.
  intros Hk. rewrite progressAt_Index. cbn zeta.
  set (i := Z.to_nat k).
  assert (Hi : (i <= 4)%nat) by lia.
  eapply Qle_trans; [apply Q.le_min_l|].
  change 90%Q with (inject_Z 90). apply Math_round_le.
  destruct (band_of_step i ltac:(lia)) as (w & d & Ew & Ed & Hw & Hd & Es & _).
  rewrite Ew, Ed.
  pose proof (sum_weights_range i) as HC.
  assert (Hs : sum_weights (take (S i) stepWeights) <= 90).
  { clear -Hi. do 5 (destruct i as [|i]; [cbn; lia|]). lia. }
  eapply Qle_trans;
    [apply totalAt_le; [exact Hw|lia|lia|apply stepProgress_le_1]|].
  rewrite <- Zle_Qle. lia.
Qed.

Lemma progress_value now c :
  fst (progress now c)
  = progressAt now (c_lastProgressUpdate c) (fst (currentStep c)).
Proof. unfold progress. destruct (currentStep c). reflexivity. Qed.

(** The value of [calculateProgress] in terms of the returned step. *)
Lemma calculateProgress_value now s :
  fst (calculateProgress now s)
  = progressAt now (lastProgressUpdate s) (fst (getCurrentStep s)).
Proof.
  unfold calculateProgress, getCurrentStep, progress.
  destruct (currentStep (closure s)). reflexivity.
Qed.

Lemma calculateProgress_le_100 now s : (fst (calculateProgress now s) <= 100)%Q.
Proof. rewrite calculateProgress_value. apply progressAt_le_100. Qed.

Lemma calculateProgress_target now s :
  targetProgress (snd (calculateProgress now s)) = targetProgress s.
Proof.
  rewrite calculateProgress_state.
  exact (getCurrentStep_frame s CTarget eq_refl).
Qed.

(** A recomputed progress above a target that is not negative is a double. *)
Lemma progressAt_double now last k t :
  (0 <= t)%Q -> (t < progressAt now last k)%Q ->
  is_double (progressAt now last k).
Proof.
  intros H0 Hlt. destruct (progressAt_integer now last k) as (n & E & Hn).
  rewrite E in Hlt |- *. apply is_double_small.
  assert (H : (inject_Z 0 < inject_Z n)%Q) by (change (inject_Z 0) with 0%Q; lra).
  rewrite <- Zlt_Qlt in H. lia.
Qed.

(** *** The target never moves back *)

Lemma grows_refl s : grows s s.
Proof. intros H. split; [apply Qle_refl|exact H]. Qed.

Lemma grows_trans s1 s2 s3 : grows s1 s2 -> grows s2 s3 -> grows s1 s3.
Proof.
  intros G1 G2 H. destruct (G1 H) as [L1 B1]. destruct (G2 B1) as [L2 B2].
  split; [eapply Qle_trans; eauto|exact B2].
Qed.

Lemma frame_grows cs s s' :
  writes cs CTarget = false -> frame cs s s' -> grows s s'.
Proof.
  intros Hc F H. specialize (F CTarget Hc). cbn [agree] in F.
  unfold target_ok. rewrite F. split; [apply Qle_refl|exact H].
Qed.

Lemma progressEffect_grows now s : grows s (progressEffect now s).
Proof.
  intros [[H0 H100] Hd]. unfold progressEffect.
  pose proof (calculateProgress_le_100 now s) as B.
  pose proof (calculateProgress_target now s) as E.
  pose proof (calculateProgress_value now s) as V.
  destruct (calculateProgress now s) as [newProgress s1]. cbn [fst snd] in *.
  unfold target_ok.
  destruct (Qlt_le_dec _ _) as [Hlt|Hge]; cbn [targetProgress setTargetProgress].
  - split; [apply Qlt_le_weak, Hlt|]. split; [split; [lra|exact B]|].
    rewrite V in Hlt |- *. exact (progressAt_double _ _ _ _ H0 Hlt).
  - rewrite E. split; [apply Qle_refl|]. split; [split|]; assumption.
Qed.

Lemma continuousEffect_target s :
  targetProgress (continuousEffect s)
  = if String.eqb (status s) "completed" then 100%Q else targetProgress s.
Proof. unfold continuousEffect. destruct (String.eqb _ _); reflexivity. Qed.

Lemma continuousEffect_grows s : grows s (continuousEffect s).
Proof.
  intros [[H0 H100] Hd]. unfold target_ok. rewrite continuousEffect_target.
  destruct (String.eqb _ _).
  - split; [exact H100|]. split; [split; discriminate|].
    exact (is_double_small 100 ltac:(lia)).
  - split; [apply Qle_refl|]. split; [split|]; assumption.
Qed.

Lemma fallbackIncrement_range : (1 # 4 <= fallbackIncrement <= 1 # 2)%Q.
Proof. split; vm_compute; discriminate. Qed.

(** The two branches of the interval callback, on the target. *)
Lemma progressInterval_target now c s :
  reaches (rawStep (c_status c) (c_message c)) (c_highestStepReached c) ->
  let newProgress := fst (progress now c) in
  targetProgress (progressInterval now c s)
  = if Qlt_le_dec (c_targetProgress c) newProgress
    then Qmin (fl (targetProgress s + 1)) newProgress
    else if Qltb (c_targetProgress c) 99
            && negb (String.eqb (c_status c) "failed")
         then Qmin (fl (targetProgress s + fallbackIncrement)) 99
         else targetProgress s.
Proof.
  intros H. cbn zeta. unfold progressInterval.
  pose proof (progress_queued now c) as E. rewrite (currentStep_settled c H) in E.
  destruct (progress now c) as [newProgress w]. cbn [fst snd] in *. subst w.
  cbn [queued].
  destruct (Qlt_le_dec _ _); [reflexivity|].
  destruct (_ && _); reflexivity.
Qed.

Lemma progressInterval_grows now c s :
  reaches (rawStep (c_status c) (c_message c)) (c_highestStepReached c) ->
  (c_targetProgress c == targetProgress s)%Q ->
  grows s (progressInterval now c s).
Proof.
  intros Hr Et [[H0 H100] Hd]. unfold target_ok.
  rewrite (progressInterval_target now c s Hr). cbn zeta.
  pose proof (progress_value now c) as V.
  set (np := fst (progress now c)) in *.
  assert (B : (np <= 100)%Q) by (rewrite V; apply progressAt_le_100).
  destruct (Qlt_le_dec (c_targetProgress c) np) as [Hlt|Hge].
  - assert (Dn : is_double np).
    { rewrite V in Hlt |- *. apply (progressAt_double _ _ _ (targetProgress s)); lra. }
    assert (L : (targetProgress s <= fl (targetProgress s + 1))%Q)
      by (apply fl_ge_double; [exact Hd|lra]).
    split; [apply Q.min_glb; lra|].
    split; [split|].
    + eapply Qle_trans; [exact H0|]. apply Q.min_glb; lra.
    + eapply Qle_trans; [apply Q.le_min_r|exact B].
    + apply is_double_min; [apply is_double_fl|exact Dn].
  - destruct (Qltb (c_targetProgress c) 99 && negb (String.eqb (c_status c) "failed"))
      eqn:D.
    + apply andb_true_iff in D as [D _]. unfold Qltb in D.
      destruct (Qlt_le_dec (c_targetProgress c) 99) as [H99|]; [|discriminate].
      pose proof fallbackIncrement_range as [F1 F2].
      assert (L : (targetProgress s <= fl (targetProgress s + fallbackIncrement))%Q)
        by (apply fl_ge_double; [exact Hd|lra]).
      split; [apply Q.min_glb; lra|].
      split; [split|].
      * eapply Qle_trans; [exact H0|]. apply Q.min_glb; lra.
      * eapply Qle_trans; [apply Q.le_min_r|discriminate].
      * apply is_double_min; [apply is_double_fl|].
        exact (is_double_small 99 ltac:(lia)).
    + split; [apply Qle_refl|]. split; [split|]; assumption.
Qed.

Lemma commit_grows prev now s : grows s (commit prev now s).
Proof.
  apply (commit_rule (grows s)).
  - apply grows_refl.
  - intros x G. eapply grows_trans; [exact G|].
    eapply frame_grows; [|apply render_frame]; reflexivity.
  - intros x G. eapply grows_trans; [exact G|apply progressEffect_grows].
  - intros x G. eapply grows_trans; [exact G|apply continuousEffect_grows].
  - intros x G. eapply grows_trans; [exact G|].
    eapply frame_grows; [|apply smoothEffect_frame]; reflexivity.
Qed.

Lemma interval_ok_target s c :
  interval_ok s -> interval s = Some c ->
  (c_targetProgress c == targetProgress s)%Q.
Proof. unfold interval_ok. intros H E. rewrite E in H. tauto. Qed.

Lemma step_grows docId s e : interval_ok s -> grows s (step docId s e).
Proof.
  intros K. destruct e as [dt now r|dt now|t]; cbn [step].
  - assert (G0 : grows s (advance dt s)) by exact (grows_refl s).
    destruct (pollPending (advance dt s)); [|exact G0].
    eapply grows_trans; [|apply commit_grows].
    eapply grows_trans; [exact G0|].
    eapply frame_grows; [|apply checkStatus_frame]; reflexivity.
  - assert (G0 : grows s (advance dt s)) by exact (grows_refl s).
    destruct (interval (advance dt s)) as [c|] eqn:E; [|exact G0].
    eapply grows_trans; [|apply commit_grows].
    eapply grows_trans; [exact G0|].
    apply progressInterval_grows.
    + exact (interval_ok_settled (advance dt s) c K E).
    + exact (interval_ok_target (advance dt s) c K E).
  - eapply grows_trans.
    + eapply frame_grows; [|apply (elapse_frame t s)]; reflexivity.
    + eapply frame_grows; [|apply animate_frame]; reflexivity.
Qed.

Lemma run_grows docId evs s : steady s -> grows s (run docId s evs).
Proof.
  revert s. induction evs as [|e evs IH]; intros s K; cbn.
  - apply grows_refl.
  - eapply grows_trans; [apply step_grows, K|apply IH, step_steady, K].
Qed.

Lemma initial_target_ok p0 now : target_ok (initial p0 now).
Proof.
  split; [split; cbn; discriminate|]. exact (is_double_small 0 ltac:(lia)).
Qed.

Lemma mount_grows p0 now : grows (initial p0 now) (mount p0 now).
Proof.
  unfold mount.
  eapply grows_trans; [eapply frame_grows; [|apply render_frame]; reflexivity|].
  set (s1 := render (initial p0 now)).
  eapply grows_trans;
    [eapply frame_grows; [|apply (smoothEffect_frame s1)]; reflexivity|].
  set (s2 := smoothEffect s1).
  eapply grows_trans;
    [eapply frame_grows; [|apply (schedule_frame [PollAfter 1000] true s2)];
     reflexivity|].
  set (s3 := schedule [PollAfter 1000] true s2).
  eapply grows_trans; [apply progressEffect_grows|].
  eapply grows_trans; [apply continuousEffect_grows|apply commit_grows].
Qed.

Lemma mount_target_ok p0 now : target_ok (mount p0 now).
Proof. exact (proj2 (mount_grows p0 now (initial_target_ok p0 now))). Qed.

Lemma run_target_ok docId p0 now evs :
  target_ok (run docId (mount p0 now) evs).
Proof.
  exact (proj2 (run_grows docId evs (mount p0 now) (mount_steady p0 now)
                  (mount_target_ok p0 now))).
Qed.

Lemma target_le_100 docId p0 now evs :
  (targetProgress (run docId (mount p0 now) evs) <= 100)%Q.
Proof. exact (proj2 (proj1 (run_target_ok docId p0 now evs))). Qed.

(** C1. [targetProgress] never decreases.  The mount does not lower the
    initial 0; in a state reached from the mount by any polls, ticks and
    frames, no single event (a poll response with its recompute and its
    [completed] transition, a 600ms tick, an animation frame) lowers it, and
    so no further sequence of events does. *)
Theorem targetProgress_non_decreasing docId p0 now evs :
  let s := run docId (mount p0 now) evs in
  (targetProgress (initial p0 now) <= targetProgress (mount p0 now))%Q /\
  (forall e, (targetProgress s <= targetProgress (step docId s e))%Q) /\
  (forall evs', (targetProgress s <= targetProgress (run docId s evs'))%Q).
Proof.
  intros s.
  pose proof (run_target_ok docId p0 now evs) as Hs. fold s in Hs.
  pose proof (run_steady docId p0 now evs) as Ks. fold s in Ks.
  split; [apply (mount_grows p0 now (initial_target_ok p0 now))|]. split.
  - intros e. apply (step_grows docId s e (proj2 (proj2 (proj2 Ks))) Hs).
  - intros evs'. apply (run_grows docId evs' s Ks Hs).
Qed.

(** *** [completed] fills the bar *)

Lemma commit_target prev now s :
  targetProgress (commit prev now s) = targetProgress (screenEffects prev now s).
Proof.
  unfold commit. destruct (changedQ _ _ _); [|reflexivity].
  exact (smoothEffect_frame _ CTarget eq_refl).
Qed.

Lemma continuousEffect_completed s :
  status s = "completed" -> targetProgress (continuousEffect s) = 100%Q.
Proof. intros E. rewrite continuousEffect_target, E. reflexivity. Qed.

Lemma continuousEffect_other s :
  status s <> "completed" ->
  targetProgress (continuousEffect s) = targetProgress s.
Proof.
  intros E. rewrite continuousEffect_target.
  destruct (String.eqb_spec (status s) "completed"); [contradiction|reflexivity].
Qed.

Lemma screenEffects_completed prev now s :
  target_ok s -> status s = "completed" ->
  (status prev = "completed" -> (targetProgress s == 100)%Q) ->
  (targetProgress (screenEffects prev now s) == 100)%Q.
Proof.
  intros Hok Es Hprev. unfold screenEffects.
  pose proof (render_frame s) as F1. set (s1 := render s) in *.
  assert (Hok1 : target_ok s1)
    by (unfold target_ok; rewrite (F1 CTarget eq_refl); exact Hok).
  match goal with |- context [progressEffect now s1] =>
    set (s2 := if changedS status prev s1 || changedS message prev s1
               then progressEffect now s1 else s1) end.
  assert (E2 : status s2 = "completed").
  { subst s2. destruct (_ || _).
    - rewrite (progressEffect_frame now s1 CStatus eq_refl).
      rewrite (F1 CStatus eq_refl). exact Es.
    - rewrite (F1 CStatus eq_refl). exact Es. }
  destruct (changedS status prev s2) eqn:C; cbn [orb].
  - rewrite (continuousEffect_completed s2 E2). reflexivity.
  - assert (Ep : status prev = "completed").
    { apply changedS_false in C. congruence. }
    specialize (Hprev Ep).
    assert (H1 : (targetProgress s1 == 100)%Q)
      by (rewrite (F1 CTarget eq_refl); exact Hprev).
    assert (H2 : (targetProgress s2 == 100)%Q).
    { subst s2. destruct (_ || _); [|exact H1].
      destruct (progressEffect_grows now s1 Hok1) as [L [[_ U] _]].
      apply Qle_antisym; [exact U|]. rewrite <- H1. exact L. }
    match goal with
    | |- context [if ?c then continuousEffect _ else _] => destruct c
    end; [|exact H2].
    rewrite (continuousEffect_completed s2 E2). reflexivity.
Qed.

Lemma step_completed_full docId s e :
  steady s -> target_ok s -> completed_full s -> completed_full (step docId s e).
Proof.
  intros K Hok J. destruct e as [dt now r|dt now|t]; cbn [step].
  - assert (J0 : completed_full (advance dt s)) by exact J.
    assert (Hok0 : target_ok (advance dt s)) by exact Hok.
    set (s0 := advance dt s) in *.
    destruct (pollPending s0); [|exact J0].
    intros E. rewrite commit_target.
    rewrite (commit_frame s0 now _ CStatus eq_refl) in E.
    apply screenEffects_completed; [|exact E|].
    + unfold target_ok. rewrite (checkStatus_frame docId r s0 CTarget eq_refl).
      exact Hok0.
    + intros Ep. rewrite (checkStatus_frame docId r s0 CTarget eq_refl).
      exact (J0 Ep).
  - assert (J0 : completed_full (advance dt s)) by exact J.
    assert (Ki : interval_ok (advance dt s)) by exact (proj2 (proj2 (proj2 K))).
    set (s0 := advance dt s) in *.
    destruct (interval s0) as [c|] eqn:Ei; [|exact J0].
    intros E. exfalso.
    rewrite (commit_frame s0 now _ CStatus eq_refl) in E.
    rewrite (progressInterval_frame now c s0 CStatus eq_refl) in E.
    unfold interval_ok in Ki. rewrite Ei in Ki. tauto.
  - intros E.
    rewrite (animate_frame _ (elapse t s) CStatus eq_refl) in E.
    rewrite (animate_frame _ (elapse t s) CTarget eq_refl).
    exact (J E).
Qed.

Lemma run_completed_full docId p0 now evs :
  completed_full (run docId (mount p0 now) evs).
Proof.
  assert (H : steady (run docId (mount p0 now) evs) /\
              target_ok (run docId (mount p0 now) evs) /\
              completed_full (run docId (mount p0 now) evs)).
  { apply (run_rule (fun s => steady s /\ target_ok s /\ completed_full s)).
    - intros s e (K & Hok & J). split; [apply step_steady, K|].
      split; [exact (proj2 (step_grows docId s e (proj2 (proj2 (proj2 K))) Hok))|].
      apply step_completed_full; assumption.
    - split; [apply mount_steady|]. split; [apply mount_target_ok|].
      intros E. rewrite mount_status in E. discriminate E. }
  exact (proj2 (proj2 H)).
Qed.

(** With the error screen up and no dependency changed, a commit runs no
    effect. *)
Lemma commit_idle prev now s :
  error s <> None ->
  status s = status prev -> message s = message prev ->
  targetProgress s = targetProgress prev ->
  lastProgressUpdate s = lastProgressUpdate prev ->
  commit prev now s = s.
Proof.
  intros He Es Em Et El. unfold commit, screenEffects, render.
  destruct (error s); [|contradiction].
  rewrite (changedS_same status prev s), (changedS_same message prev s)
    by congruence.
  cbn [orb].
  rewrite (changedS_same status prev s) by congruence.
  rewrite (changedQ_same targetProgress prev s) by congruence.
  rewrite (changedZ_same lastProgressUpdate prev s) by congruence.
  cbn [orb].
  rewrite (changedQ_same targetProgress prev s) by congruence.
  reflexivity.
Qed.


(** C3. The terminal transitions of the poll handler.  In a state reached
    from the mount with a poll pending, a response is handled as follows.
    One status request has been issued for it.  On [completed] the only
    timer registered is the navigation to the document view after 2000ms,
    which is then the one navigation of the session, [targetProgress] is
    100, and no poll is pending.  On [failed] or [error] the error is set,
    no timer is registered, no navigation exists and no poll is pending.  On
    any other status the next poll is registered after 2000ms.  And once no
    poll is pending, no later event issues a request or registers a timer. *)
Theorem poll_response_transitions docId p0 now0 evs dt now sd :
  let s := run docId (mount p0 now0) evs in
  pollPending s = true ->
  let s' := step docId s (PollResponse dt now (Some sd)) in
  statusRequests s' = S (statusRequests s) /\
  (sd_status sd = "completed" ->
     timers s' = (timers s ++ [NavigateAfter 2000 ("/document/" ++ docId)])%list /\
     navigations s' = 1%nat /\
     (targetProgress s' == 100)%Q /\
     pollPending s' = false /\ error s' = error s) /\
  (sd_status sd = "failed" \/ sd_status sd = "error" ->
     error s' = Some (or_else (sd_message sd) processing_failed) /\
     timers s' = timers s /\ navigations s' = 0%nat /\
     pollPending s' = false) /\
  (sd_status sd <> "completed" -> sd_status sd <> "failed" ->
   sd_status sd <> "error" ->
     timers s' = (timers s ++ [PollAfter 2000])%list /\ navigations s' = 0%nat /\
     pollPending s' = true /\ error s' = error s) /\
  (pollPending s' = false ->
   forall evs', statusRequests (run docId s' evs') = statusRequests s' /\
                timers (run docId s' evs') = timers s' /\
                navigations (run docId s' evs') = navigations s').
Proof.
  intros s Hp s'.
  pose proof (run_polling_ok docId p0 now0 evs Hp) as K. fold s in K.
  pose proof (run_completed_full docId p0 now0 evs) as J. fold s in J.
  pose proof (run_target_ok docId p0 now0 evs) as Hok. fold s in Hok.
  set (s0 := advance dt s).
  set (c := checkStatus docId (Some sd) s0).
  assert (Es' : s' = commit s0 now c).
  { subst s'. cbn [step]. fold s0. 
    change (pollPending s0) with (pollPending s). rewrite Hp. reflexivity. }
  pose proof (commit_frame s0 now c) as F. rewrite <- Es' in F.
  assert (N : navigations s' = navigations c)
    by exact (navigations_frame _ _ _ F eq_refl).
  rewrite (F CRequests eq_refl), (F CTimers eq_refl), (F CPoll eq_refl),
    (F CError eq_refl), N.
  split; [exact (checkStatus_requests docId (Some sd) s0)|].
  split; [|split; [|split]].
  - intros E. subst c. rewrite (checkStatus_completed docId sd s0 E).
    rewrite navigations_app.
    split; [reflexivity|].
    split; [change (navigations (setMessage _ _)) with (navigations s);
            rewrite K; reflexivity|].
    split; [|split; reflexivity].
    rewrite Es', commit_target. apply screenEffects_completed.
    + rewrite (checkStatus_completed docId sd s0 E). exact Hok.
    + rewrite (checkStatus_completed docId sd s0 E). reflexivity.
    + intros E0. rewrite (checkStatus_completed docId sd s0 E). exact (J E0).
  - intros E. subst c. rewrite (checkStatus_failed docId sd s0 E).
    rewrite navigations_app.
    split; [reflexivity|]. split; [cbn; apply app_nil_r|].
    split; [change (navigations (setError _ _)) with (navigations s);
            rewrite K; reflexivity|reflexivity].
  - intros E1 E2 E3. subst c. rewrite (checkStatus_continue docId sd s0 E1 E2 E3).
    rewrite navigations_app.
    split; [reflexivity|].
    split; [change (navigations (setMessage _ _)) with (navigations s);
            rewrite K; reflexivity|].
    split; reflexivity.
  - intros Hstop evs'. rewrite <- (F CPoll eq_refl) in Hstop.
    pose proof (run_stopped docId evs' s' Hstop) as G.
    rewrite (G CRequests eq_refl), (G CTimers eq_refl).
    rewrite (navigations_frame _ _ _ G eq_refl).
    split; [exact (F CRequests eq_refl)|]. split; [exact (F CTimers eq_refl)|exact N].
Qed.

Lemma poll_response_transitions_witness :
  let s := run "doc" (mount 0 0) [] in
  statusRequests
    (step "doc" s
       (PollResponse 0 1000
          (Some {| sd_status := "completed"; sd_message := None |})))
  = S (statusRequests s).
Proof.
  refine (proj1 (poll_response_transitions "doc" 0 0 [] 0 1000
                   {| sd_status := "completed"; sd_message := None |} _)).
  vm_compute. reflexivity.
Defined.

(** X1. In every state reached from the mount, a status poll is pending
    exactly while no error is shown and the status is none of [completed],
    [failed] and [error]; a navigation has been scheduled exactly when the
    status is [completed], and never more than one. *)
Theorem polling_session_shape docId p0 now evs :
  let s := run docId (mount p0 now) evs in
  (pollPending s = true <-> error s = None /\ nonterminal (status s)) /\
  (navigations s = 1%nat <-> status s = "completed") /\
  (navigations s <= 1)%nat.
Proof.
  intros s. destruct (run_session_ok docId p0 now evs) as [Hiff Hnav].
  fold s in Hiff, Hnav. split; [exact Hiff|]. rewrite Hnav.
  destruct (String.eqb_spec (status s) "completed") as [E|N].
  - split; [tauto|lia].
  - split; [|lia]. split; [discriminate|contradiction].
Qed.

(** X2. A status request that throws, in a state reached from the mount with
    a poll pending: the generic error is set, no timer is registered and no
    poll is pending any more; the status, the message, the target, the
    ratchet and the shown percentage are left as they were; and no later
    event issues a request, registers a timer or clears the error. *)
Theorem request_failure_halts docId p0 now0 evs dt now :
  let s := run docId (mount p0 now0) evs in
  pollPending s = true ->
  let s' := step docId s (PollResponse dt now None) in
  error s' = Some checkStatus_error /\
  pollPending s' = false /\
  statusRequests s' = S (statusRequests s) /\
  timers s' = timers s /\
  (status s' = status s /\ message s' = message s /\
   targetProgress s' = targetProgress s /\
   highestStepReached s' = highestStepReached s /\
   smoothProgress s' = smoothProgress s) /\
  forall evs',
    statusRequests (run docId s' evs') = statusRequests s' /\
    timers (run docId s' evs') = timers s' /\
    error (run docId s' evs') = Some checkStatus_error.
Proof.
  intros s Hp s'.
  set (s0 := advance dt s).
  set (c := checkStatus docId None s0).
  assert (Es' : s' = c).
  { subst s'. cbn [step]. fold s0.
    change (pollPending s0) with (pollPending s). rewrite Hp.
    apply commit_idle; try reflexivity. discriminate. }
  rewrite Es'. subst c s0. unfold checkStatus.
  split; [reflexivity|]. split; [reflexivity|]. split; [reflexivity|].
  split; [cbn; apply app_nil_r|]. split; [repeat split|].
  intros evs'.
  match goal with |- context [run docId ?x evs'] =>
    pose proof (run_stopped docId evs' x eq_refl) as G end.
  rewrite (G CRequests eq_refl), (G CTimers eq_refl), (G CError eq_refl).
  repeat split.
Qed.

Lemma request_failure_halts_witness :
  let s := run "doc" (mount 0 0) [] in
  error (step "doc" s (PollResponse 0 1000 None)) = Some checkStatus_error.
Proof.
  refine (proj1 (request_failure_halts "doc" 0 0 [] 0 1000 _)).
  vm_compute. reflexivity.
Defined.


(** *** The 600ms tick *)

(** Rounding moves a value between 0 and 1000 by less than a billionth. *)
Lemma fl_near x :
  (0 <= x <= 1000)%Q ->
  (x - (1 # 1000000000) <= fl x <= x + (1 # 1000000000))%Q.
Proof.
  intros [H0 H1]. pose proof (fl_error_nonneg x H0) as [L U].
  assert (B : (x * (1 # 2 ^ 53) <= 1 # 1000000000)%Q).
  { apply Qle_trans with (1000 * (1 # 2 ^ 53))%Q.
    - apply Qmult_le_compat_r; [exact H1|discriminate].
    - vm_compute. discriminate. }
  split; lra.
Qed.

(** A commit in which neither [status] nor [message] changed and the status
    is not [completed] leaves the target as the handler set it. *)
Lemma commit_target_quiet prev now s :
  status s = status prev -> message s = message prev ->
  status s <> "completed" ->
  targetProgress (commit prev now s) = targetProgress s.
Proof.
  intros Es Em Hc. rewrite commit_target. unfold screenEffects.
  pose proof (render_frame s) as F1. set (s1 := render s) in *.
  rewrite (changedS_same status prev s1), (changedS_same message prev s1);
    [|rewrite (F1 CMessage eq_refl); auto|rewrite (F1 CStatus eq_refl); auto].
  cbn [orb].
  assert (H1 : status s1 <> "completed") by (rewrite (F1 CStatus eq_refl); exact Hc).
  match goal with |- context [if ?c then _ else _] => destruct c end;
    [rewrite (continuousEffect_other s1 H1)|]; exact (F1 CTarget eq_refl).
Qed.

Lemma step_tick_target docId s dt now c :
  interval s = Some c -> status s <> "completed" ->
  targetProgress (step docId s (IntervalTick dt now))
  = targetProgress (progressInterval now c (advance dt s)).
Proof.
  intros Ei Hc. cbn [step]. set (s0 := advance dt s).
  change (interval s0) with (interval s). rewrite Ei.
  pose proof (progressInterval_frame now c s0) as F.
  apply commit_target_quiet.
  - exact (F CStatus eq_refl).
  - exact (F CMessage eq_refl).
  - rewrite (F CStatus eq_refl). exact Hc.
Qed.

(** C6, as the code has it.  In a state reached from the mount with
    [targetProgress] below 99 and a status other than [failed], the interval
    is running, and its callback holds the status, the target and the time
    of the last progress update of the current render (the dependencies of
    its effect), with the message and the ratchet of the render that
    installed it.  A 600ms tick then strictly increases [targetProgress],
    to no more than the double next to [target + 1]: when the progress the
    callback recomputes is not above the target, the target becomes
    [min (target + 0.3) 99] (the fallback), and when it is above, the target
    becomes [min (target + 1) recomputed]; both sums are sums of doubles. *)
Theorem tick_moves_target docId p0 now0 evs dt now :
  let s := run docId (mount p0 now0) evs in
  (targetProgress s < 99)%Q -> status s <> "failed" ->
  let s' := step docId s (IntervalTick dt now) in
  exists c,
    interval s = Some c /\
    c_status c = status s /\
    (c_targetProgress c == targetProgress s)%Q /\
    c_lastProgressUpdate c = lastProgressUpdate s /\
    let newProgress := fst (progress now c) in
    (targetProgress s < targetProgress s')%Q /\
    (targetProgress s' <= fl (targetProgress s + 1))%Q /\
    ((newProgress <= targetProgress s)%Q ->
       targetProgress s'
       = Qmin (fl (targetProgress s + fallbackIncrement)) 99) /\
    ((targetProgress s < newProgress)%Q ->
       targetProgress s' = Qmin (fl (targetProgress s + 1)) newProgress).
Proof.
  intros s H99 Hf s'.
  pose proof (run_completed_full docId p0 now0 evs) as J. fold s in J.
  pose proof (run_steady docId p0 now0 evs) as K. fold s in K.
  pose proof (run_target_ok docId p0 now0 evs) as [[H0 _] Hd]. fold s in H0, Hd.
  assert (Hc : status s <> "completed").
  { intros E. specialize (J E). rewrite J in H99. revert H99. apply Qle_not_lt.
    discriminate. }
  destruct K as (_ & _ & _ & Ki).
  pose proof Ki as Ki'. unfold interval_ok in Ki'.
  destruct (interval s) as [c|] eqn:Ei; [|contradiction].
  destruct Ki' as (_ & Es & Et & El & Hr & _).
  exists c. split; [reflexivity|]. split; [exact Es|]. split; [exact Et|].
  split; [exact El|]. cbn zeta.
  set (newProgress := fst (progress now c)).
  assert (E : targetProgress s'
              = if Qlt_le_dec (targetProgress s) newProgress
                then Qmin (fl (targetProgress s + 1)) newProgress
                else Qmin (fl (targetProgress s + fallbackIncrement)) 99).
  { subst s'. rewrite (step_tick_target docId s dt now c Ei Hc).
    rewrite (progressInterval_target now c _ Hr). cbn zeta. fold newProgress.
    change (targetProgress (advance dt s)) with (targetProgress s).
    destruct (Qlt_le_dec (c_targetProgress c) newProgress) as [L1|L1];
      destruct (Qlt_le_dec (targetProgress s) newProgress) as [L2|L2];
      try reflexivity; try (exfalso; lra).
    unfold Qltb. destruct (Qlt_le_dec (c_targetProgress c) 99) as [_|Hge];
      [|exfalso; lra].
    rewrite Es.
    destruct (String.eqb_spec (status s) "failed"); [contradiction|reflexivity]. }
  rewrite E. clear E.
  pose proof fallbackIncrement_range as [F1 F2].
  pose proof (fl_near (targetProgress s + 1) ltac:(lra)) as [N1 _].
  pose proof (fl_near (targetProgress s + fallbackIncrement) ltac:(lra)) as [N2 _].
  assert (M : (fl (targetProgress s + fallbackIncrement)
               <= fl (targetProgress s + 1))%Q) by (apply fl_mono; lra).
  destruct (Qlt_le_dec (targetProgress s) newProgress) as [Hlt|Hge].
  - split; [apply Q.min_glb_lt; lra|].
    split; [apply Q.le_min_l|].
    split; [intros Hle; exfalso; apply (Qle_not_lt _ _ Hle Hlt)|reflexivity].
  - split; [apply Q.min_glb_lt; lra|].
    split; [eapply Qle_trans; [apply Q.le_min_l|exact M]|].
    split; [reflexivity|intros Hlt; exfalso; apply (Qle_not_lt _ _ Hge Hlt)].
Qed.

Lemma tick_moves_target_witness :
  let s := run "doc" (mount 0 0) [] in
  exists c, interval s = Some c /\
    (targetProgress s
     < targetProgress (step "doc" s (IntervalTick 600000 600)))%Q.
Proof.
  destruct (tick_moves_target "doc" 0 0 [] 600000 600) as (c & Ei & _ & _ & _ & H & _).
  - vm_compute. reflexivity.
  - vm_compute. discriminate.
  - exists c. split; [exact Ei|exact H].
Defined.

(** C6 as stated fails: after the poll that reports the deep analysis the
    target is 41; a tick twelve seconds later finds the recomputed progress
    at 50 and moves the target by 1, not by 0.3. *)
Lemma tick_increment_counterexample :
  let t0 := 1700000000000 in
  let s := run "doc" (mount 0 t0)
             [PollResponse 1000000 (t0 + 1000)
                (Some {| sd_status := "processing";
                         sd_message := Some "Performing deep analysis..." |})] in
  let s' := step "doc" s (IntervalTick 12000000 (t0 + 13000)) in
  (targetProgress s < 99)%Q /\ status s <> "failed" /\
  (targetProgress s' - targetProgress s == 1)%Q /\
  ~ (Qabs (targetProgress s' - targetProgress s - (3 # 10)) <= 1 # 2)%Q.
Proof.
  cbn zeta. split; [vm_compute; reflexivity|].
  split; [vm_compute; discriminate|].
  split; [vm_compute; reflexivity|].
  vm_compute. intros H. apply H. reflexivity.
Qed.


(** *** The smooth-progress animation *)

Lemma millis_mono t t' : (t <= t')%N -> (millis t <= millis t')%Q.
Proof. intros H. unfold millis. apply fl_mono. unfold Qle. cbn. lia. Qed.

Lemma performance_now_advance dt s :
  (performance_now s <= performance_now (advance dt s))%Q.
Proof. apply millis_mono. cbn. lia. Qed.

Lemma performance_now_elapse t s :
  (performance_now s <= performance_now (elapse t s))%Q.
Proof. apply millis_mono. cbn. lia. Qed.

Lemma fl_pos_inv x : (0 < fl x)%Q -> (0 < x)%Q.
Proof.
  intros H. destruct (Qlt_le_dec 0 x) as [P|L]; [exact P|]. exfalso.
  pose proof (fl_mono x 0 L) as M. change (fl 0) with 0%Q in M. lra.
Qed.

Lemma Qfloor_nonneg x : (0 <= x)%Q -> 0 <= Qfloor x.
Proof. intros H. apply (Qfloor_resp_le 0 x H). Qed.






(** *** The loop of the hook against the target *)

Lemma smoothEffect_smooth_ok s :
  (smoothProgress s <= targetProgress s)%Q -> is_double (smoothProgress s) ->
  smooth_ok (smoothEffect s).
Proof.
  intros H Hd. unfold smooth_ok, smoothEffect.
  destruct (Qlt_le_dec _ _) as [Hlt|Hge]; cbn.
  - split; [exact H|]. split; [exact Hd|]. split; [reflexivity|].
    split; [apply fl_pos_inv in Hlt; lra|exact Hd].
  - split; [exact H|]. split; [exact Hd|].
    destruct (Qlt_le_dec 0 (targetProgress s - smoothProgress s)) as [P|N];
      [apply fl_sign_pos in P; lra|lra].
Qed.

(** A handler and the effects of the screen leave the hook's cells alone;
    the hook's effect then restarts the loop if the target moved. *)
Lemma commit_smooth_ok prev now s :
  smooth_ok prev ->
  smoothProgress s = smoothProgress prev -> animation s = animation prev ->
  (targetProgress prev <= targetProgress (screenEffects prev now s))%Q ->
  smooth_ok (commit prev now s).
Proof.
  intros (Hle & Hd & Ha) Es Ea Hup. unfold commit.
  pose proof (screenEffects_frame prev now s) as F.
  set (s3 := screenEffects prev now s) in *.
  assert (Es3 : smoothProgress s3 = smoothProgress prev)
    by (rewrite (F CSmooth eq_refl); exact Es).
  assert (Ea3 : animation s3 = animation prev)
    by (rewrite (F CAnimation eq_refl); exact Ea).
  destruct (changedQ targetProgress prev s3) eqn:C.
  - apply smoothEffect_smooth_ok; rewrite Es3; [lra|exact Hd].
  - apply changedQ_false in C.
    unfold smooth_ok. rewrite Es3, Ea3. split; [lra|]. split; [exact Hd|].
    destruct (animation prev) as [a|]; [|lra].
    destruct Ha as (? & ? & ?). repeat split; try assumption. lra.
Qed.

(** The value [animate] writes, unless it is the start of the loop. *)
Lemma animate_smooth t s a :
  animation s = Some a ->
  smoothProgress (animate t s)
  = if Qeq_bool (animationValue a t) (startProgress a)
    then smoothProgress s else animationValue a t.
Proof.
  intros Ea. unfold animate. rewrite Ea.
  change (Qmin (fl (startProgress a
                    + inject_Z
                        (Qfloor
                           (fl (fl (t - animStart a)
                                / fl (smoothDuration
                                      / fl (endProgress a - startProgress a)))))))
               (endProgress a))
    with (animationValue a t).
  destruct (Qeq_bool (animationValue a t) (startProgress a));
    destruct (Qlt_le_dec (animationValue a t) (endProgress a)); reflexivity.
Qed.

Lemma animate_animation t s a :
  animation s = Some a ->
  animation (animate t s)
  = if Qlt_le_dec (animationValue a t) (endProgress a) then Some a else None.
Proof.
  intros Ea. unfold animate. rewrite Ea.
  change (Qmin (fl (startProgress a
                    + inject_Z
                        (Qfloor
                           (fl (fl (t - animStart a)
                                / fl (smoothDuration
                                      / fl (endProgress a - startProgress a)))))))
               (endProgress a))
    with (animationValue a t).
  destruct (Qeq_bool (animationValue a t) (startProgress a));
    destruct (Qlt_le_dec (animationValue a t) (endProgress a)); cbn;
    try rewrite Ea; reflexivity.
Qed.

Lemma animate_idle t s : animation s = None -> animate t s = s.
Proof. intros Ea. unfold animate. rewrite Ea. reflexivity. Qed.

Lemma animationValue_le_end a t : (animationValue a t <= endProgress a)%Q.
Proof. apply Q.le_min_r. Qed.

Lemma animationValue_double a t :
  is_double (endProgress a) -> is_double (animationValue a t).
Proof. intros H. apply is_double_min; [apply is_double_fl|exact H]. Qed.

Lemma animate_smooth_ok t s :
  target_ok s -> smooth_ok s -> smooth_ok (animate t s).
Proof.
  intros [_ Hdt] (Hle & Hd & Ha).
  destruct (animation s) as [a|] eqn:Ea;
    [|rewrite (animate_idle t s Ea); unfold smooth_ok; rewrite Ea; tauto].
  destruct Ha as (Hend & Hlt & Hstart).
  assert (HdE : is_double (endProgress a)) by (rewrite Hend; exact Hdt).
  pose proof (animationValue_le_end a t) as Hv.
  pose proof (animationValue_double a t HdE) as Hvd.
  unfold smooth_ok.
  rewrite (animate_smooth t s a Ea), (animate_animation t s a Ea).
  rewrite (animate_frame t s CTarget eq_refl).
  destruct (Qeq_bool (animationValue a t) (startProgress a)) eqn:Eq;
    destruct (Qlt_le_dec (animationValue a t) (endProgress a)) as [Hrun|Hdone].
  - repeat split; assumption.
  - apply Qeq_bool_eq in Eq. lra.
  - split; [lra|]. repeat split; assumption.
  - split; [lra|]. split; [exact Hvd|lra].
Qed.

Lemma frame_smooth_ok cs s s' :
  writes cs CTarget = false -> writes cs CSmooth = false ->
  writes cs CAnimation = false ->
  frame cs s s' -> smooth_ok s -> smooth_ok s'.
Proof.
  intros W1 W2 W3 F H. unfold smooth_ok in *.
  pose proof (F CTarget W1) as E1. pose proof (F CSmooth W2) as E2.
  pose proof (F CAnimation W3) as E3. cbn [agree] in E1, E2, E3.
  rewrite E1, E2, E3. exact H.
Qed.

Lemma step_smooth_ok docId s e :
  interval_ok s -> target_ok s -> smooth_ok s -> smooth_ok (step docId s e).
Proof.
  intros Ki Hok Hs.
  pose proof (step_grows docId s e Ki Hok) as [Hup _].
  destruct e as [dt now r|dt now|t]; cbn [step] in *.
  - assert (H0 : smooth_ok (advance dt s)) by exact Hs.
    set (s0 := advance dt s) in *.
    destruct (pollPending s0); [|exact H0].
    pose proof (checkStatus_frame docId r s0) as F.
    rewrite commit_target in Hup.
    apply commit_smooth_ok; auto.
    + exact (F CSmooth eq_refl).
    + exact (F CAnimation eq_refl).
  - assert (H0 : smooth_ok (advance dt s)) by exact Hs.
    set (s0 := advance dt s) in *.
    destruct (interval s0) as [c|]; [|exact H0].
    pose proof (progressInterval_frame now c s0) as F.
    rewrite commit_target in Hup.
    apply commit_smooth_ok; auto.
    + exact (F CSmooth eq_refl).
    + exact (F CAnimation eq_refl).
  - apply animate_smooth_ok.
    + unfold target_ok. rewrite (elapse_frame t s CTarget eq_refl). exact Hok.
    + eapply frame_smooth_ok; [| | |apply (elapse_frame t s)|exact Hs];
        reflexivity.
Qed.

Lemma mount_smooth_ok p0 now : smooth_ok (mount p0 now).
Proof.
  unfold mount.
  set (s2 := smoothEffect (render (initial p0 now))).
  assert (H2 : smooth_ok s2).
  { apply smoothEffect_smooth_ok.
    - rewrite (render_frame _ CSmooth eq_refl), (render_frame _ CTarget eq_refl).
      cbn. lra.
    - rewrite (render_frame _ CSmooth eq_refl). cbn.
      exact (is_double_small 0 ltac:(lia)). }
  assert (T2 : target_ok s2).
  { unfold target_ok, s2. rewrite (smoothEffect_frame _ CTarget eq_refl).
    rewrite (render_frame _ CTarget eq_refl). apply initial_target_ok. }
  set (s3 := schedule [PollAfter 1000] true s2).
  assert (H3 : smooth_ok s3) by exact H2.
  assert (T3 : target_ok s3) by exact T2.
  set (s5 := continuousEffect (progressEffect now s3)).
  assert (F5 : frame [CTarget; CLast; CHighest; CInterval] s3 s5).
  { eapply frame_trans;
      [eapply frame_weaken; [|apply progressEffect_frame]
      |eapply frame_weaken; [|apply continuousEffect_frame]]; frame_incl. }
  assert (G : grows s3 (commit s3 now s5)).
  { eapply grows_trans; [apply progressEffect_grows|].
    eapply grows_trans; [apply continuousEffect_grows|apply commit_grows]. }
  destruct (G T3) as [Hup _]. rewrite commit_target in Hup.
  apply commit_smooth_ok; auto.
  - exact (F5 CSmooth eq_refl).
  - exact (F5 CAnimation eq_refl).
Qed.

(** What every run keeps. *)
Lemma run_bar docId p0 now evs :
  let s := run docId (mount p0 now) evs in
  steady s /\ target_ok s /\ smooth_ok s.
Proof.
  cbn zeta. apply run_rule.
  - intros s e (K & Hok & Hs). split; [apply step_steady, K|].
    pose proof (proj2 (proj2 (proj2 K))) as Ki.
    split; [exact (proj2 (step_grows docId s e Ki Hok))|].
    apply step_smooth_ok; assumption.
  - split; [apply mount_steady|]. split; [apply mount_target_ok|].
    apply mount_smooth_ok.
Qed.

(** *** Frames in time *)



Lemma step_duration_pos a :
  (startProgress a < endProgress a)%Q ->
  (0 < fl (smoothDuration / fl (endProgress a - startProgress a)))%Q.
Proof.
  intros Hlt. apply fl_sign_pos. apply Qlt_shift_div_l.
  - apply fl_sign_pos. lra.
  - unfold smoothDuration. lra.
Qed.

Lemma animationValue_mono a t t' :
  (startProgress a < endProgress a)%Q -> (t <= t')%Q ->
  (animationValue a t <= animationValue a t')%Q.
Proof.
  intros Hlt Ht. unfold animationValue.
  pose proof (step_duration_pos a Hlt) as Hd.
  apply Q.min_le_compat_r. apply fl_mono.
  apply Qplus_le_r. rewrite <- Zle_Qle. apply Qfloor_resp_le. apply fl_mono.
  apply Qmult_le_compat_r.
  - apply fl_mono. lra.
  - apply Qlt_le_weak, Qinv_lt_0_compat, Hd.
Qed.

Lemma animationValue_ge_start a t :
  is_double (startProgress a) -> (startProgress a < endProgress a)%Q ->
  (animStart a <= t)%Q -> (startProgress a <= animationValue a t)%Q.
Proof.
  intros HdS Hlt Ht. unfold animationValue.
  pose proof (step_duration_pos a Hlt) as Hd.
  apply Q.min_glb; [|lra]. apply fl_ge_double; [exact HdS|].
  assert (H : (0 <= inject_Z
                      (Qfloor
                         (fl (fl (t - animStart a)
                              / fl (smoothDuration
                                    / fl (endProgress a - startProgress a))))))%Q).
  { change 0%Q with (inject_Z 0). rewrite <- Zle_Qle. apply Qfloor_nonneg.
    apply fl_nonneg. apply Qle_shift_div_l; [exact Hd|].
    rewrite Qmult_0_l. apply fl_nonneg. lra. }
  lra.
Qed.

Lemma smoothEffect_smooth_cap s :
  (0 <= smoothProgress s)%Q -> is_double (smoothProgress s) ->
  smooth_cap (smoothEffect s).
Proof.
  intros H0 Hd. unfold smooth_cap, smoothEffect.
  destruct (Qlt_le_dec _ _) as [Hlt|Hge]; cbn [animation setAnimation];
    [|split; [exact H0|exact I]].
  split; [exact H0|].
  change (smoothProgress (setAnimation _ s)) with (smoothProgress s).
  change (performance_now (setAnimation _ s)) with (performance_now s).
  cbn [startProgress animStart].
  split; [split; [exact H0|apply Qle_refl]|]. split; [apply Qle_refl|].
  apply fl_pos_inv in Hlt.
  match goal with |- (_ <= animationValue ?a _)%Q =>
    apply (animationValue_ge_start a) end; cbn; [exact Hd|lra|apply Qle_refl].
Qed.

Lemma clock_smooth_cap s s' :
  smooth_ok s -> smooth_cap s ->
  smoothProgress s' = smoothProgress s -> animation s' = animation s ->
  (performance_now s <= performance_now s')%Q ->
  smooth_cap s'.
Proof.
  intros (_ & _ & Ha) [H0 Hc] Es Ea Hp. unfold smooth_cap. rewrite Es, Ea.
  split; [exact H0|].
  destruct (animation s) as [a|]; [|exact I].
  destruct Ha as (_ & Hlt & _). destruct Hc as (Hs & Ht & Hv).
  split; [exact Hs|]. split; [lra|].
  eapply Qle_trans; [exact Hv|]. apply animationValue_mono; assumption.
Qed.

Lemma commit_smooth_cap prev now s :
  smooth_ok prev -> smooth_cap prev ->
  smoothProgress s = smoothProgress prev -> animation s = animation prev ->
  perfMicros s = perfMicros prev ->
  smooth_cap (commit prev now s) /\
  smoothProgress (commit prev now s) = smoothProgress prev.
Proof.
  intros Hok Hc Es Ea Ep.
  pose proof (proj1 Hc) as H0. pose proof (proj1 (proj2 Hok)) as Hd.
  unfold commit.
  pose proof (screenEffects_frame prev now s) as F.
  set (s3 := screenEffects prev now s) in *.
  assert (Es3 : smoothProgress s3 = smoothProgress prev)
    by (rewrite (F CSmooth eq_refl); exact Es).
  assert (Ea3 : animation s3 = animation prev)
    by (rewrite (F CAnimation eq_refl); exact Ea).
  assert (Ep3 : performance_now s3 = performance_now prev)
    by (unfold performance_now; rewrite (F CPerf eq_refl), Ep; reflexivity).
  destruct (changedQ targetProgress prev s3).
  - split; [apply smoothEffect_smooth_cap; rewrite Es3; assumption|].
    rewrite (smoothEffect_frame s3 CSmooth eq_refl). exact Es3.
  - split; [|exact Es3].
    apply (clock_smooth_cap prev s3 Hok Hc Es3 Ea3). rewrite Ep3.
    apply Qle_refl.
Qed.

Lemma animate_smooth_cap t s :
  target_ok s -> smooth_ok s -> smooth_cap s ->
  (performance_now s <= t)%Q ->
  let s' := animate t s in
  (0 <= smoothProgress s')%Q /\
  (smoothProgress s <= smoothProgress s')%Q /\
  match animation s' with
  | Some a => (0 <= startProgress a <= smoothProgress s')%Q /\
              (animStart a <= t)%Q /\
              (smoothProgress s' <= animationValue a t)%Q
  | None => True
  end.
Proof.
  intros [_ Hdt] (Hle & Hd & Ha) [H0 Hc] Ht. cbn zeta.
  destruct (animation s) as [a|] eqn:Ea.
  2:{ rewrite (animate_idle t s Ea), Ea.
      split; [exact H0|]. split; [apply Qle_refl|exact I]. }
  destruct Ha as (Hend & Hlt & HdS). destruct Hc as (Hs & Hta & Hv).
  rewrite (animate_smooth t s a Ea), (animate_animation t s a Ea).
  assert (V1 : (startProgress a <= animationValue a t)%Q)
    by (apply animationValue_ge_start; [exact HdS|exact Hlt|lra]).
  assert (V2 : (animationValue a (performance_now s) <= animationValue a t)%Q)
    by (apply animationValue_mono; assumption).
  destruct (Qeq_bool (animationValue a t) (startProgress a)) eqn:Eq;
    destruct (Qlt_le_dec (animationValue a t) (endProgress a)) as [Hrun|Hdone].
  - split; [exact H0|]. split; [apply Qle_refl|].
    split; [exact Hs|]. split; lra.
  - split; [exact H0|]. split; [apply Qle_refl|exact I].
  - split; [lra|]. split; [lra|]. split; [lra|]. split; [lra|apply Qle_refl].
  - split; [lra|]. split; [lra|exact I].
Qed.

Lemma step_smooth_cap docId s e :
  timely s e -> target_ok s -> smooth_ok s -> smooth_cap s ->
  smooth_cap (step docId s e) /\
  (smoothProgress s <= smoothProgress (step docId s e))%Q.
Proof.
  intros Ht Hok Hs Hc.
  assert (A : forall dt, smooth_cap (advance dt s)).
  { intros dt. apply (clock_smooth_cap s); try assumption; try reflexivity.
    apply performance_now_advance. }
  destruct e as [dt now r|dt now|t]; cbn [step].
  - specialize (A dt). assert (Hs0 : smooth_ok (advance dt s)) by exact Hs.
    set (s0 := advance dt s) in *.
    destruct (pollPending s0); [|split; [exact A|apply Qle_refl]].
    pose proof (checkStatus_frame docId r s0) as F.
    destruct (commit_smooth_cap s0 now (checkStatus docId r s0) Hs0 A
                (F CSmooth eq_refl) (F CAnimation eq_refl) (F CPerf eq_refl))
      as [C E].
    split; [exact C|]. rewrite E. apply Qle_refl.
  - specialize (A dt). assert (Hs0 : smooth_ok (advance dt s)) by exact Hs.
    set (s0 := advance dt s) in *.
    destruct (interval s0) as [c|]; [|split; [exact A|apply Qle_refl]].
    pose proof (progressInterval_frame now c s0) as F.
    destruct (commit_smooth_cap s0 now (progressInterval now c s0) Hs0 A
                (F CSmooth eq_refl) (F CAnimation eq_refl) (F CPerf eq_refl))
      as [C E].
    split; [exact C|]. rewrite E. apply Qle_refl.
  - cbn [timely] in Ht.
    assert (Ep : performance_now (elapse t s) = millis t).
    { unfold performance_now, elapse. cbn. rewrite N.max_r by exact Ht.
      reflexivity. }
    assert (Hc0 : smooth_cap (elapse t s)).
    { apply (clock_smooth_cap s); try assumption; try reflexivity.
      apply performance_now_elapse. }
    assert (Hs0 : smooth_ok (elapse t s)) by exact Hs.
    assert (Hok0 : target_ok (elapse t s)) by exact Hok.
    pose proof (animate_smooth_cap (millis t) (elapse t s) Hok0 Hs0 Hc0
                  ltac:(rewrite Ep; apply Qle_refl)) as (B0 & Bm & Ba).
    cbn zeta in B0, Bm, Ba.
    assert (Ep' : performance_now (animate (millis t) (elapse t s)) = millis t).
    { unfold performance_now.
      rewrite (animate_frame (millis t) (elapse t s) CPerf eq_refl).
      exact Ep. }
    split; [|exact Bm]. unfold smooth_cap.
    split; [exact B0|].
    destruct (animation (animate (millis t) (elapse t s))) as [a|]; [|exact I].
    rewrite Ep'. exact Ba.
Qed.

Lemma mount_smooth_cap p0 now : smooth_cap (mount p0 now).
Proof.
  unfold mount.
  set (s2 := smoothEffect (render (initial p0 now))).
  assert (D0 : is_double (smoothProgress (render (initial p0 now)))).
  { rewrite (render_frame _ CSmooth eq_refl). cbn.
    exact (is_double_small 0 ltac:(lia)). }
  assert (H2 : smooth_ok s2).
  { apply smoothEffect_smooth_ok; [|exact D0].
    rewrite (render_frame _ CSmooth eq_refl), (render_frame _ CTarget eq_refl).
    cbn. lra. }
  assert (C2 : smooth_cap s2).
  { apply smoothEffect_smooth_cap; [|exact D0].
    rewrite (render_frame _ CSmooth eq_refl). cbn. lra. }
  set (s3 := schedule [PollAfter 1000] true s2).
  set (s5 := continuousEffect (progressEffect now s3)).
  assert (F5 : frame [CTarget; CLast; CHighest; CInterval] s3 s5).
  { eapply frame_trans;
      [eapply frame_weaken; [|apply progressEffect_frame]
      |eapply frame_weaken; [|apply continuousEffect_frame]]; frame_incl. }
  exact (proj1 (commit_smooth_cap s3 now s5 H2 C2
                  (F5 CSmooth eq_refl) (F5 CAnimation eq_refl)
                  (F5 CPerf eq_refl))).
Qed.

(** What a run keeps when its frames come in time. *)
Lemma run_timely docId evs : forall s,
  timely_run docId s evs ->
  steady s /\ target_ok s /\ smooth_ok s /\ smooth_cap s ->
  (steady (run docId s evs) /\ target_ok (run docId s evs) /\
   smooth_ok (run docId s evs) /\ smooth_cap (run docId s evs)) /\
  (smoothProgress s <= smoothProgress (run docId s evs))%Q.
Proof.
  induction evs as [|e evs IH]; intros s Ht H; cbn.
  - split; [exact H|apply Qle_refl].
  - destruct Ht as [Te Tr]. destruct H as (K & Hok & Hs & Hc).
    pose proof (proj2 (proj2 (proj2 K))) as Ki.
    destruct (step_smooth_cap docId s e Te Hok Hs Hc) as [Hc' Hm].
    destruct (IH (step docId s e) Tr) as [H' Hm'].
    { split; [apply step_steady, K|].
      split; [exact (proj2 (step_grows docId s e Ki Hok))|].
      split; [apply step_smooth_ok; assumption|exact Hc']. }
    split; [exact H'|]. eapply Qle_trans; [exact Hm|exact Hm'].
Qed.

Lemma mount_timely docId p0 now evs :
  timely_run docId (mount p0 now) evs ->
  let s := run docId (mount p0 now) evs in
  steady s /\ target_ok s /\ smooth_ok s /\ smooth_cap s.
Proof.
  intros Ht. cbn zeta. apply (run_timely docId evs (mount p0 now) Ht).
  split; [apply mount_steady|]. split; [apply mount_target_ok|].
  split; [apply mount_smooth_ok|apply mount_smooth_cap].
Qed.



(** X6. In every state reached from the mount, [targetProgress] lies between
    0 and 100 and [smoothProgress] is at most 100; when the animation frames
    came in time, none stamped before a reading of the clock already taken,
    [smoothProgress] is not negative either. *)
Theorem progress_stays_in_range docId p0 now evs :
  let s := run docId (mount p0 now) evs in
  (0 <= targetProgress s <= 100)%Q /\ (smoothProgress s <= 100)%Q /\
  (timely_run docId (mount p0 now) evs -> (0 <= smoothProgress s)%Q).
Proof.
  intros s. destruct (run_bar docId p0 now evs) as (_ & Hok & Hs).
  fold s in Hok, Hs. destruct Hok as [[H0 H100] _]. destruct Hs as [Hle _].
  split; [split; assumption|]. split; [lra|].
  intros Ht. destruct (mount_timely docId p0 now evs Ht) as (_ & _ & _ & Hc).
  exact (proj1 Hc).
Qed.

Lemma progress_stays_in_range_witness :
  (0 <= smoothProgress
          (run "doc" (mount 0 0) [AnimationFrame 600000; AnimationFrame 1200000]))%Q.
Proof.
  refine (proj2 (proj2 (progress_stays_in_range "doc" 0 0
                          [AnimationFrame 600000; AnimationFrame 1200000])) _).
  cbn. repeat split; vm_compute; discriminate.
Defined.

(** X7. The shown percentage never goes back while the animation frames come
    in time: in a state reached from the mount by such a run, no event that
    comes in time lowers [smoothProgress], and so no sequence of them
    does. *)
Theorem smoothProgress_non_decreasing docId p0 now evs :
  let s := run docId (mount p0 now) evs in
  timely_run docId (mount p0 now) evs ->
  (forall e, timely s e ->
             (smoothProgress s <= smoothProgress (step docId s e))%Q) /\
  (forall evs', timely_run docId s evs' ->
                (smoothProgress s <= smoothProgress (run docId s evs'))%Q).
Proof.
  intros s Ht. pose proof (mount_timely docId p0 now evs Ht) as H. fold s in H.
  split.
  - intros e Te. destruct H as (_ & Hok & Hs & Hc).
    exact (proj2 (step_smooth_cap docId s e Te Hok Hs Hc)).
  - intros evs' Ht'. exact (proj2 (run_timely docId evs' s Ht' H)).
Qed.

Lemma smoothProgress_non_decreasing_witness :
  let s := run "doc" (mount 0 0) [AnimationFrame 600000] in
  (smoothProgress s <= smoothProgress (step "doc" s (AnimationFrame 1200000)))%Q.
Proof.
  refine (proj1 (smoothProgress_non_decreasing "doc" 0 0 [AnimationFrame 600000] _)
            (AnimationFrame 1200000) _).
  - cbn. repeat split; vm_compute; discriminate.
  - vm_compute. discriminate.
Defined.

(** Without that the shown value does go back, and below 0: a frame stamped
    one millisecond before the clock reading of the effect that started the
    loop shows -1. *)
Lemma early_frame_shows_minus_one :
  let s := mount 5000 0 in
  (smoothProgress s == 0)%Q /\
  (smoothProgress (step "doc" s (AnimationFrame 4000)) == -1)%Q.
Proof. cbn zeta. split; vm_compute; reflexivity. Qed.

(** *** The step shown after a poll *)

Lemma settles_refl c : settles c c.
Proof. unfold settles. repeat split; intros; lia. Qed.

Lemma frame_settles cs c x x' :
  frame cs x x' -> writes cs CStatus = false -> writes cs CMessage = false ->
  writes cs CHighest = false -> settles c x -> settles c x'.
Proof.
  intros F H1 H2 H3 (Es & Em & Hh). unfold settles.
  rewrite (F CStatus H1), (F CMessage H2), (F CHighest H3). auto.
Qed.

Lemma getCurrentStep_settles c x :
  settles c x -> settles c (snd (getCurrentStep x)).
Proof.
  intros (Es & Em & Hh). unfold settles.
  rewrite getCurrentStep_highest.
  rewrite (getCurrentStep_frame x CStatus eq_refl).
  rewrite (getCurrentStep_frame x CMessage eq_refl).
  rewrite Es, Em. split; [reflexivity|]. split; [reflexivity|].
  intros k E. rewrite E. specialize (Hh k E). lia.
Qed.

Lemma render_settles c x : settles c x -> settles c (render x).
Proof.
  intros H. unfold render. destruct (error x); [exact H|].
  apply getCurrentStep_settles, H.
Qed.

Lemma progressEffect_settles now c x :
  settles c x -> settles c (progressEffect now x).
Proof.
  intros H. apply getCurrentStep_settles in H.
  unfold progressEffect.
  pose proof (calculateProgress_state now x) as E.
  destruct (calculateProgress now x) as [newProgress s1]. cbn [snd] in E. subst s1.
  destruct (Qlt_le_dec _ _); exact H.
Qed.

Lemma commit_settles_from prev now c x : settles c x -> settles c (commit prev now x).
Proof.
  intros H. apply (commit_rule (settles c)).
  - exact H.
  - intros y. apply render_settles.
  - intros y. apply progressEffect_settles.
  - intros y. exact (frame_settles _ c _ _ (continuousEffect_frame y) eq_refl eq_refl eq_refl).
  - intros y. exact (frame_settles _ c _ _ (smoothEffect_frame y) eq_refl eq_refl eq_refl).
Qed.

Lemma commit_settles prev now c : settles c (commit prev now c).
Proof. apply commit_settles_from, settles_refl. Qed.

(** What a handled poll response shows: its status and message, and the
    step [getCurrentStep] returns for them over the previous ratchet. *)
Lemma step_poll_shows docId s dt now sd r :
  interval_ok s -> pollPending s = true ->
  rawStep (sd_status sd) (or_else (sd_message sd) (sd_status sd)) = Index r ->
  let s' := step docId s (PollResponse dt now (Some sd)) in
  let k := Z.max r (highestStepReached s) in
  status s' = sd_status sd /\
  fst (getCurrentStep s') = Index k /\ highestStepReached s' <= k /\
  (nonterminal (sd_status sd) -> pollPending s' = true).
Proof.
  intros Ki Hp Er s' k. set (s0 := advance dt s).
  set (c := checkStatus docId (Some sd) s0).
  assert (Es' : s' = commit s0 now c).
  { subst s'. cbn [step]. fold s0.
    change (pollPending s0) with (pollPending s). rewrite Hp. reflexivity. }
  destruct (checkStatus_input docId sd s0) as [Cs Cm]. fold c in Cs, Cm.
  assert (Ch : highestStepReached c = highestStepReached s)
    by exact (checkStatus_frame docId (Some sd) s0 CHighest eq_refl).
  pose proof (commit_settles s0 now c) as (Ss & Sm & Sh). rewrite <- Es' in Ss, Sm, Sh.
  pose proof (step_ratchets docId s (PollResponse dt now (Some sd)) Ki) as [Hr _].
  fold s' in Hr.
  rewrite Cs in Ss. rewrite Cm in Sm. rewrite Cs, Cm, Ch in Sh.
  specialize (Sh r Er). fold k in Sh.
  split; [exact Ss|]. split; [|split; [exact Sh|]].
  - rewrite getCurrentStep_value, Ss, Sm, Er. f_equal. fold k. lia.
  - intros (N1 & N2 & N3).
    rewrite Es', (commit_frame s0 now c CPoll eq_refl). unfold c.
    rewrite (checkStatus_continue docId sd s0 N1 N2 N3). reflexivity.
Qed.

Lemma rawStep_message st m k :
  nonterminal st -> lookup_truthy messageToStep m = Some k -> rawStep st m = k.
Proof.
  intros (N1 & N2 & N3) E. unfold rawStep.
  destruct (String.eqb_spec st "completed"); [contradiction|].
  destruct (String.eqb_spec st "failed"); [contradiction|].
  destruct (String.eqb_spec st "error"); [contradiction|].
  cbn [orb]. rewrite E. reflexivity.
Qed.

Lemma mount_highest p0 now : highestStepReached (mount p0 now) <= 1.
Proof.
  unfold mount. set (s0 := initial p0 now).
  pose proof (render_settles s0 s0 (settles_refl s0)) as H1.
  pose proof (frame_settles _ s0 _ _ (smoothEffect_frame (render s0))
                eq_refl eq_refl eq_refl H1) as H2.
  pose proof (frame_settles _ s0 _ _
                (schedule_frame [PollAfter 1000] true (smoothEffect (render s0)))
                eq_refl eq_refl eq_refl H2) as H3.
  set (s3 := schedule [PollAfter 1000] true (smoothEffect (render s0))) in *.
  pose proof (progressEffect_settles now s0 s3 H3) as H4.
  pose proof (frame_settles _ s0 _ _ (continuousEffect_frame (progressEffect now s3))
                eq_refl eq_refl eq_refl H4) as H5.
  set (s5 := continuousEffect (progressEffect now s3)) in *.
  destruct (commit_settles_from s3 now s0 s5 H5) as (_ & _ & H).
  exact (H 1 eq_refl).
Qed.

(** One link of a chain of polls on which polling goes on. *)
Lemma poll_chain docId s dt now sd k :
  steady s -> pollPending s = true -> nonterminal (sd_status sd) ->
  highestStepReached s <= k ->
  rawStep (sd_status sd) (or_else (sd_message sd) (sd_status sd)) = Index k ->
  let s' := step docId s (PollResponse dt now (Some sd)) in
  steady s' /\ pollPending s' = true /\ highestStepReached s' <= k /\
  fst (getCurrentStep s') = Index k.
Proof.
  intros K Hp Hn Hh Hr s'.
  destruct (step_poll_shows docId s dt now sd k (proj2 (proj2 (proj2 K))) Hp Hr)
    as (_ & E & H & P).
  fold s' in E, H, P.
  split; [apply step_steady, K|].
  split; [exact (P Hn)|]. split; [lia|].
  rewrite E. f_equal. lia.
Qed.

(** C5. The scenario.  From the mount, the responses status [processing],
    status [analyzing], message "Performing deep analysis...", message
    "Indexing document for search..." and status [completed], in this order
    and at any times, show the steps 1, 2, 3, 5, 5 and end with
    [targetProgress] at 100.  The two responses given by their message may
    carry any status on which polling goes on. *)
Theorem scenario_steps docId p0 now0 dt1 t1 dt2 t2 dt3 t3 dt4 t4 dt5 t5
    st3 st4 m5 :
  nonterminal st3 -> nonterminal st4 ->
  let polls :=
    [PollResponse dt1 t1 (Some {| sd_status := "processing"; sd_message := None |});
     PollResponse dt2 t2 (Some {| sd_status := "analyzing"; sd_message := None |});
     PollResponse dt3 t3
       (Some {| sd_status := st3;
                sd_message := Some "Performing deep analysis..." |});
     PollResponse dt4 t4
       (Some {| sd_status := st4;
                sd_message := Some "Indexing document for search..." |});
     PollResponse dt5 t5 (Some {| sd_status := "completed"; sd_message := m5 |})] in
  stepsSeen docId (mount p0 now0) polls
  = [Index 1; Index 2; Index 3; Index 5; Index 5] /\
  (targetProgress (run docId (mount p0 now0) polls) == 100)%Q.
Proof.
  intros N3 N4 polls.
  pose proof (run_completed_full docId p0 now0 polls) as J.
  revert J. subst polls. unfold run. cbn [stepsSeen fold_left].
  pose proof (mount_highest p0 now0) as H0.
  pose proof (proj1 (mount_polling p0 now0)) as P0.
  pose proof (mount_steady p0 now0) as K0.
  generalize dependent (mount p0 now0). intros s0 H0 P0 K0.
  assert (Nt1 : nonterminal "processing") by (repeat split; discriminate).
  assert (Nt2 : nonterminal "analyzing") by (repeat split; discriminate).
  destruct (poll_chain docId s0 dt1 t1
              {| sd_status := "processing"; sd_message := None |} 1
              K0 P0 Nt1 H0 eq_refl) as (K1 & P1 & H1 & E1).
  rewrite E1. generalize dependent (step docId s0
    (PollResponse dt1 t1 (Some {| sd_status := "processing"; sd_message := None |}))).
  intros s1 K1 P1 H1 _.
  destruct (poll_chain docId s1 dt2 t2
              {| sd_status := "analyzing"; sd_message := None |} 2
              K1 P1 Nt2 ltac:(lia) eq_refl) as (K2 & P2 & H2 & E2).
  rewrite E2. generalize dependent (step docId s1
    (PollResponse dt2 t2 (Some {| sd_status := "analyzing"; sd_message := None |}))).
  intros s2 K2 P2 H2 _.
  destruct (poll_chain docId s2 dt3 t3
              {| sd_status := st3; sd_message := Some "Performing deep analysis..." |} 3
              K2 P2 N3 ltac:(lia)
              (rawStep_message st3 "Performing deep analysis..." (Index 3) N3
                 ltac:(vm_compute; reflexivity))) as (K3 & P3 & H3 & E3).
  rewrite E3. generalize dependent (step docId s2
    (PollResponse dt3 t3 (Some {| sd_status := st3; sd_message := Some "Performing deep analysis..." |}))).
  intros s3 K3 P3 H3 _.
  destruct (poll_chain docId s3 dt4 t4
              {| sd_status := st4; sd_message := Some "Indexing document for search..." |} 5
              K3 P3 N4 ltac:(lia)
              (rawStep_message st4 "Indexing document for search..." (Index 5) N4
                 ltac:(vm_compute; reflexivity))) as (K4 & P4 & H4 & E4).
  rewrite E4. generalize dependent (step docId s3
    (PollResponse dt4 t4 (Some {| sd_status := st4; sd_message := Some "Indexing document for search..." |}))).
  intros s4 K4 P4 H4 _.
  destruct (step_poll_shows docId s4 dt5 t5
              {| sd_status := "completed"; sd_message := m5 |} 5
              (proj2 (proj2 (proj2 K4))) P4 eq_refl)
    as (S5 & E5 & _ & _).
  cbn [sd_status sd_message] in S5, E5.
  rewrite E5.
  intros J. split; [|exact (J S5)].
  repeat f_equal. lia.
Qed.

Lemma scenario_steps_witness :
  stepsSeen "doc" (mount 0 0)
    [PollResponse 0 0 (Some {| sd_status := "processing"; sd_message := None |});
     PollResponse 0 0 (Some {| sd_status := "analyzing"; sd_message := None |});
     PollResponse 0 0
       (Some {| sd_status := "analyzing";
                sd_message := Some "Performing deep analysis..." |});
     PollResponse 0 0
       (Some {| sd_status := "analyzing";
                sd_message := Some "Indexing document for search..." |});
     PollResponse 0 0 (Some {| sd_status := "completed"; sd_message := None |})]
  = [Index 1; Index 2; Index 3; Index 5; Index 5].
Proof.
  refine (proj1 (scenario_steps "doc" 0 0 0 0 0 0 0 0 0 0 0 0
                   "analyzing" "analyzing" None _ _));
    repeat split; discriminate.
Defined.

(** C7, as the code has it.  The estimated total is the constant 120000ms.
    When the status is not [completed] and [smoothProgress] is above 0, the
    estimate is [max 0 (120000 - (now - startTime))] converted to seconds
    with [Math.round]; when the status is [completed] it is 0, and while
    [smoothProgress] is not above 0 it is the full 120 seconds. *)
Theorem remaining_time_estimate now s :
  estimatedDuration = 120000 /\
  (status s = "completed" -> calculateRemainingTime now s = 0%Q) /\
  (status s <> "completed" -> (0 < smoothProgress s)%Q ->
   calculateRemainingTime now s
   = Math_round
       (inject_Z (Z.max 0 (estimatedDuration - (now - startTime s))) / 1000)) /\
  (status s <> "completed" -> (smoothProgress s <= 0)%Q ->
   calculateRemainingTime now s = Math_round (inject_Z estimatedDuration / 1000) /\
   (calculateRemainingTime now s == 120)%Q).
Proof.
  split; [reflexivity|]. unfold calculateRemainingTime. split; [|split].
  - intros E. rewrite E. reflexivity.
  - intros Hc Hs.
    destruct (String.eqb_spec (status s) "completed"); [contradiction|].
    destruct (Qlt_le_dec 0 (smoothProgress s / 100)) as [_|Hle]; [reflexivity|].
    exfalso. apply (Qle_not_lt _ _ Hle).
    apply Qlt_shift_div_l; [reflexivity|]. lra.
  - intros Hc Hs.
    destruct (String.eqb_spec (status s) "completed"); [contradiction|].
    destruct (Qlt_le_dec 0 (smoothProgress s / 100)) as [Hlt|_];
      [|split; reflexivity].
    exfalso. apply (Qlt_not_le _ _ Hlt).
    apply Qle_shift_div_r; [reflexivity|]. lra.
Qed.

Lemma remaining_time_estimate_witness :
  let s := step "doc" (mount 0 1700000000000) (AnimationFrame 3000000) in
  calculateRemainingTime 1700000060000 s
  = Math_round
      (inject_Z (Z.max 0 (estimatedDuration - (1700000060000 - startTime s)))
       / 1000).
Proof.
  intros s.
  refine (proj1 (proj2 (proj2 (remaining_time_estimate 1700000060000 s))) _ _).
  - vm_compute. discriminate.
  - vm_compute. reflexivity.
Defined.

(** C7 as stated fails: right after the mount, before the first animation
    frame, [smoothProgress] is 0; a render one minute later still shows 120
    seconds, where [max 0 (120000 - elapsed)] gives 60. *)
Lemma remaining_time_counterexample :
  let s := mount 0 1700000000000 in
  let now := 1700000060000 in
  (calculateRemainingTime now s == 120)%Q /\
  (Math_round
     (inject_Z (Z.max 0 (estimatedDuration - (now - startTime s))) / 1000)
   == 60)%Q /\
  ~ (calculateRemainingTime now s
     == Math_round
          (inject_Z (Z.max 0 (estimatedDuration - (now - startTime s))) / 1000))%Q.
Proof.
  cbn zeta. split; [vm_compute; reflexivity|]. split; [vm_compute; reflexivity|].
  vm_compute. discriminate.
Qed.


(** *** The shown step *)

Lemma getStepStatus_value i s :
  getStepStatus i s
  = match fst (getCurrentStep s) with
    | Index k => if i <? k then StepCompleted
                 else if i =? k then StepActive else StepPending
    | NaN => StepPending
    end.
Proof. reflexivity. Qed.

(** With a status and a message that are not inherited names, a state in
    which the ratchet has caught up shows the ratchet. *)
Lemma caught_up_shows s :
  caught_up s -> ordinary (status s) -> ordinary (message s) ->
  fst (getCurrentStep s) = Index (highestStepReached s).
Proof.
  intros K Os Om. rewrite getCurrentStep_value.
  destruct (rawStep_ordinary _ _ Os Om) as [k E].
  unfold caught_up in K. rewrite E in K |- *. cbn in K. f_equal. lia.
Qed.

(** Whatever the names, the step shown is the ratchet or not a number. *)
Lemma caught_up_shows_or_NaN s :
  caught_up s ->
  fst (getCurrentStep s) = Index (highestStepReached s) \/
  fst (getCurrentStep s) = NaN.
Proof.
  intros K. rewrite getCurrentStep_value. unfold caught_up in K.
  destruct (rawStep (status s) (message s)) as [k|]; [left|right; reflexivity].
  cbn in K. f_equal. lia.
Qed.

(** X3. The ratchet never goes back: in a state reached from the mount, no
    further events lower [highestStepReached].  When the status and the
    message shown are not names that the lookup tables inherit from
    [Object.prototype], [getCurrentStep] returns the ratchet itself, and then
    the step list has not gone back either: an entry that was shown
    completed is completed, and an entry that is pending was pending. *)
Theorem shown_steps_never_go_back docId p0 now evs evs' i :
  let s := run docId (mount p0 now) evs in
  let s' := run docId s evs' in
  highestStepReached s <= highestStepReached s' /\
  (ordinary (status s) -> ordinary (message s) ->
   fst (getCurrentStep s) = Index (highestStepReached s)) /\
  (ordinary (status s') -> ordinary (message s') ->
   fst (getCurrentStep s') = Index (highestStepReached s') /\
   (getStepStatus i s = StepCompleted -> getStepStatus i s' = StepCompleted) /\
   (getStepStatus i s' = StepPending -> getStepStatus i s = StepPending)).
Proof.
  intros s s'.
  pose proof (run_steady docId p0 now evs) as K. fold s in K.
  pose proof (run_steady docId p0 now (evs ++ evs')) as K'.
  rewrite run_app in K'. fold s s' in K'.
  pose proof (run_ratchets docId evs' s K) as [Hr _]. fold s' in Hr.
  destruct K as (_ & _ & C & _). destruct K' as (_ & _ & C' & _).
  split; [exact Hr|]. split; [apply caught_up_shows, C|].
  intros Os Om. pose proof (caught_up_shows s' C' Os Om) as E'.
  split; [exact E'|]. rewrite !getStepStatus_value, E'.
  destruct (caught_up_shows_or_NaN s C) as [E|E]; rewrite E.
  - split.
    + destruct (Z.ltb_spec i (highestStepReached s)) as [Hlt|Hge].
      * intros _. destruct (Z.ltb_spec i (highestStepReached s')); [reflexivity|lia].
      * destruct (i =? highestStepReached s); discriminate.
    + destruct (Z.ltb_spec i (highestStepReached s')) as [Hlt|Hge]; [discriminate|].
      destruct (Z.eqb_spec i (highestStepReached s')) as [He|Hne]; [discriminate|].
      intros _.
      destruct (Z.ltb_spec i (highestStepReached s)); [lia|].
      destruct (Z.eqb_spec i (highestStepReached s)); [lia|reflexivity].
  - split; [discriminate|reflexivity].
Qed.

Lemma shown_steps_never_go_back_witness :
  let s := run "doc" (mount 0 0) [] in
  let s' := run "doc" s
              [PollResponse 0 0
                 (Some {| sd_status := "uploading"; sd_message := None |})] in
  fst (getCurrentStep s') = Index (highestStepReached s').
Proof.
  refine (proj1 (proj2 (proj2
            (shown_steps_never_go_back "doc" 0 0 []
               [PollResponse 0 0
                  (Some {| sd_status := "uploading"; sd_message := None |})]
               0)) _ _)); vm_compute; reflexivity.
Defined.

(** *** [calculateProgress], as a whole *)

Lemma getCurrentStep_nonneg s k : fst (getCurrentStep s) = Index k -> 0 <= k.
Proof.
  rewrite getCurrentStep_value.
  destruct (rawStep (status s) (message s)) as [r|] eqn:E; [|discriminate].
  intros H. injection H as <-.
  pose proof (in_table_nonneg _ (rawStep_in_table _ _ _ E)). lia.
Qed.

(** X4. [calculateProgress] returns a whole percentage of at most 100 that
    never decreases as time passes.  For a step up to 5 and a clock that has
    not gone back behind [lastProgressUpdate], it lies between the summed
    weights of the steps before the current one and that sum plus the
    weight of the current step, and it equals the latter once the expected
    duration of the step has elapsed.  When the step is not a number it
    is 0. *)
Theorem calculateProgress_stays_in_band now s :
  let p := fst (calculateProgress now s) in
  (exists n : Z, (p == inject_Z n)%Q /\ n <= 100) /\
  (forall now', now <= now' -> (p <= fst (calculateProgress now' s))%Q) /\
  (forall k, fst (getCurrentStep s) = Index k ->
   let i := Z.to_nat k in
   (k <= 5 -> lastProgressUpdate s <= now ->
    (inject_Z (sum_weights (take i stepWeights)) <= p
     <= inject_Z (sum_weights (take (S i) stepWeights)))%Q /\
    sum_weights (take (S i) stepWeights) <= 100) /\
   (k <= 5 ->
    (forall d, stepDurations !! i = Some d ->
               d * 1000 <= now - lastProgressUpdate s) ->
    (p == inject_Z (sum_weights (take (S i) stepWeights)))%Q)) /\
  (fst (getCurrentStep s) = NaN -> (p == 0)%Q).
Proof.
  intros p. subst p. split; [|split; [|split]].
  - rewrite calculateProgress_value. apply progressAt_integer.
  - intros now' H. rewrite !calculateProgress_value. apply progressAt_mono, H.
  - intros k E i. pose proof (getCurrentStep_nonneg s k E) as H0.
    rewrite calculateProgress_value, E. split.
    + intros Hk Ht. split; [apply progressAt_band; [lia|exact Ht]|].
      destruct (band_of_step i ltac:(lia))
        as (w & d & _ & _ & _ & _ & _ & H100). exact H100.
    + intros Hk Hfull. apply progressAt_full; [lia|exact Hfull].
  - intros E. rewrite calculateProgress_value, E. apply progressAt_NaN.
Qed.

Lemma calculateProgress_stays_in_band_witness :
  let s := run "doc" (mount 0 1000) [] in
  (inject_Z (sum_weights (take 1 stepWeights))
   <= fst (calculateProgress 7000 s))%Q.
Proof.
  intros s.
  refine (proj1 (proj1 (proj1 (proj1 (proj2 (proj2
            (calculateProgress_stays_in_band 7000 s))) 1 _) _ _))).
  - vm_compute. reflexivity.
  - lia.
  - vm_compute. discriminate.
Defined.

(** *** No full bar before the last step *)

Lemma step_below_last now last k :
  match k with Index k => 0 <= k < 5 | NaN => True end ->
  (progressAt now last k <= 90)%Q.
Proof.
  destruct k as [k|]; intros H.
  - apply progressAt_below_last, H.
  - rewrite progressAt_NaN. discriminate.
Qed.

Lemma calculateProgress_below_last now s :
  highestStepReached (snd (getCurrentStep s)) < 5 ->
  (fst (calculateProgress now s) <= 90)%Q.
Proof.
  intros H. rewrite calculateProgress_value. apply step_below_last.
  rewrite getCurrentStep_value. rewrite getCurrentStep_highest in H.
  destruct (rawStep (status s) (message s)) as [k|] eqn:E; [|exact I].
  pose proof (in_table_nonneg _ (rawStep_in_table _ _ _ E)). lia.
Qed.

Lemma progress_below_last now c :
  reaches (rawStep (c_status c) (c_message c)) (c_highestStepReached c) ->
  c_highestStepReached c < 5 ->
  (fst (progress now c) <= 90)%Q.
Proof.
  intros Hr H. rewrite progress_value. apply step_below_last.
  rewrite currentStep_value. unfold reaches in Hr.
  destruct (rawStep (c_status c) (c_message c)) as [k|] eqn:E; [|exact I].
  pose proof (in_table_nonneg _ (rawStep_in_table _ _ _ E)). lia.
Qed.

Lemma frame_not_full_early cs s s' :
  frame cs s s' -> writes cs CTarget = false -> writes cs CHighest = false ->
  not_full_early s -> not_full_early s'.
Proof.
  intros F H1 H2 K. unfold not_full_early.
  rewrite (F CTarget H1), (F CHighest H2). exact K.
Qed.

Lemma render_not_full_early s : not_full_early s -> not_full_early (render s).
Proof.
  intros K H. rewrite (render_frame s CTarget eq_refl). apply K.
  pose proof (render_ratchets s) as [Hr _]. lia.
Qed.

Lemma progressEffect_not_full_early now s :
  not_full_early s -> not_full_early (progressEffect now s).
Proof.
  intros K H. unfold progressEffect in *.
  pose proof (calculateProgress_state now s) as E.
  pose proof (calculateProgress_below_last now s) as B.
  pose proof (calculateProgress_target now s) as Et.
  pose proof (getCurrentStep_ratchets s) as [Hr _].
  destruct (calculateProgress now s) as [newProgress s1]. cbn [fst snd] in *.
  subst s1.
  destruct (Qlt_le_dec _ _);
    cbn [highestStepReached targetProgress setTargetProgress
         setLastProgressUpdate] in H |- *.
  - specialize (B H). lra.
  - rewrite Et. apply K. lia.
Qed.

Lemma progressInterval_not_full_early now c s :
  reaches (rawStep (c_status c) (c_message c)) (c_highestStepReached c) ->
  c_highestStepReached c <= highestStepReached s ->
  not_full_early s -> not_full_early (progressInterval now c s).
Proof.
  intros Hr Hh K H.
  rewrite (progressInterval_settled now c s Hr CHighest eq_refl) in H.
  rewrite (progressInterval_target now c s Hr). cbn zeta.
  pose proof (progress_below_last now c Hr ltac:(lia)) as B.
  destruct (Qlt_le_dec _ _).
  - eapply Qle_trans; [apply Q.le_min_r|]. lra.
  - destruct (_ && _); [apply Q.le_min_r|apply K, H].
Qed.

Lemma continuousEffect_not_full_early s :
  caught_up s -> not_full_early s -> not_full_early (continuousEffect s).
Proof.
  intros C K. destruct (String.eqb_spec (status s) "completed") as [E|N].
  - intros H. exfalso.
    rewrite (continuousEffect_frame s CHighest eq_refl) in H.
    unfold caught_up in C. rewrite E in C. cbn in C. lia.
  - intros H. rewrite (continuousEffect_other s N). apply K.
    rewrite (continuousEffect_frame s CHighest eq_refl) in H. exact H.
Qed.

Lemma effects_not_full_early prev now s :
  caught_up (render s) /\ not_full_early (render s) ->
  caught_up (commit prev now s) /\ not_full_early (commit prev now s).
Proof.
  intros H.
  apply (commit_rule_rendered (fun x => caught_up x /\ not_full_early x));
    [exact H|..].
  - intros x [Cx Kx]. split;
      [apply progressEffect_caught_up|apply progressEffect_not_full_early, Kx].
  - intros x [Cx Kx]. split;
      [exact (frame_caught_up _ _ _ (continuousEffect_frame x) eq_refl eq_refl eq_refl Cx)
      |apply continuousEffect_not_full_early; assumption].
  - intros x [Cx Kx]. split;
      [exact (frame_caught_up _ _ _ (smoothEffect_frame x) eq_refl eq_refl eq_refl Cx)
      |exact (frame_not_full_early _ _ _ (smoothEffect_frame x) eq_refl eq_refl Kx)].
Qed.

Lemma step_not_full_early docId s e :
  steady s -> not_full_early s -> not_full_early (step docId s e).
Proof.
  intros (Hs & Ht & C & Ki) K.
  pose proof (in_table_nonneg _ Ht) as [H0 _].
  destruct e as [dt now r|dt now|t]; cbn [step].
  - set (s0 := advance dt s).
    destruct (pollPending s0) eqn:Hp; [|exact K].
    assert (He : error s0 = None) by (apply (proj1 (proj1 Hs)), Hp).
    apply effects_not_full_early. split.
    + apply render_caught_up. apply checkStatus_caught_up; assumption.
    + apply render_not_full_early.
      exact (frame_not_full_early _ _ _ (checkStatus_frame docId r s0)
               eq_refl eq_refl K).
  - set (s0 := advance dt s).
    destruct (interval s0) as [c|] eqn:Ei; [|exact K].
    pose proof (interval_ok_settled s0 c Ki Ei) as Hr.
    assert (Hh : c_highestStepReached c <= highestStepReached s0).
    { pose proof Ki as Ki'. unfold interval_ok in Ki'.
      change (interval s) with (interval s0) in Ki'. rewrite Ei in Ki'. tauto. }
    apply effects_not_full_early. split.
    + apply render_caught_up. right.
      exact (frame_caught_up _ _ _ (progressInterval_settled now c s0 Hr)
               eq_refl eq_refl eq_refl C).
    + apply render_not_full_early, progressInterval_not_full_early; assumption.
  - apply (frame_not_full_early _ _ _ (animate_frame _ (elapse t s))
             eq_refl eq_refl).
    exact (frame_not_full_early _ _ _ (elapse_frame t s) eq_refl eq_refl K).
Qed.

Lemma mount_not_full_early p0 now : not_full_early (mount p0 now).
Proof.
  unfold mount.
  set (s3 := schedule [PollAfter 1000] true (smoothEffect (render (initial p0 now)))).
  assert (K3 : not_full_early s3).
  { intros _. subst s3. cbn [targetProgress schedule].
    rewrite (smoothEffect_frame _ CTarget eq_refl).
    rewrite (render_frame _ CTarget eq_refl). cbn [targetProgress initial]. lra. }
  assert (C5 : caught_up (continuousEffect (progressEffect now s3))).
  { apply (frame_caught_up _ _ _ (continuousEffect_frame _) eq_refl eq_refl eq_refl).
    apply progressEffect_caught_up. }
  assert (N5 : not_full_early (continuousEffect (progressEffect now s3))).
  { apply continuousEffect_not_full_early;
      [apply progressEffect_caught_up|apply progressEffect_not_full_early, K3]. }
  apply effects_not_full_early. split;
    [apply render_caught_up; right; exact C5|apply render_not_full_early, N5].
Qed.

(** X5. In every state reached from the mount, the target is at most 99
    while the ratchet is below the last step; a target of 100 is shown only
    with [highestStepReached] at 5. *)
Theorem no_full_bar_before_last_step docId p0 now evs :
  let s := run docId (mount p0 now) evs in
  (highestStepReached s < 5 -> (targetProgress s <= 99)%Q) /\
  ((99 < targetProgress s)%Q -> highestStepReached s = 5).
Proof.
  intros s.
  assert (H : steady s /\ not_full_early s).
  { subst s. apply (run_rule (fun s => steady s /\ not_full_early s)).
    - intros s e (K & Hn). split; [apply step_steady, K|].
      apply step_not_full_early; assumption.
    - split; [apply mount_steady|apply mount_not_full_early]. }
  destruct H as ((_ & Ht & _ & _) & Hn). split; [exact Hn|].
  intros H99. unfold not_full_early in Hn.
  destruct (Z_lt_le_dec (highestStepReached s) 5) as [Hlt|Hge].
  - specialize (Hn Hlt). lra.
  - apply in_table_nonneg in Ht. lia.
Qed.

Lemma no_full_bar_before_last_step_witness :
  (targetProgress (run "doc" (mount 0 0) []) <= 99)%Q.
Proof.
  refine (proj1 (no_full_bar_before_last_step "doc" 0 0 []) _).
  vm_compute. reflexivity.
Defined.

(** *** The remaining time, again *)

(** X8. The remaining-time estimate is a whole number of seconds, never
    negative, and at most 120 unless the clock reads earlier than
    [startTime]; for a given state it never grows as time passes. *)
Theorem remaining_time_range now s :
  let r := calculateRemainingTime now s in
  (exists n : Z, r = inject_Z n /\ 0 <= n /\ (startTime s <= now -> n <= 120)) /\
  (forall now', now <= now' -> (calculateRemainingTime now' s <= r)%Q).
Proof.
  cbn zeta. unfold calculateRemainingTime.
  destruct (String.eqb (status s) "completed").
  { split; [exists 0; repeat split; lia|intros; apply Qle_refl]. }
  destruct (Qlt_le_dec 0 (smoothProgress s / 100)) as [Hp|Hp].
  - set (m := Z.max 0 (estimatedDuration - (now - startTime s))).
    split.
    + exists (Qfloor (inject_Z m / 1000 + (1 # 2))).
      split; [reflexivity|].
      assert (Hm : (0 <= inject_Z m)%Q).
      { change 0%Q with (inject_Z 0). rewrite <- Zle_Qle. unfold m. lia. }
      split.
      * assert (H : (inject_Z 0 <= Math_round (inject_Z m / 1000))%Q).
        { apply Math_round_ge. change (inject_Z 0) with 0%Q.
          apply Qle_shift_div_l; [reflexivity|]. lra. }
        unfold Math_round in H. rewrite <- Zle_Qle in H. exact H.
      * intros Ht.
        assert (H : (Math_round (inject_Z m / 1000) <= inject_Z 120)%Q).
        { apply Math_round_le. apply Qle_shift_div_r; [reflexivity|].
          change (inject_Z 120 * 1000)%Q with (inject_Z 120 * inject_Z 1000)%Q.
          rewrite <- inject_Z_mult, <- Zle_Qle. unfold m, estimatedDuration. lia. }
        unfold Math_round in H. rewrite <- Zle_Qle in H. exact H.
    + intros now' H. apply Math_round_mono.
      apply Qle_shift_div_l; [reflexivity|].
      unfold Qdiv. rewrite <- Qmult_assoc, (Qmult_comm (/ _)), Qmult_inv_r, Qmult_1_r
        by discriminate.
      rewrite <- Zle_Qle. lia.
  - split; [|intros; apply Qle_refl].
    exists 120. split; [vm_compute; reflexivity|]. split; lia.
Qed.

Lemma remaining_time_range_witness :
  let s := run "doc" (mount 0 1000) [] in
  (calculateRemainingTime 5000 s <= calculateRemainingTime 2000 s)%Q.
Proof.
  intros s.
  refine (proj2 (remaining_time_range 2000 s) 5000 _).
  vm_compute. discriminate.
Defined.


(** *** Names the lookup tables inherit *)

(** C2, on the code: [getCurrentStep] does go back.  After the poll that
    reports the deep analysis it returns 3; a poll whose message is
    [constructor], a name every object literal inherits, then makes it
    return a value that is not a number, and every entry of the step list is
    shown pending, with the cell [highestStepReached] still at 3.  And the
    callback of the interval calls the [getCurrentStep] of the render that
    installed it: after a poll that moved the message to the summary, but
    not the target, the render returns 2 and the next tick's call returns
    1. *)
Theorem getCurrentStep_goes_back :
  let t0 := 1700000000000 in
  let s := run "doc" (mount 0 t0)
             [PollResponse 1000000 (t0 + 1000)
                (Some {| sd_status := "processing";
                         sd_message := Some "Performing deep analysis..." |})] in
  let s' := step "doc" s
              (PollResponse 2000000 (t0 + 3000)
                 (Some {| sd_status := "processing";
                          sd_message := Some "constructor" |})) in
  let u := run "doc" (mount 0 t0)
             [PollResponse 100000 (t0 + 100)
                (Some {| sd_status := "processing";
                         sd_message := Some "Creating document summary..." |})] in
  (fst (getCurrentStep s) = Index 3 /\
   fst (getCurrentStep s') = NaN /\
   highestStepReached s' = 3 /\
   forall i, getStepStatus i s' = StepPending) /\
  (fst (getCurrentStep u) = Index 2 /\
   exists c, interval u = Some c /\ fst (currentStep c) = Index 1).
Proof.
  cbn zeta. split.
  - split; [vm_compute; reflexivity|].
    match goal with |- fst (getCurrentStep ?x) = NaN /\ _ =>
      assert (E : fst (getCurrentStep x) = NaN) by (vm_compute; reflexivity)
    end.
    split; [exact E|]. split; [vm_compute; reflexivity|].
    intros i. rewrite getStepStatus_value, E. reflexivity.
  - split; [vm_compute; reflexivity|].
    eexists. split; [vm_compute; reflexivity|vm_compute; reflexivity].
Qed.

(** C9, on the code: the step computed for a message or a status that is an
    inherited name is the inherited member, not one of 0, 1, 2, 3 and 5, and
    [getCurrentStep] then returns a value that is not a number. *)
Theorem rawStep_of_an_inherited_name :
  rawStep "processing" "constructor" = NaN /\
  rawStep "toString" "Uploading..." = NaN /\
  (forall k, In k [0; 1; 2; 3; 5] ->
             rawStep "processing" "constructor" <> Index k) /\
  fst (getCurrentStep
         (step "doc" (mount 0 0)
            (PollResponse 0 0
               (Some {| sd_status := "processing";
                        sd_message := Some "constructor" |}))))
  = NaN.
Proof.
  split; [reflexivity|]. split; [reflexivity|].
  split; [intros k _; discriminate|vm_compute; reflexivity].
Qed.

(** X18. What holds of the fifth entry.  A step computed from a status and
    a message is 0, 1, 2, 3 or 5 whenever it is a number, which it is for
    every status and message that is not an inherited name.  The displayed
    list has five entries (indices 0 to 4), and in no state reached from the
    mount does [getCurrentStep] return 4, so the fifth entry is never the
    active one: the step goes from 3 to 5, one past the last index. *)
Theorem step_four_is_never_active :
  (forall st m k, rawStep st m = Index k -> In k [0; 1; 2; 3; 5]) /\
  (forall st m, ordinary st -> ordinary m ->
                exists k, rawStep st m = Index k /\ In k [0; 1; 2; 3; 5]) /\
  length processingSteps = 5%nat /\
  rawStep "processing" "Performing deep analysis..." = Index 3 /\
  rawStep "processing" "Indexing document for search..." = Index 5 /\
  Z.of_nat (length processingSteps) - 1 < 5 /\
  forall docId p0 now evs,
    let s := run docId (mount p0 now) evs in
    fst (getCurrentStep s) <> Index 4 /\ getStepStatus 4 s <> StepActive.
Proof.
  assert (T : forall st m k, rawStep st m = Index k -> In k [0; 1; 2; 3; 5]).
  { intros st m k E. pose proof (rawStep_in_table st m k E) as H.
    unfold in_table in H. cbn. intuition. }
  split; [exact T|]. split.
  { intros st m Os Om. destruct (rawStep_ordinary st m Os Om) as [k E].
    exists k. split; [exact E|exact (T st m k E)]. }
  split; [reflexivity|]. split; [reflexivity|]. split; [reflexivity|].
  split; [cbn; lia|].
  intros docId p0 now evs s.
  assert (Hne : fst (getCurrentStep s) <> Index 4).
  { rewrite getCurrentStep_value.
    destruct (rawStep (status s) (message s)) as [k|] eqn:E; [|discriminate].
    pose proof (rawStep_in_table _ _ _ E) as Tk.
    pose proof (highest_in_table docId p0 now evs) as Th. fold s in Th.
    unfold in_table in *. intros H. injection H as H. lia. }
  split; [exact Hne|].
  rewrite getStepStatus_value.
  destruct (fst (getCurrentStep s)) as [k|]; [|discriminate].
  destruct (Z.ltb_spec 4 k); [discriminate|].
  destruct (Z.eqb_spec 4 k); [congruence|discriminate].
Qed.

Lemma step_four_is_never_active_witness :
  In 3 [0; 1; 2; 3; 5].
Proof.
  exact (proj1 step_four_is_never_active
           "processing" "Performing deep analysis..." 3 eq_refl).
Defined.

(** The model computes in doubles: a frame stamped exactly 3000ms after the
    start of a loop from 0 to 62 shows 61, because the quotient of 3000 by
    the rounded step duration is just below 62. *)
Lemma frame_at_the_duration_is_one_short :
  let s := run "doc" (mount 0 0)
             [PollResponse 1000000 26400
                (Some {| sd_status := "processing";
                         sd_message := Some "Performing deep analysis..." |})] in
  let s' := step "doc" s (AnimationFrame 4000000) in
  (targetProgress s' == 62)%Q /\ (smoothProgress s' == 61)%Q.
Proof. cbn zeta. split; vm_compute; reflexivity. Qed.

(** The stale closure at work: after the poll that reports the deep
    analysis the target is 41; the poll with the inherited name changes
    neither the target nor the interval; the next tick recomputes the
    progress with the earlier message and moves the target to 42; the tick
    after that has the new message, recomputes 0 and falls back to the sum
    42 + 0.3 of doubles. *)
Lemma ticks_after_an_inherited_name :
  let t0 := 1700000000000 in
  let s := run "doc" (mount 0 t0)
             [PollResponse 1000000 (t0 + 1000)
                (Some {| sd_status := "processing";
                         sd_message := Some "Performing deep analysis..." |});
              PollResponse 2000000 (t0 + 3000)
                (Some {| sd_status := "processing";
                         sd_message := Some "constructor" |})] in
  let s1 := step "doc" s (IntervalTick 600000 (t0 + 3600)) in
  let s2 := step "doc" s1 (IntervalTick 600000 (t0 + 4200)) in
  (targetProgress s == 41)%Q /\ (targetProgress s1 == 42)%Q /\
  targetProgress s2 = fl (42 + fl (3 # 10)) /\
  (targetProgress s2 < 423 # 10)%Q.
Proof.
  cbn zeta. split; [vm_compute; reflexivity|]. split; [vm_compute; reflexivity|].
  split; vm_compute; reflexivity.
Qed.
End ProcessingScreenFacts.

(** * Properties of the upload dialog *)

Module FileUploadFacts.
Import FileUpload.

Lemma filter_none {A} (f : A -> bool) l :
  Forall (fun x => f x = false) l -> List.filter f l = [].
Proof.
  induction 1 as [|x l Hx _ IH]; [reflexivity|]. cbn. rewrite Hx. exact IH.
Qed.

(** C8, on the code: a file of a foreign type gets no inline error.  The
    dropzone filters [notes.txt], of type [text/plain], out of the files it
    hands to [onDrop], which then returns at once: the dialog is left as it
    was, with no error shown.  So it is for every drop of files that the
    filter of the dropzone refuses. *)
Theorem foreign_type_drop_sets_no_error :
  let file := {| name := "notes.txt"; type := "text/plain"; size := 12 |} in
  rejected file /\
  dropzone [file] = [] /\
  ui initial (Drop [file]) = initial /\
  uploadError (ui initial (Drop [file])) = None /\
  forall files s, Forall (fun f => fileAccepted f = false) files ->
                  ui s (Drop files) = s.
Proof.
  cbn zeta. split; [left; reflexivity|]. split; [reflexivity|].
  split; [reflexivity|]. split; [reflexivity|].
  intros files s H. cbn [ui]. unfold dropzone. rewrite (filter_none _ _ H).
  cbn. destruct (negb (uploading s) && negb (fileChosen s)); reflexivity.
Qed.

(** X19. A file that reaches [onDrop] and fails one of its two checks is
    refused there: the inline error is set (the type message, or else the
    size message), the selection is left as it was, no request is made, and
    with no file selected [handleUpload] does nothing.  Through the rendered
    dropzone this is the case of a file dropped alone that passes the
    filter, by its listed extension or type, and has a type that is not
    allowed or a size above 10MB: the error is shown and no file is
    selected. *)
Theorem invalid_drop_is_rejected file rest s :
  rejected file ->
  let s' := onDrop (file :: rest) s in
  uploadError s'
  = Some (if includes allowedTypes (type file) then size_error else type_error) /\
  selectedFile s' = selectedFile s /\
  uploads s' = uploads s /\
  (selectedFile s = None -> handleUpload s' = s') /\
  (uploading s = false -> selectedFile s = None -> fileAccepted file = true ->
   ui s (Drop [file]) = onDrop [file] s /\
   selectedFile (ui s (Drop [file])) = None /\
   uploadError (ui s (Drop [file]))
   = Some (if includes allowedTypes (type file) then size_error else type_error)).
Proof.
  intros Hrej s'.
  assert (E : forall l, onDrop (file :: l) s
                        = setUploadError
                            (Some (if includes allowedTypes (type file)
                                   then size_error else type_error)) s).
  { intros l. unfold onDrop.
    destruct (includes allowedTypes (type file)) eqn:Ht; cbn [negb]; [|reflexivity].
    destruct Hrej as [Hty|Hsz]; [congruence|].
    destruct (Z.ltb_spec maxSize (size file)); [reflexivity|lia]. }
  subst s'. rewrite (E rest).
  split; [reflexivity|]. split; [reflexivity|]. split; [reflexivity|]. split.
  - intros Hsel. unfold handleUpload. cbn [selectedFile setUploadError].
    rewrite Hsel. reflexivity.
  - intros Hu Hsel Hacc.
    assert (Eui : ui s (Drop [file]) = onDrop [file] s).
    { cbn [ui]. unfold fileChosen. rewrite Hu, Hsel. cbn [negb andb].
      unfold dropzone. cbn [List.filter]. rewrite Hacc. reflexivity. }
    split; [exact Eui|]. rewrite Eui, (E []).
    split; [exact Hsel|reflexivity].
Qed.

Lemma invalid_drop_is_rejected_witness :
  let file := {| name := "scan.pdf"; type := "image/tiff"; size := 12 |} in
  uploadError (ui initial (Drop [file])) = Some type_error.
Proof.
  intros file.
  refine (proj2 (proj2 (proj2 (proj2 (proj2 (proj2
            (invalid_drop_is_rejected file [] initial _))))
            _ _ _))).
  - left. reflexivity.
  - reflexivity.
  - reflexivity.
  - reflexivity.
Defined.

(** *** Every request is a valid one *)

Lemma filter_length_le {A} (f : A -> bool) l :
  (length (List.filter f l) <= length l)%nat.
Proof.
  induction l as [|x l IH]; [reflexivity|]. cbn [List.filter].
  destruct (f x); cbn [length]; lia.
Qed.

Lemma filter_length_lt id l :
  existsb (Nat.eqb id) l = true ->
  (length (List.filter (fun j => negb (Nat.eqb j id)) l) < length l)%nat.
Proof.
  induction l as [|j l IH]; [discriminate|]. cbn [existsb List.filter].
  intros H. pose proof (filter_length_le (fun j => negb (Nat.eqb j id)) l) as Hl.
  destruct (Nat.eqb_spec j id) as [->|Hne]; cbn [negb].
  - cbn [length]. lia.
  - cbn [length]. apply orb_true_iff in H as [H|H].
    + apply Nat.eqb_eq in H. congruence.
    + specialize (IH H). lia.
Qed.

Lemma generateFilePreview_dialog_ok file s :
  dialog_ok s -> dialog_ok (generateFilePreview file s).
Proof.
  intros H. unfold generateFilePreview.
  destruct (String.prefix "image/" (type file)); [exact H|].
  destruct (String.eqb (type file) "application/pdf"); [exact H|].
  destruct (_ || _); exact H.
Qed.

Lemma onDrop_dialog_ok files s : dialog_ok s -> dialog_ok (onDrop files s).
Proof.
  intros H. unfold onDrop.
  destruct files as [|file rest]; [exact H|].
  destruct (includes allowedTypes (type file)) eqn:Ht; cbn [negb]; [|exact H].
  destruct (Z.ltb_spec maxSize (size file)) as [Hs|Hs]; [exact H|].
  assert (H1 : dialog_ok (setCustomName (removeExtension (name file))
                            (setSelectedFile (Some file) s))).
  { destruct H as (Hf & Hl & Hu & Hn).
    split; [|exact (conj Hl (conj Hu Hn))].
    cbn. intros f [= <-]. split; assumption. }
  exact (generateFilePreview_dialog_ok file _ H1).
Qed.

Lemma handleLogoUpload_dialog_ok files s :
  dialog_ok s -> dialog_ok (handleLogoUpload files s).
Proof.
  intros H. unfold handleLogoUpload.
  destruct files as [|file rest]; [exact H|].
  destruct (String.prefix "image/" (type file)) eqn:Hp; [|exact H].
  destruct H as (Hf & Hl & Hu & Hn).
  split; [exact Hf|]. split; [|split; assumption].
  cbn. intros f [= <-]. exact Hp.
Qed.

Lemma handleUpload_dialog_ok s : dialog_ok s -> dialog_ok (handleUpload s).
Proof.
  intros H. unfold handleUpload.
  destruct (selectedFile s) as [file|] eqn:Es; [|exact H].
  destruct H as (Hf & Hl & Hu & Hn).
  assert (Hv : valid_request (formDataOf file s)).
  { split; [apply Hf, Es|]. split; [exact Hl|].
    cbn [fd_file fd_customName formDataOf]. intros Hne.
    destruct (String.eqb_spec (customName s) ""); assumption. }
  unfold dialog_ok. cbn.
  split; [exact Hf|]. split; [exact Hl|].
  split; [apply Forall_app; split; [exact Hu|constructor; [exact Hv|constructor]]|].
  rewrite !length_app. cbn. lia.
Qed.

Lemma uploadSettled_dialog_ok id r s :
  dialog_ok s -> dialog_ok (uploadSettled id r s).
Proof.
  intros H. unfold uploadSettled.
  destruct (existsb (Nat.eqb id) (pending s)) eqn:Ep; [|exact H].
  pose proof (filter_length_lt id (pending s) Ep) as Hlt.
  destruct H as (Hf & Hl & Hu & Hn).
  destruct r as [docId|serverError]; unfold dialog_ok; cbn.
  - split; [exact Hf|]. split; [exact Hl|]. split; [exact Hu|].
    rewrite length_app. cbn. lia.
  - split; [exact Hf|]. split; [exact Hl|]. split; [exact Hu|]. lia.
Qed.

Lemma progressInterval_dialog_ok id s :
  dialog_ok s -> dialog_ok (progressInterval id s).
Proof.
  intros H. unfold progressInterval.
  destruct (existsb (Nat.eqb id) (intervals s)); [|exact H].
  destruct (90 <=? uploadProgress s); exact H.
Qed.

Lemma onload_dialog_ok i result s : dialog_ok s -> dialog_ok (onload i result s).
Proof.
  intros H. unfold onload.
  destruct (reads s !! i) as [[f|f]|]; exact H.
Qed.

Lemma step_dialog_ok s e : dialog_ok s -> dialog_ok (step s e).
Proof.
  intros H. destruct e; cbn [step].
  - apply onDrop_dialog_ok, H.
  - apply handleLogoUpload_dialog_ok, H.
  - destruct H as (Hf & Hl & Hu & Hn).
    split; [intros f E; discriminate E|exact (conj Hl (conj Hu Hn))].
  - destruct H as (Hf & Hl & Hu & Hn).
    split; [exact Hf|]. split; [intros f E; discriminate E|split; assumption].
  - exact H.
  - exact H.
  - exact H.
  - apply handleUpload_dialog_ok, H.
  - apply uploadSettled_dialog_ok, H.
  - apply progressInterval_dialog_ok, H.
  - apply onload_dialog_ok, H.
Qed.

Lemma run_dialog_ok evs s : dialog_ok s -> dialog_ok (run s evs).
Proof.
  revert s. induction evs as [|e evs IH]; intros s H; cbn; [exact H|].
  apply IH, step_dialog_ok, H.
Qed.

Lemma initial_dialog_ok : dialog_ok initial.
Proof.
  split; [intros f E; discriminate E|]. split; [intros f E; discriminate E|].
  split; [constructor|]. cbn. lia.
Qed.

(** The rendered dialog does nothing that the handlers cannot do. *)
Lemma ui_dialog_ok s e : dialog_ok s -> dialog_ok (ui s e).
Proof.
  intros H. destruct e; cbn [ui];
    try (destruct (negb (uploading s) && fileChosen s);
         [apply step_dialog_ok, H|exact H]);
    try (apply step_dialog_ok, H).
  destruct (negb (uploading s) && negb (fileChosen s)); [|exact H].
  apply onDrop_dialog_ok, H.
Qed.

(** X9. Whatever the user does with the dialog (drops, logo choices,
    removals, edits of the name, theme and font, uploads that succeed or
    fail), every upload request carries a file of an allowed type of at most
    10MB, a logo that is an image if it carries one, and a custom name that
    is not empty unless the file name is; the selected file is always a
    valid one; and [onSuccess] has been called at most once per request. *)
Theorem upload_requests_are_valid evs :
  let s := run initial evs in
  Forall (fun fd =>
            includes allowedTypes (type (fd_file fd)) = true /\
            size (fd_file fd) <= 10 * 1024 * 1024 /\
            (forall logo, fd_logo fd = Some logo ->
                          String.prefix "image/" (type logo) = true) /\
            (name (fd_file fd) <> "" -> fd_customName fd <> ""))
         (uploads s) /\
  (forall file, selectedFile s = Some file ->
                includes allowedTypes (type file) = true /\
                size file <= 10 * 1024 * 1024) /\
  (length (succeeded s) <= length (uploads s))%nat.
Proof.
  intros s. destruct (run_dialog_ok evs initial initial_dialog_ok)
    as (Hf & Hl & Hu & Hn). fold s in Hf, Hl, Hu, Hn.
  split; [|split; [intros f E; exact (Hf f E)|lia]].
  eapply Forall_impl; [exact Hu|].
  intros fd ([H1 H2] & H3 & H4).
  exact (conj H1 (conj H2 (conj H3 H4))).
Qed.

Lemma upload_requests_are_valid_witness :
  let file := {| name := "lease.pdf"; type := "application/pdf"; size := 2048 |} in
  let evs := [Drop [file]; Upload; Tick 0; Settled 0 (UploadFailed None)] in
  (length (succeeded (run initial evs)) <= length (uploads (run initial evs)))%nat.
Proof.
  intros file evs.
  exact (proj2 (proj2 (upload_requests_are_valid evs))).
Defined.

(** *** Dropping, removing, uploading *)

Lemma generateFilePreview_image file s :
  String.prefix "image/" (type file) = true ->
  generateFilePreview file s = setReads (reads s ++ [PreviewRead file]) s.
Proof. intros H. unfold generateFilePreview. rewrite H. reflexivity. Qed.

Lemma generateFilePreview_other file s :
  String.prefix "image/" (type file) = false ->
  exists p, generateFilePreview file s = setFilePreview (Some p) s.
Proof.
  intros H. unfold generateFilePreview. rewrite H.
  destruct (String.eqb (type file) "application/pdf"); [eauto|].
  destruct (_ || _); eauto.
Qed.

(** X10. A valid file dropped on the dialog becomes the selected file, with
    the error cleared and the name without its extension proposed; an
    upload then sends one request, for that very file, whose custom name is
    the proposed one, or the file name itself if the proposed one is empty.
    For a file that is not an image no reader is started, and removing the
    file gives back the dialog as it was, provided it had no file, preview,
    name or error.  For an image the preview is left to a reader, which is
    still pending after the file is removed: when it fires, the dialog shows
    the preview of the image with no file selected. *)
Theorem valid_drop_then_upload_or_remove file rest s :
  valid_file file ->
  let s1 := onDrop (file :: rest) s in
  selectedFile s1 = Some file /\ uploadError s1 = None /\
  customName s1 = removeExtension (name file) /\
  (exists fd,
     uploads (handleUpload s1) = (uploads s ++ [fd])%list /\
     fd_file fd = file /\
     fd_customName fd
     = (if String.eqb (removeExtension (name file)) "" then name file
        else removeExtension (name file)) /\
     fd_logo fd = logoFile s) /\
  (String.prefix "image/" (type file) = false ->
   reads s1 = reads s /\
   (selectedFile s = None -> filePreview s = None -> customName s = "" ->
    uploadError s = None -> handleRemoveFile s1 = s)) /\
  (String.prefix "image/" (type file) = true ->
   reads s1 = (reads s ++ [PreviewRead file])%list /\
   filePreview s1 = filePreview s /\
   forall result,
     let s2 := onload (length (reads s)) result (handleRemoveFile s1) in
     selectedFile s2 = None /\ filePreview s2 = Some result /\
     reads s2 = reads s).
Proof.
  intros [Ht Hs] s1.
  assert (E : s1 = setUploadError None
                     (generateFilePreview file
                        (setCustomName (removeExtension (name file))
                           (setSelectedFile (Some file) s)))).
  { subst s1. unfold onDrop. rewrite Ht. cbn [negb].
    destruct (Z.ltb_spec maxSize (size file)); [lia|reflexivity]. }
  rewrite E. clear E s1.
  destruct (String.prefix "image/" (type file)) eqn:Hi.
  - rewrite (generateFilePreview_image file _ Hi).
    split; [reflexivity|]. split; [reflexivity|]. split; [reflexivity|].
    split; [eexists; repeat split; reflexivity|].
    split; [discriminate|]. intros _.
    split; [reflexivity|]. split; [reflexivity|].
    intros result. unfold onload. cbn.
    rewrite lookup_app_r by lia. rewrite Nat.sub_diag. cbn.
    split; [reflexivity|]. split; [reflexivity|].
    rewrite delete_middle. apply app_nil_r.
  - destruct (generateFilePreview_other file
                (setCustomName (removeExtension (name file))
                   (setSelectedFile (Some file) s)) Hi) as [p ->].
    split; [reflexivity|]. split; [reflexivity|]. split; [reflexivity|].
    split; [eexists; repeat split; reflexivity|].
    split; [|discriminate]. intros _. split; [reflexivity|].
    intros E1 E2 E3 E4. destruct s. cbn in *. subst. reflexivity.
Qed.

Lemma valid_drop_then_upload_or_remove_witness :
  let file := {| name := "photo.png"; type := "image/png"; size := 2048 |} in
  filePreview (onload 0 "data:image/png;base64,AAAA"
                 (handleRemoveFile (onDrop [file] initial)))
  = Some "data:image/png;base64,AAAA".
Proof.
  intros file.
  refine (proj1 (proj2 (proj2 (proj2
            (proj2 (proj2 (proj2 (proj2 (proj2
               (valid_drop_then_upload_or_remove file [] initial _))))) _))
            "data:image/png;base64,AAAA"))).
  - split; [reflexivity|]. vm_compute. discriminate.
  - reflexivity.
Defined.

(** *** The simulated progress *)

Lemma progressTick_min n :
  (n <= 9)%nat ->
  progressTick (Z.min (10 * Z.of_nat n) 90) = Z.min (10 * Z.of_nat (S n)) 90.
Proof.
  intros H. unfold progressTick.
  destruct (Z.leb_spec 90 (Z.min (10 * Z.of_nat n) 90)); lia.
Qed.

(** X11. The simulated progress of a request.  When [handleUpload] is called
    with a file selected and no interval left over from an earlier request,
    the progress after [n] ticks of the interval it registers is
    [min (10 n) 90]: it grows by 10 per tick and stays at 90 from the ninth
    tick on; the tenth tick clears the interval.  Meanwhile the dialog is
    uploading and the request is pending. *)
Theorem simulated_progress_stops_at_90 s n :
  fileChosen s = true -> intervals s = [] ->
  let id := length (uploads s) in
  let s' := Nat.iter n (progressInterval id) (handleUpload s) in
  uploadProgress s' = Z.min (10 * Z.of_nat n) 90 /\
  intervals s' = (if (n <=? 9)%nat then [id] else []) /\
  uploading s' = true /\
  pending s' = (pending s ++ [id])%list.
Proof.
  intros Hf Hi id. unfold fileChosen in Hf.
  destruct (selectedFile s) as [file|] eqn:Es; [|discriminate].
  cbn zeta. induction n as [|n IH].
  - unfold handleUpload. rewrite Es. cbn. rewrite Hi. repeat split.
  - destruct IH as (Hp & Hl & Hu & Hq).
    rewrite Nat.iter_succ.
    remember (Nat.iter n (progressInterval id) (handleUpload s)) as x eqn:Ex.
    clear Ex. unfold progressInterval. rewrite Hl, Hp.
    destruct (Nat.leb_spec n 9) as [H9|H9].
    + cbn [existsb]. rewrite Nat.eqb_refl. cbn [orb].
      rewrite (progressTick_min n H9).
      destruct (Z.leb_spec 90 (Z.min (10 * Z.of_nat n) 90)) as [Hge|Hlt].
      * assert (n = 9%nat) by lia. subst n.
        unfold clearInterval. cbn. rewrite Hl. cbn. rewrite Nat.eqb_refl. cbn.
        repeat split; assumption.
      * destruct (Nat.leb_spec (S n) 9); [|lia]. cbn.
        repeat split; assumption.
    + cbn [existsb]. destruct (Nat.leb_spec (S n) 9); [lia|].
      split; [rewrite Hp; lia|]. repeat split; assumption.
Qed.

Lemma simulated_progress_stops_at_90_witness :
  let file := {| name := "lease.pdf"; type := "application/pdf"; size := 2048 |} in
  let s := onDrop [file] initial in
  uploadProgress (Nat.iter 3 (progressInterval 0) (handleUpload s)) = 30.
Proof.
  intros file s.
  exact (proj1 (simulated_progress_stops_at_90 s 3 eq_refl eq_refl)).
Defined.

(** The failure path does not clear the interval.  After a request that
    failed, a second request runs with two intervals: one tick of each takes
    the progress to 20.  And when the second request succeeds, the progress
    is set to 100 with the first interval still registered, whose next tick
    puts it back to 90. *)
Lemma failed_upload_leaves_its_interval :
  let file := {| name := "lease.pdf"; type := "application/pdf"; size := 2048 |} in
  let s := session initial
             [Drop [file]; Upload; Settled 0 (UploadFailed None); Upload] in
  intervals s = [0; 1]%nat /\
  uploadProgress (session s [Tick 0; Tick 1]) = 20 /\
  uploadProgress (session s [Settled 1 (UploadOk "doc")]) = 100 /\
  uploadProgress (session s [Settled 1 (UploadOk "doc"); Tick 0]) = 90.
Proof. cbn zeta. repeat split; vm_compute; reflexivity. Qed.

(** *** The proposed name *)

Lemma list_ascii_of_string_app a b :
  String.list_ascii_of_string (a ++ b)
  = (String.list_ascii_of_string a ++ String.list_ascii_of_string b)%list.
Proof. induction a as [|c a IH]; simpl; [reflexivity|]. rewrite IH. reflexivity. Qed.

Lemma string_of_list_ascii_app l1 l2 :
  String.string_of_list_ascii (l1 ++ l2)%list
  = String.string_of_list_ascii l1 ++ String.string_of_list_ascii l2.
Proof. induction l1 as [|c l IH]; simpl; [reflexivity|]. rewrite IH. reflexivity. Qed.

(** Past a run of characters that are neither [.] nor [/], the scan meets
    the dot: an extension if the run was not empty. *)
Lemma scan_extension_dot l seen rest :
  Forall (fun c => is_dot_or_slash c = false) l ->
  scan_extension seen (l ++ "."%char :: rest)
  = if seen || negb (match l with [] => true | _ => false end)
    then Some rest else None.
Proof.
  intros H. revert seen. induction H as [|c l Hc Hl IH]; intros seen.
  - cbn. destruct seen; reflexivity.
  - cbn [app scan_extension]. rewrite Hc, IH. cbn. rewrite orb_true_r.
    reflexivity.
Qed.

Lemma scan_extension_no_dot l seen :
  Forall (fun c => c <> "."%char) l -> scan_extension seen l = None.
Proof.
  intros H. revert seen. induction H as [|c l Hc Hl IH]; intros seen;
    [reflexivity|].
  cbn [scan_extension]. destruct (is_dot_or_slash c); [|apply IH].
  destruct (Ascii.eqb_spec c "."%char); [contradiction|reflexivity].
Qed.

Lemma scan_extension_Some l seen rest :
  scan_extension seen l = Some rest ->
  exists ext, l = (ext ++ "."%char :: rest)%list.
Proof.
  revert seen. induction l as [|c l IH]; intros seen; [discriminate|].
  cbn [scan_extension]. destruct (is_dot_or_slash c).
  - destruct (Ascii.eqb_spec c "."%char) as [->|]; [|discriminate].
    destruct seen; [|discriminate]. intros [= <-]. exists []. reflexivity.
  - intros H. destruct (IH true H) as [ext ->]. exists (c :: ext). reflexivity.
Qed.

(** X12. The proposed name is the file name without its last extension: a
    final dot followed by one or more characters other than [.] and [/] is
    cut off with them.  A name without a dot, and a name that ends in a dot,
    are kept; and in every case the proposed name is a prefix of the file
    name, cut, if at all, just before a dot. *)
Theorem removeExtension_cuts_last_extension :
  (forall base ext,
     ext <> "" ->
     Forall (fun c => c <> "."%char /\ c <> "/"%char)
            (String.list_ascii_of_string ext) ->
     removeExtension (base ++ "." ++ ext) = base) /\
  (forall n, Forall (fun c => c <> "."%char) (String.list_ascii_of_string n) ->
             removeExtension n = n) /\
  (forall base, removeExtension (base ++ ".") = base ++ ".") /\
  (forall n, removeExtension n = n \/
             exists ext, n = removeExtension n ++ "." ++ ext).
Proof.
  split; [|split; [|split]].
  - intros base ext Hne Hext. unfold removeExtension.
    rewrite !list_ascii_of_string_app. cbn [String.list_ascii_of_string app].
    rewrite rev_app_distr. cbn [rev]. rewrite <- app_assoc. cbn [app].
    rewrite scan_extension_dot.
    + destruct ext as [|c ext]; [contradiction|].
      cbn [String.list_ascii_of_string rev].
      destruct (rev (String.list_ascii_of_string ext) ++ [c])%list eqn:E.
      { apply app_eq_nil in E. destruct E as [_ E]. discriminate E. }
      cbn. rewrite rev_involutive. apply String.string_of_list_ascii_of_string.
    + apply Forall_rev. eapply Forall_impl; [exact Hext|].
      intros c [H1 H2]. unfold is_dot_or_slash.
      destruct (Ascii.eqb_spec c "."%char); [contradiction|].
      destruct (Ascii.eqb_spec c "/"%char); [contradiction|reflexivity].
  - intros n H. unfold removeExtension.
    rewrite scan_extension_no_dot; [reflexivity|]. apply Forall_rev, H.
  - intros base. unfold removeExtension.
    rewrite list_ascii_of_string_app. cbn [String.list_ascii_of_string].
    rewrite rev_app_distr. reflexivity.
  - intros n. unfold removeExtension.
    destruct (scan_extension false (rev (String.list_ascii_of_string n)))
      as [rest|] eqn:E; [right|left; reflexivity].
    destruct (scan_extension_Some _ _ _ E) as [ext Hext].
    exists (String.string_of_list_ascii (rev ext)).
    rewrite <- (String.string_of_list_ascii_of_string n) at 1.
    rewrite <- (rev_involutive (String.list_ascii_of_string n)), Hext.
    rewrite rev_app_distr. cbn [rev]. rewrite <- app_assoc.
    rewrite !string_of_list_ascii_app. reflexivity.
Qed.

Lemma removeExtension_cuts_last_extension_witness :
  removeExtension ("lease.final" ++ "." ++ "pdf") = "lease.final".
Proof.
  refine (proj1 removeExtension_cuts_last_extension "lease.final" "pdf" _ _).
  - discriminate.
  - repeat constructor; discriminate.
Defined.

End FileUploadFacts.

(** * Properties of the mock authentication *)

Module AuthFacts.
Import Auth.

Lemma signIn_cases email password s :
  (is_mock_user email password /\
   exists u, signInWithEmail email password s
             = (Returned u,
                {| user := Some u; loading := false; error := None;
                   localStorage := <["user" := JSON_stringify u]> (localStorage s) |})
             /\ Auth.email u = email) \/
  (~ is_mock_user email password /\
   signInWithEmail email password s
   = (Thrown invalid_credentials,
      {| user := user s; loading := false; error := Some invalid_credentials;
         localStorage := localStorage s |})).
Proof.
  unfold signInWithEmail, mockUsers, is_mock_user. cbn [find mu_email mu_password].
  destruct (String.eqb_spec "demo@example.com" email) as [E1|E1];
    destruct (String.eqb_spec "demo123" password) as [P1|P1]; cbn [andb];
    try (left; split; [left; split; congruence|];
         eexists; split; [reflexivity|cbn; congruence]);
    destruct (String.eqb_spec "test@example.com" email) as [E2|E2];
    destruct (String.eqb_spec "test123" password) as [P2|P2]; cbn [andb];
    try (left; split; [right; split; congruence|];
         eexists; split; [reflexivity|cbn; congruence]);
    right; (split; [|reflexivity]); intros [[? ?]|[? ?]]; congruence.
Qed.

(** C10. [signInWithEmail] returns a user exactly when the email and the
    password are those of one of the two built-in accounts.  For any other
    pair it throws "Invalid email or password" and leaves the current user
    and the stored [user] entry (indeed the whole storage) as they were. *)
Theorem signInWithEmail_mock_users_only email password s :
  let r := signInWithEmail email password s in
  ((exists u, fst r = Returned u) <-> is_mock_user email password) /\
  (is_mock_user email password ->
   exists u, fst r = Returned u /\ Auth.email u = email /\
             user (snd r) = Some u /\
             localStorage (snd r) !! "user" = Some (JSON_stringify u)) /\
  (~ is_mock_user email password ->
   fst r = Thrown invalid_credentials /\
   user (snd r) = user s /\
   localStorage (snd r) !! "user" = localStorage s !! "user" /\
   localStorage (snd r) = localStorage s).
Proof.
  cbn zeta.
  destruct (signIn_cases email password s) as [[Hm (u & E & Eu)]|[Hn E]];
    rewrite E; cbn [fst snd user localStorage].
  - split; [split; [intros _; exact Hm|intros _; exists u; reflexivity]|].
    split; [|intros Hn; contradiction].
    intros _. exists u. split; [reflexivity|]. split; [exact Eu|].
    split; [reflexivity|]. apply lookup_insert_eq.
  - split; [split; [intros [u Hu]; discriminate Hu|intros Hm; contradiction]|].
    split; [intros Hm; contradiction|].
    intros _. repeat split; reflexivity.
Qed.

Lemma signInWithEmail_mock_users_only_witness :
  let s := {| user := None; loading := false; error := None;
              localStorage := ∅ |} in
  fst (signInWithEmail "demo@example.com" "wrong" s)
  = Thrown invalid_credentials.
Proof.
  intros s.
  refine (proj1 (proj2 (proj2
            (signInWithEmail_mock_users_only "demo@example.com" "wrong" s)) _)).
  intros [[_ H]|[H _]]; discriminate H.
Defined.

End AuthFacts.

(** * Properties of the authentication context *)

Module AuthContextFacts.
Import AuthContext.

(** *** The operations of the context *)

(** [signInWithEmail], case by case. *)
Lemma signInWithEmail_cases email password s :
  (Auth.is_mock_user email password /\
   exists u, signInWithEmail email password s
             = (Returned u,
                {| user := Some u; loading := false; error := None;
                   localStorage := <["user" := JSON_stringify u]> (localStorage s) |})
             /\ AuthContext.email u = email /\ provider u = "email") \/
  (~ Auth.is_mock_user email password /\
   signInWithEmail email password s
   = (Thrown Auth.invalid_credentials,
      {| user := user s; loading := false;
         error := Some Auth.invalid_credentials;
         localStorage := localStorage s |})).
Proof.
  unfold signInWithEmail.
  destruct (AuthFacts.signIn_cases email password
              {| Auth.user := None; Auth.loading := loading s;
                 Auth.error := error s; Auth.localStorage := localStorage s |})
    as [[Hm (u & E & Eu)]|[Hn E]]; rewrite E; cbn.
  - left. split; [exact Hm|]. exists (ofUserData u).
    unfold Auth.signInWithEmail, Auth.mockUsers in E. cbn [find] in E.
    cbn [Auth.mu_email Auth.mu_password] in E.
    destruct (String.eqb "demo@example.com" email && String.eqb "demo123" password);
      [|destruct (String.eqb "test@example.com" email
                  && String.eqb "test123" password); [|discriminate E]];
      injection E as <-; (split; [reflexivity|split; [exact Eu|reflexivity]]).
  - right. split; [exact Hn|reflexivity].
Qed.

Lemma signUpWithEmail_cases email password s :
  ((email = "demo@example.com" \/ email = "test@example.com") /\
   signUpWithEmail email password s
   = (Thrown user_exists,
      {| user := user s; loading := false; error := Some user_exists;
         localStorage := localStorage s |})) \/
  (email <> "demo@example.com" /\ email <> "test@example.com" /\
   let u := {| AuthContext.email := email; name := before_at email;
               photoURL := None; provider := "email" |} in
   signUpWithEmail email password s
   = (Returned u,
      {| user := Some u; loading := false; error := None;
         localStorage := <["user" := JSON_stringify u]> (localStorage s) |})).
Proof.
  unfold signUpWithEmail, Auth.mockUsers. cbn [find Auth.mu_email].
  destruct (String.eqb_spec "demo@example.com" email) as [E1|N1];
    [left; split; [left; congruence|reflexivity]|].
  destruct (String.eqb_spec "test@example.com" email) as [E2|N2];
    [left; split; [right; congruence|reflexivity]|].
  right. split; [congruence|]. split; [congruence|reflexivity].
Qed.

Lemma step_mirrored s c : mirrored s -> mirrored (step s c).
Proof.
  intros M. unfold mirrored in *. destruct c as [|e p|e p| |]; cbn [step].
  - cbn. apply lookup_insert_eq.
  - destruct (signInWithEmail_cases e p s) as [[_ (u & E & _)]|[_ E]];
      rewrite E; cbn; [apply lookup_insert_eq|exact M].
  - destruct (signUpWithEmail_cases e p s) as [[_ E]|(_ & _ & E)];
      rewrite E; cbn; [exact M|apply lookup_insert_eq].
  - cbn. apply lookup_delete_eq.
  - exact M.
Qed.

Lemma step_other_keys s c k :
  k <> "user" -> localStorage (step s c) !! k = localStorage s !! k.
Proof.
  intros Hk. destruct c as [|e p|e p| |]; cbn [step].
  - cbn. apply lookup_insert_ne. congruence.
  - destruct (signInWithEmail_cases e p s) as [[_ (u & E & _)]|[_ E]];
      rewrite E; cbn; [apply lookup_insert_ne; congruence|reflexivity].
  - destruct (signUpWithEmail_cases e p s) as [[_ E]|(_ & _ & E)];
      rewrite E; cbn; [reflexivity|apply lookup_insert_ne; congruence].
  - cbn. apply lookup_delete_ne. congruence.
  - reflexivity.
Qed.

Lemma run_other_keys cs s k :
  k <> "user" -> localStorage (run s cs) !! k = localStorage s !! k.
Proof.
  intros Hk. unfold run. revert s.
  induction cs as [|c cs IH]; intros s; cbn [fold_left]; [reflexivity|].
  rewrite IH. apply step_other_keys, Hk.
Qed.

(** X13. The context keeps the stored [user] entry equal to the current
    user, stringified (absent when there is none): if that holds before,
    as in a fresh browser, it holds after any sequence of sign-ins, failed
    or not, sign-ups, logouts and [clearError] calls.  And no such call
    ever writes or removes another key of the storage. *)
Theorem stored_user_mirrors_current_user s cs :
  mirrored s ->
  localStorage (run s cs) !! "user" = JSON_stringify <$> user (run s cs) /\
  forall k, k <> "user" -> localStorage (run s cs) !! k = localStorage s !! k.
Proof.
  intros M. split; [|intros k Hk; apply run_other_keys, Hk].
  unfold run. revert s M.
  induction cs as [|c cs IH]; intros s M; cbn [fold_left]; [exact M|].
  apply IH, step_mirrored, M.
Qed.

Lemma stored_user_mirrors_current_user_witness :
  let s := {| user := None; loading := true; error := None;
              localStorage := <["authToken" := "t"]> ∅ |} in
  localStorage (run s [SignUpWithEmail "ann@example.org" "pw"; Logout])
    !! "authToken"
  = localStorage s !! "authToken".
Proof.
  intros s.
  refine (proj2 (stored_user_mirrors_current_user s
                   [SignUpWithEmail "ann@example.org" "pw"; Logout] _)
            "authToken" _).
  - vm_compute. reflexivity.
  - discriminate.
Defined.

Lemma before_at_spec e :
  (before_at e = e \/ exists rest, e = before_at e ++ "@" ++ rest) /\
  Forall (fun c => c <> "@"%char) (String.list_ascii_of_string (before_at e)).
Proof.
  induction e as [|c e [IH1 IH2]]; [split; [left; reflexivity|constructor]|].
  cbn [before_at]. destruct (Ascii.eqb_spec c "@"%char) as [->|Hc].
  - split; [right; exists e; reflexivity|constructor].
  - split.
    + destruct IH1 as [E|[rest E]].
      * left. rewrite E. reflexivity.
      * right. exists rest.
        change (String.String c e
                = String.String c (before_at e ++ "@" ++ rest)).
        f_equal. exact E.
    + simpl. constructor; assumption.
Qed.

(** X14. [signUpWithEmail] throws "User already exists" exactly for the two
    built-in emails, whatever the password, and then leaves the user and the
    storage as they were.  For any other email it returns, and makes
    current, a user with that email and with the part of the email before
    the first [@] as name.  That account is not added to the built-in ones:
    signing in afterwards with the same email and password throws "Invalid
    email or password", the signed-up user staying current. *)
Theorem signUp_does_not_create_an_account email password s :
  let r := signUpWithEmail email password s in
  ((exists u, fst r = Returned u) <->
   email <> "demo@example.com" /\ email <> "test@example.com") /\
  (email = "demo@example.com" \/ email = "test@example.com" ->
   fst r = Thrown user_exists /\ user (snd r) = user s /\
   localStorage (snd r) = localStorage s) /\
  (email <> "demo@example.com" -> email <> "test@example.com" ->
   exists u,
     fst r = Returned u /\ user (snd r) = Some u /\
     AuthContext.email u = email /\ name u = before_at email /\
     (name u = email \/ exists rest, email = name u ++ "@" ++ rest) /\
     Forall (fun c => c <> "@"%char) (String.list_ascii_of_string (name u)) /\
     fst (signInWithEmail email password (snd r))
     = Thrown Auth.invalid_credentials /\
     user (snd (signInWithEmail email password (snd r))) = Some u).
Proof.
  cbn zeta.
  destruct (signUpWithEmail_cases email password s) as [[He E]|(N1 & N2 & E)];
    cbn zeta in E; rewrite E; cbn [fst snd user localStorage].
  - split; [split; [intros [u Hu]; discriminate Hu|intros [? ?]; destruct He; contradiction]|].
    split; [intros _; repeat split|intros ? ?; destruct He; contradiction].
  - split; [split; [intros _; split; assumption|intros _; eexists; reflexivity]|].
    split; [intros [?|?]; contradiction|]. intros _ _.
    eexists. split; [reflexivity|]. split; [reflexivity|].
    cbn [AuthContext.email name]. split; [reflexivity|]. split; [reflexivity|].
    destruct (before_at_spec email) as [B1 B2].
    split; [exact B1|]. split; [exact B2|].
    match goal with |- context [signInWithEmail email password ?x] =>
      destruct (signInWithEmail_cases email password x)
        as [[[[Hm _]|[Hm _]] _]|[_ E']] end;
      [contradiction|contradiction|].
    rewrite E'. split; reflexivity.
Qed.

Lemma signUp_does_not_create_an_account_witness :
  let s := {| user := None; loading := true; error := None;
              localStorage := ∅ |} in
  fst (signUpWithEmail "demo@example.com" "anything" s) = Thrown user_exists.
Proof.
  intros s.
  refine (proj1 (proj1 (proj2
            (signUp_does_not_create_an_account "demo@example.com" "anything" s))
            _)).
  left. reflexivity.
Defined.

(** X15. Logging out after any call of the context leaves no user, no error
    and no stored [user] entry, and the rest of the storage as it was before
    that call: the storage is the earlier one without its [user] key. *)
Theorem logout_forgets_the_session s c :
  let s' := logout (step s c) in
  user s' = None /\ error s' = None /\ loading s' = false /\
  localStorage s' = delete "user" (localStorage s) /\
  localStorage s' !! "user" = None.
Proof.
  cbn zeta. split; [reflexivity|]. split; [reflexivity|]. split; [reflexivity|].
  split; [|apply lookup_delete_eq].
  cbn [logout localStorage]. destruct c as [|e p|e p| |]; cbn [step].
  - cbn. apply delete_insert_eq.
  - destruct (signInWithEmail_cases e p s) as [[_ (u & E & _)]|[_ E]];
      rewrite E; cbn; [apply delete_insert_eq|reflexivity].
  - destruct (signUpWithEmail_cases e p s) as [[_ E]|(_ & _ & E)];
      rewrite E; cbn; [reflexivity|apply delete_insert_eq].
  - cbn. apply map_eq. intros k. rewrite !lookup_delete.
    destruct (decide ("user" = k)); reflexivity.
  - reflexivity.
Qed.

End AuthContextFacts.

(** * Properties of the API client *)

Module ApiFacts.
Import Api.

(** *** The bearer token *)

Lemma requestInterceptor_no_token storage config :
  storage !! "authToken" = None -> requestInterceptor storage config = config.
Proof. intros E. unfold requestInterceptor. rewrite E. reflexivity. Qed.

Lemma responseInterceptor_other a b :
  a <> Rejected (Some 401) -> responseInterceptor a b = b.
Proof.
  intros N. unfold responseInterceptor.
  destruct a as [|[st|]]; try reflexivity.
  destruct st as [|p|p]; try reflexivity.
  do 9 (destruct p as [p|p|]; try reflexivity). contradiction.
Qed.

Lemma responseInterceptor_401 b :
  responseInterceptor (Rejected (Some 401)) b
  = {| localStorage := delete "authToken" (localStorage b);
       location := "/login"; sent := sent b |}.
Proof. reflexivity. Qed.

Lemma answer_401_dec a : {a = Rejected (Some 401)} + {a <> Rejected (Some 401)}.
Proof.
  destruct a as [|[st|]]; [right; discriminate| |right; discriminate].
  destruct (Z.eq_dec st 401) as [->|N]; [left; reflexivity|right; congruence].
Qed.

Lemma responseInterceptor_token a b :
  localStorage b !! "authToken" = None ->
  localStorage (responseInterceptor a b) !! "authToken" = None /\
  sent (responseInterceptor a b) = sent b.
Proof.
  intros E. destruct (answer_401_dec a) as [->|N].
  - rewrite responseInterceptor_401. cbn. split; [apply lookup_delete_eq|reflexivity].
  - rewrite (responseInterceptor_other a b N). split; [exact E|reflexivity].
Qed.

Lemma step_token_free p e :
  token_free p -> token_free (step p e).
Proof.
  intros [Ht Hs]. unfold token_free.
  destruct e as [c|path ct a]; cbn [step browser localStorage sent].
  - split; [|exact Hs].
    rewrite AuthContextFacts.step_other_keys by discriminate. exact Ht.
  - unfold exchange. rewrite (requestInterceptor_no_token _ _ Ht).
    match goal with |- context [responseInterceptor a ?b] =>
      destruct (responseInterceptor_token a b Ht) as [E1 E2] end.
    split; [exact E1|]. rewrite E2. cbn [sent].
    apply Forall_app. split; [exact Hs|]. constructor; [|constructor].
    cbn [headers]. destruct ct; reflexivity.
Qed.

(** X16. Neither the authentication context nor the client stores an
    [authToken]: the calls of the context write the [user] key only, and the
    client only ever removes the token.  So from a page whose storage holds
    no token,
    over any sequence of context calls and API calls with any answers, no
    request leaves with an [Authorization] header and the storage still
    holds no token. *)
Theorem bearer_token_is_never_sent p evs :
  localStorage (browser p) !! "authToken" = None ->
  Forall (fun c => headers c !! "Authorization" = None) (sent (browser p)) ->
  let p' := run p evs in
  Forall (fun c => headers c !! "Authorization" = None) (sent (browser p')) /\
  localStorage (browser p') !! "authToken" = None.
Proof.
  intros Ht Hs. cbn zeta.
  assert (H : token_free (run p evs)).
  { unfold run. assert (H0 : token_free p) by (split; assumption).
    revert p H0 Ht Hs. induction evs as [|e evs IH]; intros p H0 _ _;
      cbn [fold_left]; [exact H0|].
    pose proof (step_token_free p e H0) as H1.
    apply (IH _ H1); apply H1. }
  destruct H as [H1 H2]. split; assumption.
Qed.

Lemma bearer_token_is_never_sent_witness :
  let p := {| auth := {| AuthContext.user := None; AuthContext.loading := true;
                         AuthContext.error := None;
                         AuthContext.localStorage := ∅ |};
              browser := {| localStorage := ∅; location := "/"; sent := [] |} |} in
  localStorage
    (browser (run p [AuthCall AuthContext.SignInWithGoogle;
                     ApiCall "/api/documents" None Fulfilled]))
    !! "authToken" = None.
Proof.
  intros p.
  refine (proj2 (bearer_token_is_never_sent p
                   [AuthCall AuthContext.SignInWithGoogle;
                    ApiCall "/api/documents" None Fulfilled] _ _)).
  - reflexivity.
  - constructor.
Defined.

(** X17. A request made while a non-empty token is stored leaves with the
    header [Authorization: Bearer <token>].  If it is answered 401 the token
    is removed and the browser sent to [/login], so that the next request
    leaves without an [Authorization] header; the current user of the
    authentication context and the stored [user] entry are not touched.  Any
    other answer, and an error without a response, leaves the storage and
    the location as they were. *)
Theorem unauthorized_answer_drops_the_token p path ct :
  let p1 := step p (ApiCall path ct (Rejected (Some 401))) in
  (forall token,
     localStorage (browser p) !! "authToken" = Some token -> token <> "" ->
     sent (browser p1)
     = (sent (browser p)
        ++ [{| url := path;
               headers := <["Authorization" := ("Bearer " ++ token)%string]>
                            (callHeaders ct) |}])%list) /\
  location (browser p1) = "/login" /\
  localStorage (browser p1) = delete "authToken" (localStorage (browser p)) /\
  AuthContext.user (auth p1) = AuthContext.user (auth p) /\
  localStorage (browser p1) !! "user" = localStorage (browser p) !! "user" /\
  (forall path' ct' a',
     sent (browser (step p1 (ApiCall path' ct' a')))
     = (sent (browser p1)
        ++ [{| url := path'; headers := callHeaders ct' |}])%list) /\
  (forall a, a <> Rejected (Some 401) ->
     localStorage (browser (step p (ApiCall path ct a)))
     = localStorage (browser p) /\
     location (browser (step p (ApiCall path ct a))) = location (browser p)).
Proof.
  cbn zeta. cbn [step browser auth]. unfold exchange.
  rewrite !responseInterceptor_401. cbn [location localStorage sent].
  split.
  { intros token E N. unfold requestInterceptor. rewrite E.
    destruct (String.eqb_spec token "") as [->|_]; [contradiction|].
    reflexivity. }
  split; [reflexivity|]. split; [reflexivity|]. split; [reflexivity|].
  split; [apply lookup_delete_ne; discriminate|]. split.
  - intros path' ct' a'.
    rewrite (requestInterceptor_no_token (delete "authToken" _))
      by apply lookup_delete_eq.
    destruct (answer_401_dec a') as [->|N].
    + rewrite responseInterceptor_401. reflexivity.
    + rewrite (responseInterceptor_other a' _ N). reflexivity.
  - intros a N. rewrite (responseInterceptor_other a _ N). split; reflexivity.
Qed.

Lemma unauthorized_answer_drops_the_token_witness :
  let p := {| auth := {| AuthContext.user := None; AuthContext.loading := true;
                         AuthContext.error := None;
                         AuthContext.localStorage := <["authToken" := "t"]> ∅ |};
              browser := {| localStorage := <["authToken" := "t"]> ∅;
                            location := "/"; sent := [] |} |} in
  sent (browser (step p (ApiCall "/api/upload" (Some "multipart/form-data")
                           (Rejected (Some 401)))))
  = [{| url := "/api/upload";
        headers := <["Authorization" := "Bearer t"]>
                     (callHeaders (Some "multipart/form-data")) |}].
Proof.
  intros p.
  refine (proj1 (unauthorized_answer_drops_the_token
                   p "/api/upload" (Some "multipart/form-data")) "t" _ _).
  - reflexivity.
  - discriminate.
Defined.

End ApiFacts.
